(** * A shallow embedding of lwan's Forth Salon compiler and interpreter

    Source: [src/samples/forthsalon/forth.c].

    The C program keeps its instructions in an untagged union
    ([union forth_inst]); here every slot carries the tag of the member
    that was last stored into it.  Stacks, code blocks and the word table
    are lists, indices and program-counter offsets are [Z], doubles are
    Rocq's primitive binary64 floats.  An outcome the C standard leaves
    undefined (an access outside an array, a call through a slot that
    holds no routine, ...) is an explicit error value of the model. *)

From Stdlib Require Import PrimFloat SpecFloat FloatOps ZArith List String Ascii Bool Lia.
Import ListNotations.
Local Open Scope string_scope.
Local Open Scope list_scope.
Local Open Scope Z_scope.

Set Implicit Arguments.

(** ** Results *)

(** Every place where the C code gives up: the [lwan_status_error] sites
    (the function returns [false] or [NULL]), the silent [return false] /
    [return NULL] sites, the [lwan_status_critical] sites (the process is
    aborted) and undefined behaviour. *)
Inductive forth_error : Type :=
| E_not_printable            (* forth_parse_string: a byte that is not isprint *)
| E_word_too_long            (* found_word: word_len > MAX_WORD_LEN *)
| E_redefine_number          (* found_word: "Can't redefine number" *)
| E_undefined_word           (* found_word: "Undefined word" *)
| E_redefine_word            (* found_word: "Can't redefine word" *)
| E_cant_create_word         (* found_word: "Can't create new word" *)
| E_comment_not_closed       (* the comment words: strchr found nothing *)
| E_already_defining         (* ":" *)
| E_unmatched_if             (* ";" with a non-empty jump stack *)
| E_not_defining             (* ";" outside a definition *)
| E_too_many_ifs             (* "if" *)
| E_before_if (is_then : bool) (* "else"/"then" with an empty jump stack *)
| E_else_too_deep            (* "else" *)
| E_not_finished             (* "Word definition not finished" *)
| E_recursion_limit          (* inline_calls_code: nested == 0 *)
| E_jump_stack               (* JS_PUSH / JS_POP returned false *)
| E_requires (name : string) (n : Z) (r_stack : bool)
| E_overflow (r_stack : bool)
| E_underflow (r_stack : bool)
| E_critical                 (* lwan_status_critical *)
| E_undefined                (* undefined behaviour *)
| E_fuel.                    (* the model ran out of steps *)

Inductive result (A : Type) : Type :=
| Ok (a : A)
| Err (e : forth_error).
Arguments Err {A} e.

Definition bind {A B} (r : result A) (f : A -> result B) : result B :=
  match r with
  | Ok a => f a
  | Err e => Err e
  end.

Declare Scope res_scope.
Delimit Scope res_scope with res.
Notation "x <- c ;; k" := (bind c (fun x => k))
  (at level 61, c at next level, right associativity) : res_scope.
Notation "' p <- c ;; k" := (bind c (fun xx => let 'p := xx in k))
  (at level 61, p pattern, c at next level, right associativity) : res_scope.
Local Open Scope res_scope.

(** ** Routines and instruction slots *)

(** One constructor per [BUILTIN] / [BUILTIN_R] of the source, in source
    order.  The names with a leading space in the source are the private
    (fused) words. *)
Inductive builtin_id : Type :=
| B_x | B_y | B_t | B_dt | B_mx | B_my | B_button | B_buttons | B_audio
| B_sample | B_bwsample
| B_push | B_pop | B_to_r | B_r_from | B_r_fetch
| B_fetch | B_store
| B_dup | B_dupdup | B_over | B_2dup | B_zplus | B_zmult | B_drop | B_swap
| B_rot | B_mrot | B_mrotswap
| B_eq | B_ne | B_gt | B_lt | B_ge | B_geswap | B_le
| B_plus | B_fma | B_mult | B_minus | B_div | B_mod | B_pow | B_starstar
| B_atan2 | B_and | B_or | B_not | B_min | B_max | B_negate
| B_sin | B_cos | B_tan | B_log | B_exp | B_sqrt | B_floor | B_ceil | B_abs
| B_pi | B_random
| B_mult2 | B_pow2 | B_div2 | B_multpi | B_multhalfpi.

(** The [BUILTIN_COMPILER] words. *)
Inductive compiler_id : Type :=
| C_backslash | C_paren | C_colon | C_semicolon | C_if | C_else | C_then.

(** The routines a slot's [callback] member (or a descriptor's
    [callback] / [callback_compiler] member) can point to.  Distinct C
    functions have distinct addresses, hence distinct constructors. *)
Inductive callback : Type :=
| op_number | op_jump_if | op_jump | op_nop | op_halt | op_eval_code
| cb_builtin (b : builtin_id)
| cb_compiler (c : compiler_id).

Definition builtin_id_eq_dec (a b : builtin_id) : {a = b} + {a <> b}.
Proof. decide equality. Defined.

Definition compiler_id_eq_dec (a b : compiler_id) : {a = b} + {a <> b}.
Proof. decide equality. Defined.

Definition callback_eq_dec (a b : callback) : {a = b} + {a <> b}.
Proof.
  decide equality; [apply builtin_id_eq_dec | apply compiler_id_eq_dec].
Defined.

Definition callback_eqb (a b : callback) : bool :=
  if callback_eq_dec a b then true else false.

(** [union forth_inst], tagged by the member last written.  [Code w] is
    the address of the code block of the [w]-th user word. *)
Inductive forth_inst : Type :=
| Callback (c : callback)
| Code (w : nat)
| Number (d : float)
| Pc (pc : Z).

(** [DEFINE_ARRAY_TYPE(forth_code, union forth_inst)] *)
Definition forth_code : Type := list forth_inst.

(** [inst->callback == c].  A slot that holds a number, an offset or a
    code address is read through the wrong member here; the model takes
    such bits never to be the address of a routine. *)
Definition is_callback (s : forth_inst) (c : callback) : bool :=
  match s with
  | Callback c' => callback_eqb c' c
  | _ => false
  end.

Definition two64 : Z := 2 ^ 64.

(** The double whose binary64 encoding is the 64-bit pattern [n]. *)
Definition double_of_bits (n : Z) : float :=
  let m := n mod 2 ^ 52 in
  let e := (n / 2 ^ 52) mod 2 ^ 11 in
  let neg := 2 ^ 63 <=? n mod two64 in
  let mag :=
    if e =? 2047 then (if m =? 0 then infinity else nan)
    else if e =? 0 then Z.ldexp (of_uint63 (Uint63Axioms.of_Z m)) (-1074)
    else Z.ldexp (of_uint63 (Uint63Axioms.of_Z (2 ^ 52 + m))) (e - 1075) in
  if neg then (- mag)%float else mag.

(** [inst->number].  An offset read as a double is the double with those
    bits; the bits of an address are not known to the model. *)
Definition inst_number (s : forth_inst) : result float :=
  match s with
  | Number d => Ok d
  | Pc n => Ok (double_of_bits n)
  | _ => Err E_undefined
  end.

(** [inst->pc] *)
Definition inst_pc (s : forth_inst) : result Z :=
  match s with
  | Pc n => Ok n
  | _ => Err E_undefined
  end.

(** ** Code blocks (lwan-array) *)

(** lwan-array.h is not among the sources.  The block is a list;
    [forth_code_get_elem_index] of a slot is its position in it. *)

Definition forth_code_len (code : forth_code) : Z := Z.of_nat (List.length code).

(** [forth_code_get_elem]: no bounds check in C, an index outside the
    block is undefined. *)
Definition forth_code_get_elem (code : forth_code) (i : Z) : result forth_inst :=
  if (i <? 0) || (forth_code_len code <=? i) then Err E_undefined
  else match nth_error code (Z.to_nat i) with
       | Some s => Ok s
       | None => Err E_undefined
       end.

Fixpoint set_nth (l : forth_code) (n : nat) (s : forth_inst) : forth_code :=
  match l, n with
  | [], _ => []
  | _ :: r, O => s :: r
  | a :: r, S n' => a :: set_nth r n' s
  end.

(** A store through the pointer returned by [forth_code_get_elem]. *)
Definition forth_code_set_elem (code : forth_code) (i : Z) (s : forth_inst)
  : result forth_code :=
  if (i <? 0) || (forth_code_len code <=? i) then Err E_undefined
  else Ok (set_nth code (Z.to_nat i) s).

(** [forth_code_append] followed by the store into the new slot.
    Allocation failure is not modelled. *)
Definition forth_code_append (code : forth_code) (s : forth_inst) : forth_code :=
  code ++ [s].

(** [code->base.elements -= n] *)
Definition drop_last (n : nat) (code : forth_code) : forth_code :=
  firstn (List.length code - n)%nat code.

(** ** Builtin descriptors *)

Record forth_builtin : Type := {
  name : string;
  routine : callback;   (* the union of callback and callback_compiler *)
  d_pushes : Z;
  d_pops : Z;
  r_pushes : Z;
  r_pops : Z
}.

Definition BUILTIN_R (n : string) (b : builtin_id) (dpush dpop rpush rpop : Z) :=
  {| name := n; routine := cb_builtin b;
     d_pushes := dpush; d_pops := dpop; r_pushes := rpush; r_pops := rpop |}.

Definition BUILTIN (n : string) (b : builtin_id) (dpush dpop : Z) :=
  BUILTIN_R n b dpush dpop 0 0.

Definition BUILTIN_COMPILER (n : string) (c : compiler_id) :=
  {| name := n; routine := cb_compiler c;
     d_pushes := 0; d_pops := 0; r_pushes := 0; r_pops := 0 |}.

(** The linker section [forth_builtin], in source order. *)
Definition forth_builtin_section : list forth_builtin :=
  [ BUILTIN "x" B_x 1 0; BUILTIN "y" B_y 1 0; BUILTIN "t" B_t 1 0;
    BUILTIN "dt" B_dt 1 0; BUILTIN "mx" B_mx 1 0; BUILTIN "my" B_my 1 0;
    BUILTIN "button" B_button 1 1; BUILTIN "buttons" B_buttons 1 0;
    BUILTIN "audio" B_audio 0 1; BUILTIN "sample" B_sample 3 2;
    BUILTIN "bwsample" B_bwsample 1 2;
    BUILTIN_R "push" B_push 0 1 1 0; BUILTIN_R "pop" B_pop 1 0 0 1;
    BUILTIN_R ">r" B_to_r 0 1 1 0; BUILTIN_R "r>" B_r_from 1 0 0 1;
    BUILTIN_R "r@" B_r_fetch 1 0 1 1;
    BUILTIN "@" B_fetch 1 1; BUILTIN "!" B_store 0 2;
    BUILTIN "dup" B_dup 2 1; BUILTIN " dupdup" B_dupdup 4 1;
    BUILTIN "over" B_over 3 2; BUILTIN "2dup" B_2dup 4 2;
    BUILTIN "z+" B_zplus 2 4; BUILTIN "z*" B_zmult 2 4;
    BUILTIN "drop" B_drop 0 1; BUILTIN "swap" B_swap 2 2;
    BUILTIN "rot" B_rot 3 3; BUILTIN "-rot" B_mrot 3 3;
    BUILTIN " -rotswap" B_mrotswap 3 3;
    BUILTIN "=" B_eq 1 2; BUILTIN "<>" B_ne 1 2; BUILTIN ">" B_gt 1 2;
    BUILTIN "<" B_lt 1 2; BUILTIN ">=" B_ge 1 2;
    BUILTIN " >=swap" B_geswap 2 3; BUILTIN "<=" B_le 1 2;
    BUILTIN "+" B_plus 1 2; BUILTIN " fma" B_fma 1 3;
    BUILTIN "*" B_mult 1 2; BUILTIN "-" B_minus 1 2; BUILTIN "/" B_div 1 2;
    BUILTIN "mod" B_mod 1 2; BUILTIN "pow" B_pow 1 2;
    BUILTIN "**" B_starstar 1 2; BUILTIN "atan2" B_atan2 1 2;
    BUILTIN "and" B_and 1 2; BUILTIN "or" B_or 1 2; BUILTIN "not" B_not 1 1;
    BUILTIN "min" B_min 1 2; BUILTIN "max" B_max 1 2;
    BUILTIN "negate" B_negate 1 1;
    BUILTIN "sin" B_sin 1 1; BUILTIN "cos" B_cos 1 1; BUILTIN "tan" B_tan 1 1;
    BUILTIN "log" B_log 1 1; BUILTIN "exp" B_exp 1 1;
    BUILTIN "sqrt" B_sqrt 1 1; BUILTIN "floor" B_floor 1 1;
    BUILTIN "ceil" B_ceil 1 1; BUILTIN "abs" B_abs 1 1;
    BUILTIN "pi" B_pi 1 0; BUILTIN "random" B_random 1 0;
    BUILTIN " mult2" B_mult2 1 1; BUILTIN " pow2" B_pow2 1 1;
    BUILTIN " div2" B_div2 1 1; BUILTIN " multpi" B_multpi 1 1;
    BUILTIN " multhalfpi" B_multhalfpi 1 1 ].

(** The linker section [forth_compiler_builtin]. *)
Definition forth_compiler_builtin_section : list forth_builtin :=
  [ BUILTIN_COMPILER "\" C_backslash; BUILTIN_COMPILER "(" C_paren;
    BUILTIN_COMPILER ":" C_colon; BUILTIN_COMPILER ";" C_semicolon;
    BUILTIN_COMPILER "if" C_if; BUILTIN_COMPILER "else" C_else;
    BUILTIN_COMPILER "then" C_then ].

(** [find_builtin_by_callback]; a slot that holds no routine matches no
    descriptor (see [is_callback]). *)
Definition find_builtin_by_callback (s : forth_inst) : option forth_builtin :=
  match find (fun b => is_callback s (routine b)) forth_builtin_section with
  | Some b => Some b
  | None => find (fun b => is_callback s (routine b)) forth_compiler_builtin_section
  end.

(** ** The interpreter *)

(** Modelled from the spec: [struct forth_vars] is declared in forth.h,
    which is not among the sources.  The spec lists the inputs x, y, t
    and dt, a fixed-size memory array and the two final stack pointers;
    the pointers are the final stacks of [machine] below. *)
Record forth_vars : Type := {
  vars_x : float;
  vars_y : float;
  vars_t : float;
  vars_dt : float;
  vars_memory : list float
}.

(** What the chain of tail calls threads along: the part of the D and R
    arrays below the two stack pointers (top first), the variables, and
    how many numbers [drand48] has handed out. *)
Record machine : Type := {
  d_stack : list float;
  r_stack : list float;
  vars : forth_vars;
  draws : nat
}.

(** [N_ELEMENTS(ctx->d_stack)] and [N_ELEMENTS(ctx->r_stack)] *)
Definition stack_capacity : Z := 32.

(** [M_PI] *)
Definition M_PI : float := 0x1.921fb54442d18p+1%float.

(** [(uint32_t)v]: truncation towards zero, undefined when the truncated
    value is not a [uint32_t]. *)
Definition double_to_uint32 (v : float) : result Z :=
  match Prim2SF v with
  | S754_zero _ => Ok 0
  | S754_finite s m e =>
      if 32 <? e then Err E_undefined
      else
        let mag := if 0 <=? e then Zpos m * 2 ^ e else Zpos m / 2 ^ (- e) in
        if s then (if mag =? 0 then Ok 0 else Err E_undefined)
        else if mag <? 2 ^ 32 then Ok mag else Err E_undefined
  | _ => Err E_undefined
  end.

Definition bool_to_double (b : bool) : float := if b then 1%float else 0%float.

(** A small state-and-error monad for the bodies of the builtins. *)
Definition M (A : Type) : Type := machine -> result (A * machine).

Definition mret {A} (a : A) : M A := fun m => Ok (a, m).

Definition mbind {A B} (c : M A) (f : A -> M B) : M B :=
  fun m => match c m with
           | Ok (a, m') => f a m'
           | Err e => Err e
           end.

Definition mfail {A} (e : forth_error) : M A := fun _ => Err e.

Definition mlift {A} (r : result A) : M A :=
  fun m => match r with Ok a => Ok (a, m) | Err e => Err e end.

Declare Scope m_scope.
Delimit Scope m_scope with M.
Notation "x <- c ;; k" := (mbind c (fun x => k))
  (at level 61, c at next level, right associativity) : m_scope.
Notation "c ;;; k" := (mbind c (fun _ => k))
  (at level 61, right associativity) : m_scope.

Section Interpreter.

(** The C library: the routines of libm the builtins call, and the
    sequence of numbers [drand48] returns. *)
Record libm : Type := {
  c_sin : float -> float;
  c_cos : float -> float;
  c_tan : float -> float;
  c_log : float -> float;
  c_exp : float -> float;
  c_floor : float -> float;
  c_ceil : float -> float;
  c_fmod : float -> float -> float;
  c_pow : float -> float -> float;
  c_atan2 : float -> float -> float;
  c_fmin : float -> float -> float;
  c_fmax : float -> float -> float;
  c_fma : float -> float -> float -> float;
  c_drand48 : nat -> float
}.

Variable lm : libm.

Local Open Scope m_scope.

(** [PUSH_D], [PUSH_R]: a store above the last element of the array is
    undefined. *)
Definition PUSH_D (v : float) : M unit := fun m =>
  if Z.of_nat (List.length (d_stack m)) <? stack_capacity
  then Ok (tt, {| d_stack := v :: d_stack m; r_stack := r_stack m;
                  vars := vars m; draws := draws m |})
  else Err E_undefined.

Definition PUSH_R (v : float) : M unit := fun m =>
  if Z.of_nat (List.length (r_stack m)) <? stack_capacity
  then Ok (tt, {| d_stack := d_stack m; r_stack := v :: r_stack m;
                  vars := vars m; draws := draws m |})
  else Err E_undefined.

(** [POP_D], [POP_R]: a read below the first element is undefined. *)
Definition POP_D : M float := fun m =>
  match d_stack m with
  | v :: d => Ok (v, {| d_stack := d; r_stack := r_stack m;
                        vars := vars m; draws := draws m |})
  | [] => Err E_undefined
  end.

Definition POP_R : M float := fun m =>
  match r_stack m with
  | v :: r => Ok (v, {| d_stack := d_stack m; r_stack := r;
                        vars := vars m; draws := draws m |})
  | [] => Err E_undefined
  end.

Definition DROP_D : M unit := _ <- POP_D ;; mret tt.

(** [*(d_stack - 1) = f( *(d_stack - 1))] *)
Definition UPDATE_TOP (f : float -> float) : M unit :=
  v <- POP_D ;; PUSH_D (f v).

Definition get_vars : M forth_vars := fun m => Ok (vars m, m).

Definition set_memory (mem : list float) : M unit := fun m =>
  Ok (tt, {| d_stack := d_stack m; r_stack := r_stack m;
             vars := {| vars_x := vars_x (vars m); vars_y := vars_y (vars m);
                        vars_t := vars_t (vars m); vars_dt := vars_dt (vars m);
                        vars_memory := mem |};
             draws := draws m |}).

Definition drand48 : M float := fun m =>
  Ok (c_drand48 lm (draws m),
      {| d_stack := d_stack m; r_stack := r_stack m;
         vars := vars m; draws := S (draws m) |}).

(** [slot % (uint32_t)N_ELEMENTS(vars->memory)] *)
Definition memory_slot (v : float) : M nat :=
  vs <- get_vars ;;
  slot <- mlift (double_to_uint32 v) ;;
  if Z.of_nat (List.length (vars_memory vs)) =? 0 then mfail E_undefined
  else mret (Z.to_nat (slot mod Z.of_nat (List.length (vars_memory vs)))).

Fixpoint replace_nth (l : list float) (n : nat) (v : float) : list float :=
  match l, n with
  | [], _ => []
  | _ :: r, O => v :: r
  | a :: r, S n' => a :: replace_nth r n' v
  end.

Local Open Scope float_scope.

(** The body of each [BUILTIN], up to its [NEXT()]. *)
Definition builtin_body (b : builtin_id) : M unit :=
  match b with
  | B_x => vs <- get_vars ;; PUSH_D (vars_x vs)
  | B_y => vs <- get_vars ;; PUSH_D (vars_y vs)
  | B_t => vs <- get_vars ;; PUSH_D (vars_t vs)
  | B_dt => vs <- get_vars ;; PUSH_D (vars_dt vs)
  | B_mx => PUSH_D 0
  | B_my => PUSH_D 0
  | B_button => DROP_D ;;; PUSH_D 0
  | B_buttons => PUSH_D 0
  | B_audio => DROP_D
  | B_sample => DROP_D ;;; DROP_D ;;; PUSH_D 0 ;;; PUSH_D 0 ;;; PUSH_D 0
  | B_bwsample => DROP_D ;;; DROP_D ;;; PUSH_D 0
  | B_push => v <- POP_D ;; PUSH_R v
  | B_pop => v <- POP_R ;; PUSH_D v
  | B_to_r => v <- POP_D ;; PUSH_R v
  | B_r_from => v <- POP_R ;; PUSH_D v
  | B_r_fetch => v <- POP_R ;; PUSH_R v ;;; PUSH_D v
  | B_fetch =>
      v <- POP_D ;; slot <- memory_slot v ;; vs <- get_vars ;;
      PUSH_D (nth slot (vars_memory vs) 0)
  | B_store =>
      v <- POP_D ;; i <- POP_D ;; slot <- memory_slot i ;; vs <- get_vars ;;
      set_memory (replace_nth (vars_memory vs) slot v)
  | B_dup => v <- POP_D ;; PUSH_D v ;;; PUSH_D v
  | B_dupdup => v <- POP_D ;; PUSH_D v ;;; PUSH_D v ;;; PUSH_D v ;;; PUSH_D v
  | B_over =>
      v1 <- POP_D ;; v2 <- POP_D ;; PUSH_D v2 ;;; PUSH_D v1 ;;; PUSH_D v2
  | B_2dup =>
      v1 <- POP_D ;; v2 <- POP_D ;;
      PUSH_D v2 ;;; PUSH_D v1 ;;; PUSH_D v2 ;;; PUSH_D v1
  | B_zplus =>
      v1 <- POP_D ;; v2 <- POP_D ;; v3 <- POP_D ;; v4 <- POP_D ;;
      PUSH_D (v2 + v4) ;;; PUSH_D (v1 + v3)
  | B_zmult =>
      v1 <- POP_D ;; v2 <- POP_D ;; v3 <- POP_D ;; v4 <- POP_D ;;
      PUSH_D (v4 * v2 - v3 * v1) ;;; PUSH_D (v4 * v1 + v3 * v2)
  | B_drop => DROP_D
  | B_swap => v1 <- POP_D ;; v2 <- POP_D ;; PUSH_D v1 ;;; PUSH_D v2
  | B_rot =>
      v1 <- POP_D ;; v2 <- POP_D ;; v3 <- POP_D ;;
      PUSH_D v2 ;;; PUSH_D v1 ;;; PUSH_D v3
  | B_mrot =>
      v1 <- POP_D ;; v2 <- POP_D ;; v3 <- POP_D ;;
      PUSH_D v1 ;;; PUSH_D v3 ;;; PUSH_D v2
  | B_mrotswap =>
      v1 <- POP_D ;; v2 <- POP_D ;; v3 <- POP_D ;;
      PUSH_D v1 ;;; PUSH_D v2 ;;; PUSH_D v3
  | B_eq => v1 <- POP_D ;; v2 <- POP_D ;; PUSH_D (bool_to_double (v1 =? v2))
  | B_ne =>
      v1 <- POP_D ;; v2 <- POP_D ;; PUSH_D (bool_to_double (negb (v1 =? v2)))
  | B_gt => v1 <- POP_D ;; v2 <- POP_D ;; PUSH_D (bool_to_double (v2 <? v1))
  | B_lt => v1 <- POP_D ;; v2 <- POP_D ;; PUSH_D (bool_to_double (v1 <? v2))
  | B_ge => v1 <- POP_D ;; v2 <- POP_D ;; PUSH_D (bool_to_double (v2 <=? v1))
  | B_geswap =>
      v1 <- POP_D ;; v2 <- POP_D ;; v3 <- POP_D ;;
      PUSH_D (bool_to_double (v2 <=? v1)) ;;; PUSH_D v3
  | B_le => v1 <- POP_D ;; v2 <- POP_D ;; PUSH_D (bool_to_double (v1 <=? v2))
  | B_plus => v1 <- POP_D ;; v2 <- POP_D ;; PUSH_D (v1 + v2)
  | B_fma =>
      m1 <- POP_D ;; m2 <- POP_D ;; a <- POP_D ;; PUSH_D (c_fma lm m1 m2 a)
  | B_mult => v1 <- POP_D ;; v2 <- POP_D ;; PUSH_D (v1 * v2)
  | B_minus => v <- POP_D ;; w <- POP_D ;; PUSH_D (w - v)
  | B_div =>
      v <- POP_D ;;
      if v =? 0 then DROP_D ;;; PUSH_D infinity
      else w <- POP_D ;; PUSH_D (w / v)
  | B_mod => v <- POP_D ;; w <- POP_D ;; PUSH_D (c_fmod lm w v)
  | B_pow => v <- POP_D ;; w <- POP_D ;; PUSH_D (c_pow lm (abs w) v)
  | B_starstar => v <- POP_D ;; w <- POP_D ;; PUSH_D (c_pow lm (abs w) v)
  | B_atan2 => v <- POP_D ;; w <- POP_D ;; PUSH_D (c_atan2 lm w v)
  | B_and =>
      v <- POP_D ;; w <- POP_D ;;
      PUSH_D (bool_to_double (negb (w =? 0) && negb (v =? 0)))
  | B_or =>
      v <- POP_D ;; w <- POP_D ;;
      PUSH_D (bool_to_double (negb (w =? 0) || negb (v =? 0)))
  | B_not => v <- POP_D ;; PUSH_D (if negb (v =? 0) then 0 else 1)
  | B_min => v1 <- POP_D ;; v2 <- POP_D ;; PUSH_D (c_fmin lm v1 v2)
  | B_max => v1 <- POP_D ;; v2 <- POP_D ;; PUSH_D (c_fmax lm v1 v2)
  | B_negate => v <- POP_D ;; PUSH_D (- v)
  | B_sin => v <- POP_D ;; PUSH_D (c_sin lm v)
  | B_cos => v <- POP_D ;; PUSH_D (c_cos lm v)
  | B_tan => v <- POP_D ;; PUSH_D (c_tan lm v)
  | B_log => v <- POP_D ;; PUSH_D (c_log lm (abs v))
  | B_exp => v <- POP_D ;; PUSH_D (c_exp lm v)
  | B_sqrt => v <- POP_D ;; PUSH_D (sqrt (abs v))
  | B_floor => v <- POP_D ;; PUSH_D (c_floor lm v)
  | B_ceil => v <- POP_D ;; PUSH_D (c_ceil lm v)
  | B_abs => v <- POP_D ;; PUSH_D (abs v)
  | B_pi => PUSH_D M_PI
  | B_random => v <- drand48 ;; PUSH_D v
  | B_mult2 => UPDATE_TOP (fun v => v * 2)
  | B_pow2 => UPDATE_TOP (fun v => v * v)
  | B_div2 => UPDATE_TOP (fun v => v / 2)
  | B_multpi => UPDATE_TOP (fun v => v * M_PI)
  | B_multhalfpi => UPDATE_TOP (fun v => v * (M_PI / 2))
  end.

Local Close Scope float_scope.

(** Where the next tail call goes. *)
Inductive control : Type :=
| Goto (ip : Z)
| Halted.

(** One routine called on the slot at index [ip]: [op_number],
    [op_jump_if], [op_jump], [op_nop], [op_halt], [op_eval_code] and, for
    a builtin, its body followed by [NEXT()]. *)
Definition dispatch (code : forth_code) (ip : Z) : M control :=
  inst <- mlift (forth_code_get_elem code ip) ;;
  match inst with
  | Callback op_number =>
      imm <- mlift (forth_code_get_elem code (ip + 1)) ;;
      v <- mlift (inst_number imm) ;;
      PUSH_D v ;;; mret (Goto (ip + 2))
  | Callback op_jump_if =>
      v <- POP_D ;;
      if (v =? 0)%float then
        imm <- mlift (forth_code_get_elem code (ip + 1)) ;;
        pc <- mlift (inst_pc imm) ;;
        mret (Goto (ip + pc))
      else mret (Goto (ip + 2))
  | Callback op_jump =>
      imm <- mlift (forth_code_get_elem code (ip + 1)) ;;
      pc <- mlift (inst_pc imm) ;;
      mret (Goto (ip + pc))
  | Callback op_nop => mret (Goto (ip + 1))
  | Callback op_halt => mret Halted
  | Callback op_eval_code => mfail E_critical
  | Callback (cb_builtin b) => builtin_body b ;;; mret (Goto (ip + 1))
  | _ => mfail E_undefined
  end.

(** The chain of tail calls, at most [fuel] of them. *)
Fixpoint run_from (fuel : nat) (code : forth_code) (ip : Z) (m : machine)
  : result machine :=
  match fuel with
  | O => Err E_fuel
  | S fuel' =>
      match dispatch code ip m with
      | Ok (Goto ip', m') => run_from fuel' code ip' m'
      | Ok (Halted, m') => Ok m'
      | Err e => Err e
      end
  end.

End Interpreter.

(** ** Compiler state *)

(** [struct forth_word]: a builtin (whose [name] is the empty string) or
    a user word with its name and its code block. *)
Inductive forth_word : Type :=
| builtin_word (b : forth_builtin)
| user_word (n : string) (code : forth_code).

(** [struct forth_ctx].  A pointer to a word is its index in [heap];
    [words] is the hash table from names to such pointers (hash.h is not
    among the sources: an association list, searched from the front);
    [j_stack] is the part of [ctx->j_stack] below [ctx->j], top first. *)
Record forth_ctx : Type := {
  j_stack : list Z;
  defining_word : option nat;
  main : nat;
  words : list (string * nat);
  heap : list forth_word
}.

Definition hash_find (table : list (string * nat)) (key : string) : option nat :=
  match find (fun e => String.eqb (fst e) key) table with
  | Some e => Some (snd e)
  | None => None
  end.

Definition is_word_builtin (w : forth_word) : bool :=
  match w with
  | builtin_word _ => true
  | user_word _ _ => false
  end.

(** [is_word_compiler]: the descriptor lies in the compiler section. *)
Definition is_word_compiler (w : forth_word) : bool :=
  match w with
  | builtin_word b =>
      match routine b with cb_compiler _ => true | _ => false end
  | user_word _ _ => false
  end.

(** [is_inside_word_def] *)
Definition is_inside_word_def (ctx : forth_ctx) : bool :=
  match defining_word ctx with
  | None => true
  | Some w => negb (Nat.eqb w (main ctx))
  end.

(** [&w->code] followed by a read of the block. *)
Definition word_code (hp : list forth_word) (w : nat) : result forth_code :=
  match nth_error hp w with
  | Some (user_word _ code) => Ok code
  | _ => Err E_undefined
  end.

Fixpoint set_word (hp : list forth_word) (w : nat) (v : forth_word)
  : list forth_word :=
  match hp, w with
  | [], _ => []
  | _ :: r, O => v :: r
  | a :: r, S w' => a :: set_word r w' v
  end.

(** A store of a whole block into [w->code]. *)
Definition set_word_code (ctx : forth_ctx) (w : nat) (code : forth_code)
  : result forth_ctx :=
  match nth_error (heap ctx) w with
  | Some (user_word n _) =>
      Ok {| j_stack := j_stack ctx; defining_word := defining_word ctx;
            main := main ctx; words := words ctx;
            heap := set_word (heap ctx) w (user_word n code) |}
  | _ => Err E_undefined
  end.

(** [hash_find(ctx->words, name)->builtin->callback], with the asserts
    that the word exists and is a builtin. *)
Definition builtin_callback (ctx : forth_ctx) (n : string) : result callback :=
  match hash_find (words ctx) n with
  | Some w =>
      match nth_error (heap ctx) w with
      | Some (builtin_word b) => Ok (routine b)
      | _ => Err E_undefined
      end
  | None => Err E_undefined
  end.

(** ** Branch bookkeeping shared by the inliner and the optimiser *)

(** [JS_PUSH]: the test lets [j == jump_stack + 64] through, where the
    store is outside the 64-element array. *)
Definition JS_PUSH (j : list Z) (v : Z) : result (list Z) :=
  if 64 <? Z.of_nat (List.length j) then Err E_jump_stack
  else if 64 =? Z.of_nat (List.length j) then Err E_undefined
  else Ok (v :: j).

(** [JS_POP] *)
Definition JS_POP (j : list Z) : result (Z * list Z) :=
  match j with
  | [] => Err E_jump_stack
  | v :: j' => Ok (v, j')
  end.

(** The text that [inline_calls_code] and [peephole] share: [inst] has
    just been copied to the end of [code]; fix the pending branch
    offsets and say whether an immediate follows. *)
Definition patch_branches (inst : forth_inst) (code : forth_code) (j : list Z)
  : result (forth_code * list Z * bool) :=
  if is_callback inst op_jump_if then
    j1 <- JS_PUSH j (forth_code_len code) ;;
    Ok (code, j1, true)
  else if is_callback inst op_jump then
    '(idx, j1) <- JS_POP j ;;
    code1 <- forth_code_set_elem code idx
               (Pc ((forth_code_len code + idx - 2) mod two64)) ;;
    j2 <- JS_PUSH j1 (forth_code_len code1) ;;
    Ok (code1, j2, true)
  else if is_callback inst op_nop then
    '(idx, j1) <- JS_POP j ;;
    code1 <- forth_code_set_elem code idx
               (Pc ((forth_code_len code - idx + 1) mod two64)) ;;
    Ok (code1, j1, false)
  else if is_callback inst op_number then Ok (code, j, true)
  else Ok (code, j, false).

(** ** The inliner *)

Section Inliner.

Variable hp : list forth_word.

(** The [LWAN_ARRAY_FOREACH] loop of [inline_calls_code]; [rec] is the
    recursive call with [nested - 1]. *)
Fixpoint inline_loop (rec : forth_code -> forth_code -> result forth_code)
    (orig : list forth_inst) (new_code : forth_code) (j : list Z)
    {struct orig} : result forth_code :=
  match orig with
  | [] => Ok new_code
  | inst :: rest =>
      if is_callback inst op_eval_code then
        match rest with
        | Code w :: rest' =>
            match word_code hp w with
            | Ok callee =>
                match rec callee new_code with
                | Ok new_code' => inline_loop rec rest' new_code' j
                | Err e => Err e
                end
            | Err e => Err e
            end
        | _ => Err E_undefined
        end
      else
        match patch_branches inst (forth_code_append new_code inst) j with
        | Ok (new_code', j', true) =>
            match rest with
            | imm :: rest' =>
                inline_loop rec rest' (forth_code_append new_code' imm) j'
            | [] => Err E_undefined
            end
        | Ok (new_code', j', false) => inline_loop rec rest new_code' j'
        | Err e => Err e
        end
  end.

(** [inline_calls_code(orig_code, new_code, nested)] *)
Fixpoint inline_calls_code (nested : nat) (orig_code new_code : forth_code)
  : result forth_code :=
  match nested with
  | O => Err E_recursion_limit
  | S n => inline_loop (inline_calls_code n) orig_code new_code []
  end.

End Inliner.

(** [inline_calls] *)
Definition inline_calls (ctx : forth_ctx) : result forth_ctx :=
  main_code <- word_code (heap ctx) (main ctx) ;;
  new_main <- inline_calls_code (heap ctx) 100 main_code [] ;;
  set_word_code ctx (main ctx) new_main.

(** ** The peephole optimiser *)

Definition streq (a b : string) : bool := String.eqb a b.

(** [last[0].callback = cb] on the slot at index [i], after which the
    caller reports a rewrite. *)
Definition rewrite_callback (ctx : forth_ctx) (code : forth_code) (i : Z)
    (n : string) : result (option forth_code) :=
  cb <- builtin_callback ctx n ;;
  code' <- forth_code_set_elem code i (Callback cb) ;;
  Ok (Some code').

(** [peephole_1]: [Some code'] when it returns [true]. *)
Definition peephole_1 (ctx : forth_ctx) (code : forth_code) (b : forth_builtin)
  : result (option forth_code) :=
  let at_last := forth_code_len code - 1 in
  last <- forth_code_get_elem code at_last ;;
  if streq (name b) "+" then
    w <- builtin_callback ctx "*" ;;
    if is_callback last w then rewrite_callback ctx code at_last " fma"
    else Ok None
  else if streq (name b) "*" then
    match find_builtin_by_callback last with
    | Some prev_b =>
        if streq (name prev_b) "pi"
        then rewrite_callback ctx code at_last " multpi"
        else Ok None
    | None => Ok None
    end
  else if streq (name b) "dup" then
    if is_callback last (routine b)
    then rewrite_callback ctx code at_last " dupdup"
    else Ok None
  else if streq (name b) "swap" then
    w <- builtin_callback ctx "-rot" ;;
    if is_callback last w then rewrite_callback ctx code at_last " -rotswap"
    else
      w' <- builtin_callback ctx ">=" ;;
      if is_callback last w' then rewrite_callback ctx code at_last " >=swap"
      else Ok None
  else if streq (name b) " div2" then
    w <- builtin_callback ctx " multpi" ;;
    if is_callback last w then rewrite_callback ctx code at_last " multhalfpi"
    else Ok None
  else Ok None.

(** [last[-1].callback == op_number && last[0].number == 2.0] *)
Definition tail_is_push_of_two (code : forth_code) : result bool :=
  let at_last := forth_code_len code - 1 in
  prev <- forth_code_get_elem code (at_last - 1) ;;
  if is_callback prev op_number then
    last <- forth_code_get_elem code at_last ;;
    v <- inst_number last ;;
    Ok (v =? 2)%float
  else Ok false.

(** The rewrite of a trailing push of 2.0 into the fused word [n]:
    [last[-1].callback = ...; code->base.elements--]. *)
Definition fuse_with_two (ctx : forth_ctx) (code : forth_code) (n : string)
  : result (option forth_code) :=
  cb <- builtin_callback ctx n ;;
  code' <- forth_code_set_elem code (forth_code_len code - 2) (Callback cb) ;;
  Ok (Some (drop_last 1 code')).

(** The constant folds: with two pushes at the tail,
    [last[-2].number = f(last[-2].number, last[0].number);
     code->base.elements -= 2]. *)
Definition fold_constants (code : forth_code) (f : float -> float -> float)
  : result (option forth_code) :=
  let at_last := forth_code_len code - 1 in
  if 4 <=? forth_code_len code then
    p1 <- forth_code_get_elem code (at_last - 1) ;;
    if is_callback p1 op_number then
      p3 <- forth_code_get_elem code (at_last - 3) ;;
      if is_callback p3 op_number then
        last <- forth_code_get_elem code at_last ;;
        below <- forth_code_get_elem code (at_last - 2) ;;
        a <- inst_number below ;;
        c <- inst_number last ;;
        code' <- forth_code_set_elem code (at_last - 2) (Number (f a c)) ;;
        Ok (Some (drop_last 2 code'))
      else Ok None
    else Ok None
  else Ok None.

(** [peephole_n]: [Some code'] when it returns [true].  The chain of
    [else if] is the one of the source, the second test for "/"
    included. *)
Definition peephole_n (ctx : forth_ctx) (code : forth_code) (b : forth_builtin)
  : result (option forth_code) :=
  if streq (name b) "/" then
    two <- tail_is_push_of_two code ;;
    if two then fuse_with_two ctx code " div2" else Ok None
  else if streq (name b) "+" then
    fold_constants code PrimFloat.add
  else if streq (name b) "-" then
    fold_constants code PrimFloat.sub
  else if streq (name b) "/" then
    fold_constants code
      (fun a c => if (c =? 0)%float then infinity else (a / c)%float)
  else if streq (name b) "*" then
    two <- tail_is_push_of_two code ;;
    if two then fuse_with_two ctx code " mult2"
    else fold_constants code PrimFloat.mul
  else if streq (name b) "**" then
    two <- tail_is_push_of_two code ;;
    if two then fuse_with_two ctx code " pow2" else Ok None
  else if streq (name b) " mult2" then
    let at_last := forth_code_len code - 1 in
    prev <- forth_code_get_elem code (at_last - 1) ;;
    if is_callback prev op_number then
      last <- forth_code_get_elem code at_last ;;
      v <- inst_number last ;;
      code' <- forth_code_set_elem code at_last (Number (v * 2)%float) ;;
      Ok (Some code')
    else Ok None
  else Ok None.

(** The two look-back attempts at the head of the loop body of
    [peephole]. *)
Definition peephole_try (ctx : forth_ctx) (code : forth_code) (inst : forth_inst)
  : result (option forth_code) :=
  match find_builtin_by_callback inst with
  | Some b =>
      r1 <- (if 1 <? forth_code_len code then peephole_1 ctx code b
             else Ok None) ;;
      match r1 with
      | Some code' => Ok (Some code')
      | None =>
          if 2 <? forth_code_len code then peephole_n ctx code b else Ok None
      end
  | None => Ok None
  end.

(** The [LWAN_ARRAY_FOREACH] loop of [peephole].  The result is the new
    block and the value the function returns; a [JS_PUSH] or [JS_POP]
    that gives up makes the function return [false] with the block as
    far as it was built. *)
Fixpoint peephole_loop (ctx : forth_ctx) (orig : list forth_inst)
    (code : forth_code) (j : list Z) (modified : bool) {struct orig}
  : result (forth_code * bool) :=
  match orig with
  | [] => Ok (code, modified)
  | inst :: rest =>
      match peephole_try ctx code inst with
      | Err e => Err e
      | Ok (Some code') => peephole_loop ctx rest code' j true
      | Ok None =>
          let code1 := forth_code_append code inst in
          match patch_branches inst code1 j with
          | Ok (code2, j', true) =>
              match rest with
              | imm :: rest' =>
                  peephole_loop ctx rest' (forth_code_append code2 imm) j'
                    modified
              | [] => Err E_undefined
              end
          | Ok (code2, j', false) => peephole_loop ctx rest code2 j' modified
          | Err E_jump_stack => Ok (code1, false)
          | Err e => Err e
          end
      end
  end.

(** [peephole]: the defining word's block is rebuilt from a copy of
    itself. *)
Definition peephole (ctx : forth_ctx) : result (forth_ctx * bool) :=
  match defining_word ctx with
  | Some w =>
      orig_code <- word_code (heap ctx) w ;;
      '(code, modified) <- peephole_loop ctx orig_code [] [] false ;;
      ctx' <- set_word_code ctx w code ;;
      Ok (ctx', modified)
  | None => Err E_undefined
  end.

(** ** The stack-effect checker *)

(** The [LWAN_ARRAY_FOREACH] loop of [check_stack_effects] on the counts
    [items_in_d_stack] and [items_in_r_stack]. *)
Fixpoint check_loop (code : list forth_inst) (d r : Z) {struct code}
  : result (Z * Z) :=
  match code with
  | [] => Ok (d, r)
  | inst :: rest =>
      if is_callback inst op_number then
        match rest with
        | _ :: rest' => check_loop rest' (d + 1) r
        | [] => Ok (d + 1, r)
        end
      else if is_callback inst op_jump_if then
        if d =? 0 then Err (E_requires "if" 1 false)
        else match rest with
             | _ :: rest' => check_loop rest' (d - 1) r
             | [] => Ok (d - 1, r)
             end
      else if is_callback inst op_jump then
        match rest with
        | _ :: rest' => check_loop rest' d r
        | [] => Ok (d, r)
        end
      else if is_callback inst op_halt then check_loop rest d r
      else if is_callback inst op_nop then check_loop rest d r
      else if is_callback inst op_eval_code then Err E_critical
      else
        match find_builtin_by_callback inst with
        | None => Err E_critical
        | Some b =>
            if d <? d_pops b then Err (E_requires (name b) (d_pops b) false)
            else if r <? r_pops b then Err (E_requires (name b) (r_pops b) true)
            else
              let d' := d - d_pops b + d_pushes b in
              let r' := r - r_pops b + r_pushes b in
              if stack_capacity <=? d' then Err (E_overflow false)
              else if stack_capacity <=? r' then Err (E_overflow true)
              else check_loop rest d' r'
        end
  end.

(** [check_stack_effects] on the block of the word. *)
Definition check_stack_effects (code : forth_code) : result unit :=
  '(d, r) <- check_loop code 0 0 ;;
  if stack_capacity <=? d then Err (E_overflow false)
  else if stack_capacity <=? r then Err (E_overflow true)
  else if d <? 0 then Err (E_underflow false)
  else if r <? 0 then Err (E_underflow true)
  else Ok tt.

(** ** The parser *)

Definition MAX_WORD_LEN : Z := 64.

Definition NUL : ascii := "000"%char.
Definition newline : ascii := "010"%char.

(** [isspace] and [isprint] in the C locale. *)
Definition isspace (c : ascii) : bool :=
  let n := Z.of_nat (nat_of_ascii c) in
  (n =? 32) || ((9 <=? n) && (n <=? 13)).

Definition isprint (c : ascii) : bool :=
  let n := Z.of_nat (nat_of_ascii c) in
  (32 <=? n) && (n <=? 126).

(** The bytes of a C string: what comes before the first NUL. *)
Fixpoint c_str (s : string) : string :=
  match s with
  | EmptyString => EmptyString
  | String c s' => if Ascii.eqb c NUL then EmptyString else String c (c_str s')
  end.

(** [strchr(s, c)] for a [c] other than NUL: the suffix that starts at
    the first [c]. *)
Fixpoint strchr (s : string) (c : ascii) : option string :=
  match s with
  | EmptyString => None
  | String c' s' => if Ascii.eqb c' c then Some s else strchr s' c
  end.

(** [EMIT(arg)]: append to the block of the defining word; the value of
    the macro is the index of the new slot. *)
Definition EMIT (ctx : forth_ctx) (s : forth_inst) : result (forth_ctx * Z) :=
  match defining_word ctx with
  | Some w =>
      code <- word_code (heap ctx) w ;;
      ctx' <- set_word_code ctx w (forth_code_append code s) ;;
      Ok (ctx', forth_code_len code)
  | None => Err E_undefined
  end.

Definition set_defining_word (ctx : forth_ctx) (w : option nat) : forth_ctx :=
  {| j_stack := j_stack ctx; defining_word := w; main := main ctx;
     words := words ctx; heap := heap ctx |}.

Definition set_j_stack (ctx : forth_ctx) (j : list Z) : forth_ctx :=
  {| j_stack := j; defining_word := defining_word ctx; main := main ctx;
     words := words ctx; heap := heap ctx |}.

(** [N_ELEMENTS(ctx->j_stack)] *)
Definition j_stack_capacity : Z := 63.

(** [hash_add] of a freshly allocated word: the word goes to the end of
    the heap, its name to the front of the table.  Allocation failure is
    not modelled. *)
Definition add_word (ctx : forth_ctx) (n : string) (w : forth_word)
  : forth_ctx * nat :=
  ({| j_stack := j_stack ctx; defining_word := defining_word ctx;
      main := main ctx;
      words := (n, List.length (heap ctx)) :: words ctx;
      heap := heap ctx ++ [w] |}, List.length (heap ctx)).

(** [new_user_word], [new_builtin_word] and [new_word] *)
Definition new_user_word (ctx : forth_ctx) (n : string)
  : option (forth_ctx * nat) :=
  if MAX_WORD_LEN <? Z.of_nat (String.length n) then None
  else Some (add_word ctx n (user_word n [])).

Definition new_builtin_word (ctx : forth_ctx) (b : forth_builtin)
  : option (forth_ctx * nat) :=
  Some (add_word ctx (name b) (builtin_word b)).

Definition new_word (ctx : forth_ctx) (n : string) (b : option forth_builtin)
  : option (forth_ctx * nat) :=
  match b with
  | Some b' => new_builtin_word ctx b'
  | None => new_user_word ctx n
  end.

(** The comment words: [strchr] and one byte further. *)
Definition skip_through (code : string) (c : ascii) : result string :=
  match strchr code c with
  | Some (String _ rest) => Ok rest
  | _ => Err E_comment_not_closed
  end.

(** [builtin_else_then].  [prev_pc_imm] is taken before the new slots
    are emitted and stored through after; the block is taken not to move
    when it grows. *)
Definition builtin_else_then (ctx : forth_ctx) (is_then : bool)
  : result forth_ctx :=
  match j_stack ctx, defining_word ctx with
  | [], _ => Err (E_before_if is_then)
  | _ :: _, None => Err E_undefined
  | prev :: j, Some w =>
      let ctx0 := set_j_stack ctx j in
      code0 <- word_code (heap ctx0) w ;;
      _ <- forth_code_get_elem code0 prev ;;
      ctx2 <-
        (if is_then then
           '(ctx1, _) <- EMIT ctx0 (Callback op_nop) ;; Ok ctx1
         else
           '(ctx1, _) <- EMIT ctx0 (Callback op_jump) ;;
           if j_stack_capacity <=? Z.of_nat (List.length (j_stack ctx1))
           then Err E_else_too_deep
           else
             '(ctx2, at_imm) <- EMIT ctx1 (Pc 0) ;;
             Ok (set_j_stack ctx2 (at_imm :: j_stack ctx2))) ;;
      code <- word_code (heap ctx2) w ;;
      code' <- forth_code_set_elem code prev (Pc (forth_code_len code)) ;;
      set_word_code ctx2 w code'
  end.

(** The [callback_compiler] of each compile-time word. *)
Definition callback_compiler (c : compiler_id) (ctx : forth_ctx) (code : string)
  : result (forth_ctx * string) :=
  match c with
  | C_backslash => rest <- skip_through code newline ;; Ok (ctx, rest)
  | C_paren => rest <- skip_through code ")"%char ;; Ok (ctx, rest)
  | C_colon =>
      if is_inside_word_def ctx then Err E_already_defining
      else Ok (set_defining_word ctx None, code)
  | C_semicolon =>
      match j_stack ctx with
      | _ :: _ => Err E_unmatched_if
      | [] =>
          if negb (is_inside_word_def ctx) then Err E_not_defining
          else Ok (set_defining_word ctx (Some (main ctx)), code)
      end
  | C_if =>
      if j_stack_capacity <=? Z.of_nat (List.length (j_stack ctx))
      then Err E_too_many_ifs
      else
        '(ctx1, _) <- EMIT ctx (Callback op_jump_if) ;;
        '(ctx2, at_imm) <- EMIT ctx1 (Pc 0) ;;
        Ok (set_j_stack ctx2 (at_imm :: j_stack ctx2), code)
  | C_else => ctx' <- builtin_else_then ctx false ;; Ok (ctx', code)
  | C_then => ctx' <- builtin_else_then ctx true ;; Ok (ctx', code)
  end.

Section Parser.

(** [strtod] of the C library on a token: the value, what [endptr] is
    left pointing at, and whether [errno] was set. *)
Variable strtod : string -> float * string * bool.

(** [parse_number] *)
Definition parse_number (ptr : string) : option float :=
  let '(number, endptr, errno) := strtod ptr in
  if (errno : bool) then None
  else match endptr with
       | EmptyString => Some number
       | String _ _ => None
       end.

(** [found_word]: [code] points behind the token [word]. *)
Definition found_word (ctx : forth_ctx) (code : string) (word : string)
  : result (forth_ctx * string) :=
  if MAX_WORD_LEN <? Z.of_nat (String.length word) then Err E_word_too_long
  else
    match parse_number word with
    | Some number =>
        match defining_word ctx with
        | None => Err E_redefine_number
        | Some _ =>
            '(ctx1, _) <- EMIT ctx (Callback op_number) ;;
            '(ctx2, _) <- EMIT ctx1 (Number number) ;;
            Ok (ctx2, code)
        end
    | None =>
        let w := hash_find (words ctx) word in
        match defining_word ctx with
        | Some _ =>
            match w with
            | None => Err E_undefined_word
            | Some p =>
                match nth_error (heap ctx) p with
                | Some (builtin_word b) =>
                    match routine b with
                    | cb_compiler c => callback_compiler c ctx code
                    | cb => '(ctx1, _) <- EMIT ctx (Callback cb) ;; Ok (ctx1, code)
                    end
                | Some (user_word _ _) =>
                    '(ctx1, _) <- EMIT ctx (Callback op_eval_code) ;;
                    '(ctx2, _) <- EMIT ctx1 (Code p) ;;
                    Ok (ctx2, code)
                | None => Err E_undefined
                end
            end
        | None =>
            match w with
            | Some _ => Err E_redefine_word
            | None =>
                match new_word ctx word None with
                | None => Err E_cant_create_word
                | Some (ctx1, p) => Ok (set_defining_word ctx1 (Some p), code)
                end
            end
        end
    end.

(** The inner loops of [forth_parse_string]: skip white space, then
    collect the printable bytes of one token. *)
Fixpoint skip_spaces (code : string) : string :=
  match code with
  | EmptyString => EmptyString
  | String c code' => if isspace c then skip_spaces code' else code
  end.

Fixpoint scan_word (code : string) : result (string * string) :=
  match code with
  | EmptyString => Ok (EmptyString, EmptyString)
  | String c code' =>
      if isspace c then Ok (EmptyString, code)
      else if negb (isprint c) then Err E_not_printable
      else '(word, rest) <- scan_word code' ;; Ok (String c word, rest)
  end.

(** The [while] loop over the words of the source.  Every turn eats at
    least one byte, so the caller's [fuel] bounds the number of turns. *)
Fixpoint parse_words (fuel : nat) (ctx : forth_ctx) (code : string)
  : result forth_ctx :=
  match fuel with
  | O => Err E_fuel
  | S fuel' =>
      match code with
      | EmptyString => Ok ctx
      | String _ _ =>
          '(word, rest) <- scan_word (skip_spaces code) ;;
          match word with
          | EmptyString => Ok ctx
          | String _ _ =>
              '(ctx', code') <- found_word ctx rest word ;;
              match code' with
              | EmptyString => Ok ctx'
              | String _ code'' => parse_words fuel' ctx' code''
              end
          end
      end
  end.

(** [forth_parse_string] up to and including the [halt] it emits. *)
Definition parse_source (ctx : forth_ctx) (code : string) : result forth_ctx :=
  let code := c_str code in
  ctx1 <- parse_words (S (String.length code)) (set_j_stack ctx []) code ;;
  if is_inside_word_def ctx1 then Err E_not_finished
  else '(ctx2, _) <- EMIT ctx1 (Callback op_halt) ;; Ok ctx2.

(** The rest of [forth_parse_string], once the calls are inlined. *)
Definition optimise_and_check (ctx : forth_ctx) : result forth_ctx :=
  '(ctx1, modified) <- peephole ctx ;;
  ctx2 <- (if (modified : bool) then '(c, _) <- peephole ctx1 ;; Ok c
           else Ok ctx1) ;;
  main_code <- word_code (heap ctx2) (main ctx2) ;;
  _ <- check_stack_effects main_code ;;
  Ok ctx2.

(** [forth_parse_string]: [Ok] with the new state when it returns
    [true]. *)
Definition forth_parse_string (ctx : forth_ctx) (code : string)
  : result forth_ctx :=
  ctx1 <- parse_source ctx code ;;
  ctx2 <- inline_calls ctx1 ;;
  optimise_and_check ctx2.

End Parser.

(** [register_builtins] and [forth_new] *)
Definition register_builtins (ctx : forth_ctx) : forth_ctx :=
  fold_left (fun c b => fst (add_word c (name b) (builtin_word b)))
    (forth_builtin_section ++ forth_compiler_builtin_section) ctx.

Definition forth_new : forth_ctx :=
  register_builtins
    {| j_stack := []; defining_word := Some O; main := O;
       words := [(" ", O)]; heap := [user_word " " []] |}.

(** [forth_run]: the chain of tail calls from slot 0 of the main word on
    empty stacks, at most [fuel] calls long. *)
Definition forth_run (lm : libm) (fuel : nat) (ctx : forth_ctx) (vs : forth_vars)
  : result machine :=
  code <- word_code (heap ctx) (main ctx) ;;
  run_from lm fuel code 0
    {| d_stack := []; r_stack := []; vars := vs; draws := O |}.

(** [forth_d_stack_len] and the D stack from its bottom to its top. *)
Definition forth_d_stack_len (m : machine) : Z := Z.of_nat (List.length (d_stack m)).

Definition final_d_stack (m : machine) : list float := rev (d_stack m).

(** ** A C library for the examples *)

(** [strtod] on the tokens the examples use: a token that starts with a
    decimal digit is converted up to its first byte that is not a digit
    (every digit string here is short enough to be exact); any other
    token is not converted.  Signs, fractions, exponents, hexadecimal
    forms and the words for infinity and NaN are left out. *)
Definition is_digit (c : ascii) : bool :=
  let n := Z.of_nat (nat_of_ascii c) in (48 <=? n) && (n <=? 57).

Fixpoint digits_value (s : string) (acc : Z) : Z * string :=
  match s with
  | String c s' =>
      if is_digit c
      then digits_value s' (10 * acc + (Z.of_nat (nat_of_ascii c) - 48))
      else (acc, s)
  | EmptyString => (acc, s)
  end.

Definition strtod_decimal (s : string) : float * string * bool :=
  match s with
  | String c _ =>
      if is_digit c then
        let '(v, rest) := digits_value s 0 in
        (of_uint63 (Uint63Axioms.of_Z v), rest, false)
      else (0%float, s, false)
  | EmptyString => (0%float, s, false)
  end.

(** No routine of libm is reached by the examples; this instance only
    closes them. *)
Definition no_libm : libm :=
  {| c_sin := fun v => v; c_cos := fun v => v; c_tan := fun v => v;
     c_log := fun v => v; c_exp := fun v => v; c_floor := fun v => v;
     c_ceil := fun v => v; c_fmod := fun v _ => v; c_pow := fun v _ => v;
     c_atan2 := fun v _ => v; c_fmin := fun v _ => v; c_fmax := fun v _ => v;
     c_fma := fun v _ _ => v; c_drand48 := fun _ => 0%float |}.

(** ** Reading a block as instructions *)

(** A slot in opcode position is followed by an immediate when it is
    [op_number], [op_jump_if], [op_jump] (as the checker, the optimiser
    and the interpreter read it) or [op_eval_code] (as the inliner reads
    it). *)
Definition takes_immediate (s : forth_inst) : bool :=
  is_callback s op_number || is_callback s op_jump_if ||
  is_callback s op_jump || is_callback s op_eval_code.

(** The slots in opcode position; [skip] says that the first slot is an
    immediate. *)
Fixpoint opcodes_from (skip : bool) (code : list forth_inst) : list forth_inst :=
  match code with
  | [] => []
  | s :: rest =>
      if skip then opcodes_from false rest
      else s :: opcodes_from (takes_immediate s) rest
  end.

Definition opcodes (code : forth_code) : list forth_inst :=
  opcodes_from false code.

(** For every slot, whether it is in immediate position. *)
Fixpoint kinds (skip : bool) (code : list forth_inst) : list bool :=
  match code with
  | [] => []
  | s :: rest =>
      if skip then true :: kinds false rest
      else false :: kinds (takes_immediate s) rest
  end.

(** Whether the block stops short of an immediate. *)
Fixpoint pending (skip : bool) (code : list forth_inst) : bool :=
  match code with
  | [] => skip
  | s :: rest =>
      if skip then pending false rest else pending (takes_immediate s) rest
  end.

Definition not_eval (s : forth_inst) : Prop :=
  is_callback s op_eval_code = false.

(** No call-user-word instruction in the block. *)
Definition no_call_user_word (code : forth_code) : Prop :=
  Forall not_eval (opcodes code).

(** The indices, in the block, of the slots in opcode position. *)
Fixpoint opcode_slots (skip : bool) (at_ : Z) (code : list forth_inst) : list Z :=
  match code with
  | [] => []
  | s :: rest =>
      if skip then opcode_slots false (at_ + 1) rest
      else at_ :: opcode_slots (takes_immediate s) (at_ + 1) rest
  end.

(** The slot every [op_jump] and [op_jump_if] of the block transfers to,
    as [op_jump] and [op_jump_if] compute it: the index of the
    instruction plus the offset stored behind it. *)
Fixpoint branch_targets (at_ : Z) (code : list forth_inst) : list Z :=
  match code with
  | [] => []
  | s :: rest =>
      if is_callback s op_jump_if || is_callback s op_jump then
        match rest with
        | Pc pc :: rest' => (at_ + pc) :: branch_targets (at_ + 2) rest'
        | _ => []
        end
      else if takes_immediate s then
        match rest with
        | _ :: rest' => branch_targets (at_ + 2) rest'
        | [] => []
        end
      else branch_targets (at_ + 1) rest
  end.

(** Every branch of the block lands on an opcode slot of the block. *)
Definition branches_stay_inside (code : forth_code) : bool :=
  forallb (fun target => existsb (Z.eqb target) (opcode_slots false 0 code))
    (branch_targets 0 code).

(** The program halts on [vs] with the D stack [d], bottom first. *)
Definition runs_to (lm : libm) (ctx : forth_ctx) (vs : forth_vars)
    (d : list float) : Prop :=
  exists fuel m, forth_run lm fuel ctx vs = Ok m /\ final_d_stack m = d.

(** The main word's block. *)
Definition main_code (ctx : forth_ctx) : result forth_code :=
  word_code (heap ctx) (main ctx).

(** ** Vocabulary of the statements *)

(** [ctx] resolves the name of the descriptor [b] to [b] itself, as
    [register_builtins] sets it up. *)
Definition knows_builtin (ctx : forth_ctx) (b : forth_builtin) : Prop :=
  exists p, hash_find (words ctx) (name b) = Some p /\
            nth_error (heap ctx) p = Some (builtin_word b).

Fixpoint string_forall (p : ascii -> bool) (s : string) : bool :=
  match s with
  | EmptyString => true
  | String c s' => p c && string_forall p s'
  end.

(** White space only. *)
Definition blank (s : string) : bool := string_forall isspace s.

(** The bytes of one token: printable and not white space, at least
    one. *)
Definition token (s : string) : bool :=
  match s with
  | EmptyString => false
  | String _ _ => string_forall (fun c => negb (isspace c) && isprint c) s
  end.

(** The two comment words. *)
Definition backslash_word : forth_builtin := BUILTIN_COMPILER "\" C_backslash.
Definition paren_word : forth_builtin := BUILTIN_COMPILER "(" C_paren.

(** The descriptor of the division word. *)
Definition div_builtin : forth_builtin := BUILTIN "/" B_div 1 2.

(** The state after [new_user_word] made [w] and [found_word] set it as
    the word being defined. *)
Definition defining_new_word (ctx : forth_ctx) (w : string) : forth_ctx :=
  set_defining_word (fst (add_word ctx w (user_word w [])))
    (Some (List.length (heap ctx))).

(** [n] pushes of the number 1. *)
Fixpoint pushes (n : nat) : forth_code :=
  match n with
  | O => []
  | S n' => Callback op_number :: Number 1%float :: pushes n'
  end.

Fixpoint repeat_string (n : nat) (s : string) : string :=
  match n with
  | O => EmptyString
  | S n' => (s ++ repeat_string n' s)%string
  end.

(** The program of [main] in the source. *)
Definition nice_juanita : string :=
  ": nice 60 5 4 + + ; : juanita 400 10 5 5 + + + ; x if nice else juanita then 2 * 4 / 2 *".

(** 2 * M_PI *)
Definition two_pi : float := 0x1.921fb54442d18p+2%float.

(** Compilation with the C library of the examples. *)
Definition compile (src : string) : result forth_ctx :=
  forth_parse_string strtod_decimal forth_new src.

(** The variable record with every field given but x. *)
Definition vars_with_x (v y t dt : float) (mem : list float) : forth_vars :=
  {| vars_x := v; vars_y := y; vars_t := t; vars_dt := dt;
     vars_memory := mem |}.

(** What the inliner keeps true of the block it builds: it does not stop
    short of an immediate and none of its opcodes is [op_eval_code]. *)
Definition inlined (code : forth_code) : Prop :=
  pending false code = false /\ no_call_user_word code.

(** Every index on the jump stack is the index of an immediate. *)
Definition pending_branches (code : forth_code) (j : list Z) : Prop :=
  Forall (fun idx => 0 <= idx /\
                     nth_error (kinds false code) (Z.to_nat idx) = Some true) j.

(** [code'] is [code] grown at its end, slots in immediate position
    possibly rewritten. *)
Definition grown (code code' : forth_code) : Prop :=
  exists k, kinds false code' = kinds false code ++ k.

(** What the loop may find behind a token: the end of the string or
    white space. *)
Definition starts_blank (s : string) : bool :=
  match s with
  | EmptyString => true
  | String c _ => isspace c
  end.

(** The reports [found_word] can make about a word that is not too
    long: its own, those of the compile-time words and of [EMIT]. *)
Definition parse_error (e : forth_error) : bool :=
  match e with
  | E_redefine_number | E_undefined_word | E_redefine_word
  | E_cant_create_word | E_comment_not_closed | E_already_defining
  | E_unmatched_if | E_not_defining | E_too_many_ifs | E_before_if _
  | E_else_too_deep | E_undefined => true
  | _ => false
  end.

(** The result is not the report [bad]. *)
Definition avoids {A} (bad : forth_error) (r : result A) : Prop :=
  r <> Err bad.

(** The turns of the loop of [forth_parse_string]: from the state [ctx]
    before the bytes [code] the loop gets, word by word, to the state
    [ctx'] before the bytes [code']. *)
Inductive turns (strtod : string -> float * string * bool)
  : forth_ctx -> string -> forth_ctx -> string -> Prop :=
| turns_here ctx code : turns strtod ctx code ctx code
| turns_next ctx code c word rest ctx1 c1 code1 ctx' code' :
    scan_word (skip_spaces code) = Ok (String c word, rest) ->
    found_word strtod ctx rest (String c word) = Ok (ctx1, String c1 code1) ->
    turns strtod ctx1 code1 ctx' code' ->
    turns strtod ctx code ctx' code'.

(** [forth_parse_string] on [src] from the state [ctx] gets to the state
    [ctx'] before the bytes [code']. *)
Definition reaches (strtod : string -> float * string * bool)
    (ctx : forth_ctx) (src : string) (ctx' : forth_ctx) (code' : string)
  : Prop :=
  turns strtod (set_j_stack ctx []) (c_str src) ctx' code'.

(** Every builtin that [ctx] resolves, [ctx'] resolves as well. *)
Definition keeps_builtins (ctx ctx' : forth_ctx) : Prop :=
  forall b, knows_builtin ctx b -> knows_builtin ctx' b.

(** ** Vocabulary of the further statements *)

(** The declared stack effects of a descriptor are not negative. *)
Definition nonnegative_effects (b : forth_builtin) : bool :=
  (0 <=? d_pushes b) && (0 <=? d_pops b) &&
  (0 <=? r_pushes b) && (0 <=? r_pops b).

(** A block of calls of builtins, and the same block closed by [halt]. *)
Definition calls (bs : list builtin_id) : forth_code :=
  map (fun b => Callback (cb_builtin b)) bs.

Definition straight_line (bs : list builtin_id) : forth_code :=
  calls bs ++ [Callback op_halt].

(** [ctx->j] points into [ctx->j_stack] or just behind it. *)
Definition j_stack_fits (ctx : forth_ctx) : Prop :=
  Z.of_nat (List.length (j_stack ctx)) <= j_stack_capacity.

(** The computation [c] leaves the machine [m] as it found it. *)
Definition same_machine (c : M unit) (m : machine) : Prop := c m = Ok (tt, m).

(** A straight-line instruction: the call of a builtin, or the push of a
    number with its immediate. *)
Inductive straight_op : Type :=
| call_of (b : builtin_id)
| push_of (v : float).

Definition straight_code (os : list straight_op) : forth_code :=
  flat_map (fun o => match o with
                     | call_of b => [Callback (cb_builtin b)]
                     | push_of v => [Callback op_number; Number v]
                     end) os.

(** The call of the user word at [w]. *)
Definition call_user_word (w : nat) : forth_code :=
  [Callback op_eval_code; Code w].

(** What a straight-line instruction does to the machine, and what a
    list of them does, one after the other. *)
Definition straight_step (lm : libm) (o : straight_op) : M unit :=
  match o with
  | call_of b => builtin_body lm b
  | push_of v => PUSH_D v
  end.

Fixpoint straight_steps (lm : libm) (os : list straight_op) : M unit :=
  match os with
  | [] => mret tt
  | o :: os' => (straight_step lm o ;;; straight_steps lm os')%M
  end.

(** The machine a computation ends in. *)
Definition final_machine (r : result (unit * machine)) : result machine :=
  '(_, m) <- r ;; Ok m.

(** Every name that [ctx] resolves, [ctx'] resolves to the same word;
    the main word is the same. *)
Definition keeps_names (ctx ctx' : forth_ctx) : Prop :=
  main ctx' = main ctx /\
  forall n p, hash_find (words ctx) n = Some p ->
              hash_find (words ctx') n = Some p.

(** The word at [p] is finished in [ctx]: it is on the heap, and it is
    neither the main word nor the word being defined. *)
Definition finished_word (ctx : forth_ctx) (p : nat) : Prop :=
  (p < List.length (heap ctx))%nat /\ p <> main ctx /\
  defining_word ctx <> Some p.

(** From [ctx] to [ctx'] the finished words stay finished and stay as
    they are. *)
Definition freezes (ctx ctx' : forth_ctx) : Prop :=
  main ctx' = main ctx /\
  forall p, finished_word ctx p ->
            finished_word ctx' p /\
            nth_error (heap ctx') p = nth_error (heap ctx) p.

(** The states a program can hold: the one [forth_new] returns, and
    every state a successful [forth_parse_string] returns on one of
    them. *)
Inductive parsed (strtod : string -> float * string * bool)
  : forth_ctx -> Prop :=
| parsed_new : parsed strtod forth_new
| parsed_more ctx src ctx' :
    parsed strtod ctx ->
    forth_parse_string strtod ctx src = Ok ctx' ->
    parsed strtod ctx'.

(** * Properties *)

Lemma callback_eqb_eq a b : callback_eqb a b = true <-> a = b.
Proof.
  unfold callback_eqb; destruct (callback_eq_dec a b); split; congruence.
Qed.

Lemma bind_Ok A B (r : result A) (f : A -> result B) b :
  bind r f = Ok b -> exists a, r = Ok a /\ f a = Ok b.
Proof. destruct r as [a|e]; simpl; [eauto | discriminate]. Qed.

Ltac bind_inv H :=
  let a := fresh "a" in
  let Ha := fresh "Ha" in
  apply bind_Ok in H; destruct H as (a & Ha & H).

(** ** Fuel *)

Lemma run_from_more lm fuel : forall code ip m m',
  run_from lm fuel code ip m = Ok m' ->
  forall fuel', (fuel <= fuel')%nat -> run_from lm fuel' code ip m = Ok m'.
Proof.
  induction fuel as [|fuel IH]; intros code ip m m' H fuel' Hle.
  - discriminate.
  - destruct fuel' as [|fuel']; [lia|].
    simpl in *. destruct (dispatch lm code ip m) as [[[ip'|] m1]|e];
      try assumption.
    apply IH with (1 := H). lia.
Qed.

Lemma forth_run_deterministic lm ctx vs f1 f2 m1 m2 :
  forth_run lm f1 ctx vs = Ok m1 -> forth_run lm f2 ctx vs = Ok m2 -> m1 = m2.
Proof.
  unfold forth_run. destruct (word_code (heap ctx) (main ctx)) as [code|e];
    simpl; [|discriminate].
  intros H1 H2.
  apply run_from_more with (fuel' := Nat.max f1 f2) in H1; [|lia].
  apply run_from_more with (fuel' := Nat.max f1 f2) in H2; [|lia].
  congruence.
Qed.

Lemma runs_to_unique lm ctx vs d1 d2 :
  runs_to lm ctx vs d1 -> runs_to lm ctx vs d2 -> d1 = d2.
Proof.
  intros (f1 & m1 & H1 & E1) (f2 & m2 & H2 & E2).
  rewrite <- E1, <- E2. f_equal. eapply forth_run_deterministic; eassumption.
Qed.

(** ** The shape of a block under appends and patches *)

Lemma is_callback_unique s a b :
  is_callback s a = true -> is_callback s b = true -> a = b.
Proof.
  destruct s; simpl; try discriminate.
  intros Ha Hb. apply callback_eqb_eq in Ha, Hb. congruence.
Qed.

Lemma kinds_app : forall a sk b,
  kinds sk (a ++ b) = kinds sk a ++ kinds (pending sk a) b.
Proof.
  induction a as [|s a IH]; intros sk b; simpl; [reflexivity|].
  destruct sk; simpl; now rewrite IH.
Qed.

Lemma pending_app : forall a sk b,
  pending sk (a ++ b) = pending (pending sk a) b.
Proof.
  induction a as [|s a IH]; intros sk b; simpl; [reflexivity|].
  destruct sk; now rewrite IH.
Qed.

Lemma opcodes_from_app : forall a sk b,
  opcodes_from sk (a ++ b) = opcodes_from sk a ++ opcodes_from (pending sk a) b.
Proof.
  induction a as [|s a IH]; intros sk b; simpl; [reflexivity|].
  destruct sk; simpl; now rewrite IH.
Qed.

Lemma kinds_length : forall code sk, List.length (kinds sk code) = List.length code.
Proof.
  induction code as [|s code IH]; intros sk; simpl; [reflexivity|].
  destruct sk; simpl; now rewrite IH.
Qed.

(** A store into a slot in immediate position changes neither the shape
    of the block nor its opcodes. *)
Lemma set_nth_immediate : forall code sk n s,
  nth_error (kinds sk code) n = Some true ->
  kinds sk (set_nth code n s) = kinds sk code /\
  pending sk (set_nth code n s) = pending sk code /\
  opcodes_from sk (set_nth code n s) = opcodes_from sk code.
Proof.
  induction code as [|a code IH]; intros sk n s H.
  - destruct n; discriminate.
  - destruct n as [|n]; simpl in *.
    + destruct sk; simpl in H; [auto | discriminate].
    + destruct sk; simpl in H;
        destruct (IH _ _ s H) as (K & P & O); rewrite K, P, O; auto.
Qed.

(** ** The inliner leaves no call behind *)

Lemma grown_refl code : grown code code.
Proof. exists []. now rewrite app_nil_r. Qed.

Lemma grown_trans a b c : grown a b -> grown b c -> grown a c.
Proof.
  intros [k1 H1] [k2 H2]. exists (k1 ++ k2). now rewrite H2, H1, app_assoc.
Qed.

Lemma grown_app a b : grown a (a ++ b).
Proof. eexists. apply kinds_app. Qed.

Lemma pending_branches_grown code code' j :
  grown code code' -> pending_branches code j -> pending_branches code' j.
Proof.
  intros [k Hk] H. unfold pending_branches in *.
  eapply Forall_impl; [|exact H]. cbv beta. intros idx [H0 Hn]. split; [assumption|].
  rewrite Hk. rewrite nth_error_app1; [assumption|].
  apply nth_error_Some. congruence.
Qed.

Lemma inlined_app_opcode code s :
  inlined code -> not_eval s ->
  no_call_user_word (code ++ [s]) /\
  pending false (code ++ [s]) = takes_immediate s.
Proof.
  intros [P N] Hs. unfold no_call_user_word, opcodes in *.
  rewrite opcodes_from_app, pending_app, P. simpl. split; [|reflexivity].
  apply Forall_app. split; [assumption|]. constructor; [assumption|constructor].
Qed.

Lemma forth_code_set_elem_ok code idx s code' :
  forth_code_set_elem code idx s = Ok code' ->
  code' = set_nth code (Z.to_nat idx) s /\ 0 <= idx.
Proof.
  unfold forth_code_set_elem.
  destruct (idx <? 0) eqn:E0; simpl; [discriminate|].
  destruct (forth_code_len code <=? idx); [discriminate|].
  intros H. inversion H. split; [reflexivity|]. apply Z.ltb_ge. assumption.
Qed.

Lemma set_nth_length : forall code n s,
  List.length (set_nth code n s) = List.length code.
Proof.
  induction code as [|a code IH]; intros [|n] s; simpl; auto.
Qed.

(** A patch through the index on top of the jump stack keeps the shape
    and the opcodes of the block. *)
Lemma patch_keeps code idx j s code' :
  pending_branches code (idx :: j) ->
  forth_code_set_elem code idx s = Ok code' ->
  (opcodes code' = opcodes code) /\
  (pending false code' = pending false code) /\
  (kinds false code' = kinds false code) /\
  (forth_code_len code' = forth_code_len code).
Proof.
  intros HJ Hset.
  apply forth_code_set_elem_ok in Hset. destruct Hset as [-> _].
  inversion HJ as [|? ? [_ Hi] _]; subst.
  destruct (set_nth_immediate code false _ s Hi) as (K & P' & O).
  unfold opcodes, forth_code_len.
  rewrite O, P', K, set_nth_length. repeat split; reflexivity.
Qed.

Lemma JS_PUSH_ok j v j' : JS_PUSH j v = Ok j' -> j' = v :: j.
Proof.
  unfold JS_PUSH.
  destruct (64 <? Z.of_nat (List.length j)); [discriminate|].
  destruct (64 =? Z.of_nat (List.length j)); [discriminate|].
  congruence.
Qed.

Lemma JS_POP_ok j v j' : JS_POP j = Ok (v, j') -> j = v :: j'.
Proof. destruct j; simpl; [discriminate|congruence]. Qed.

(** Once the immediate of the opcode just appended is in place, its
    index may sit on the jump stack. *)
Lemma pending_branches_push code imm j :
  pending false code = true -> pending_branches code j ->
  pending_branches (code ++ [imm]) (forth_code_len code :: j).
Proof.
  intros P HJ. constructor.
  - split; [unfold forth_code_len; lia|].
    rewrite kinds_app, P. simpl. unfold forth_code_len.
    rewrite Nat2Z.id. rewrite nth_error_app2; rewrite kinds_length; [|lia].
    now rewrite Nat.sub_diag.
  - eapply pending_branches_grown; [apply grown_app | assumption].
Qed.

Lemma pending_branches_tail code idx j :
  pending_branches code (idx :: j) -> pending_branches code j.
Proof. intros H. now inversion H. Qed.

Lemma pending_branches_same code code' j :
  kinds false code' = kinds false code ->
  pending_branches code j -> pending_branches code' j.
Proof.
  intros K. apply pending_branches_grown. exists []. now rewrite app_nil_r.
Qed.

(** One turn of the loop on an instruction that is not a call. *)
Lemma patch_branches_step inst code j code' j' f :
  inlined code -> pending_branches code j -> not_eval inst ->
  patch_branches inst (code ++ [inst]) j = Ok (code', j', f) ->
  no_call_user_word code' /\ pending false code' = f /\ grown code code' /\
  (if f then forall imm, pending_branches (code' ++ [imm]) j'
   else pending_branches code' j').
Proof.
  intros HI HJ Hne H.
  destruct (inlined_app_opcode HI Hne) as [N P].
  assert (HJ1 : pending_branches (code ++ [inst]) j)
    by (eapply pending_branches_grown; [apply grown_app | assumption]).
  assert (G1 : grown code (code ++ [inst])) by apply grown_app.
  unfold takes_immediate in P. unfold not_eval in Hne. rewrite Hne in P.
  unfold patch_branches in H.
  destruct (is_callback inst op_jump_if) eqn:Ejif.
  { destruct (JS_PUSH j _) as [j1|] eqn:Epush; simpl in H; [|discriminate].
    inversion H; subst; clear H. apply JS_PUSH_ok in Epush. subst j'.
    rewrite orb_true_r in P. simpl in P.
    repeat split; try assumption.
    intros imm. now apply pending_branches_push. }
  destruct (is_callback inst op_jump) eqn:Ejump.
  { destruct (JS_POP j) as [[idx j1]|] eqn:Epop; simpl in H; [|discriminate].
    apply JS_POP_ok in Epop. subst j.
    destruct (forth_code_set_elem _ idx _) as [code1|] eqn:Eset; simpl in H;
      [|discriminate].
    destruct (patch_keeps _ HJ1 Eset) as (N1 & P1 & K1 & L1).
    destruct (JS_PUSH j1 _) as [j2|] eqn:Epush; simpl in H; [|discriminate].
    inversion H; subst; clear H. apply JS_PUSH_ok in Epush. subst j'.
    rewrite orb_true_r in P. simpl in P.
    repeat split.
    - unfold no_call_user_word. now rewrite N1.
    - now rewrite P1.
    - eapply grown_trans; [exact G1|]. exists []. now rewrite app_nil_r.
    - intros imm. apply pending_branches_push; [now rewrite P1|].
      apply pending_branches_same with (1 := K1).
      eapply pending_branches_tail; eassumption. }
  destruct (is_callback inst op_nop) eqn:Enop.
  { destruct (JS_POP j) as [[idx j1]|] eqn:Epop; simpl in H; [|discriminate].
    apply JS_POP_ok in Epop. subst j.
    destruct (forth_code_set_elem _ idx _) as [code1|] eqn:Eset; simpl in H;
      [|discriminate].
    destruct (patch_keeps _ HJ1 Eset) as (N1 & P1 & K1 & L1).
    inversion H; subst; clear H.
    assert (Enum : is_callback inst op_number = false).
    { destruct (is_callback inst op_number) eqn:E; [|reflexivity].
      pose proof (is_callback_unique _ _ _ E Enop). discriminate. }
    rewrite Enum in P. simpl in P.
    repeat split.
    - unfold no_call_user_word. now rewrite N1.
    - now rewrite P1.
    - eapply grown_trans; [exact G1|]. exists []. now rewrite app_nil_r.
    - apply pending_branches_same with (1 := K1).
      eapply pending_branches_tail; eassumption. }
  destruct (is_callback inst op_number) eqn:Enum;
    inversion H; subst; clear H; simpl in P; repeat split; try assumption.
  intros imm. eapply pending_branches_grown; [apply grown_app | assumption].
Qed.

Lemma inlined_app_immediate code imm :
  no_call_user_word code -> pending false code = true ->
  inlined (code ++ [imm]).
Proof.
  intros N P. unfold inlined, no_call_user_word, opcodes in *.
  rewrite pending_app, opcodes_from_app, P. simpl. rewrite app_nil_r. auto.
Qed.

(** The loop of the inliner, given that the recursive call already
    behaves. *)
Lemma inline_loop_inlined hp rec :
  (forall callee code code',
      rec callee code = Ok code' -> inlined code ->
      inlined code' /\ grown code code') ->
  forall n orig code j code',
    (List.length orig <= n)%nat ->
    inline_loop hp rec orig code j = Ok code' ->
    inlined code -> pending_branches code j ->
    inlined code' /\ grown code code'.
Proof.
  intros Hrec. induction n as [|n IH]; intros orig code j code' Hlen H HI HJ.
  - destruct orig; [|simpl in Hlen; lia]. simpl in H. inversion H; subst.
    split; [assumption | apply grown_refl].
  - destruct orig as [|inst rest].
    { simpl in H. inversion H; subst. split; [assumption | apply grown_refl]. }
    simpl in H, Hlen.
    destruct (is_callback inst op_eval_code) eqn:Eev.
    + destruct rest as [|[c|w|d|pc] rest']; try discriminate.
      destruct (word_code hp w) as [callee|]; [|discriminate].
      destruct (rec callee code) as [code1|] eqn:Erec; [|discriminate].
      destruct (Hrec _ _ _ Erec HI) as [HI1 G1].
      simpl in Hlen.
      destruct (IH rest' code1 j code') as [HI2 G2]; try assumption; [lia| |].
      * eapply pending_branches_grown; eassumption.
      * split; [assumption | eapply grown_trans; eassumption].
    + destruct (patch_branches inst (forth_code_append code inst) j)
        as [[[code1 j1] f]|] eqn:Ep; [|discriminate].
      unfold forth_code_append in Ep.
      destruct (patch_branches_step HI HJ Eev Ep) as (N1 & P1 & G1 & HJ1).
      destruct f.
      * destruct rest as [|imm rest']; [discriminate|]. simpl in Hlen.
        destruct (IH rest' (forth_code_append code1 imm) j1 code')
          as [HI2 G2]; try assumption; [lia| | |].
        -- now apply inlined_app_immediate.
        -- apply HJ1.
        -- split; [assumption|].
           eapply grown_trans; [exact G1|].
           eapply grown_trans; [apply grown_app | exact G2].
      * destruct (IH rest code1 j1 code') as [HI2 G2]; try assumption; [lia| |].
        -- split; assumption.
        -- split; [assumption | eapply grown_trans; eassumption].
Qed.

(** [inline_calls_code] at any depth. *)
Lemma inline_calls_code_inlined hp : forall nested orig code code',
  inline_calls_code hp nested orig code = Ok code' -> inlined code ->
  inlined code' /\ grown code code'.
Proof.
  induction nested as [|n IH]; intros orig code code' H HI.
  - discriminate.
  - simpl in H.
    apply (@inline_loop_inlined hp (inline_calls_code hp n)
             (fun callee c c' => IH callee c c')
             (List.length orig) orig code [] code');
      [lia | exact H | exact HI | constructor].
Qed.

Lemma inlined_nil : inlined [].
Proof. split; [reflexivity | constructor]. Qed.

(** ** Conditionals *)

(** C1 (as the code has it): both sources compile.  Run on any
    variables, [0 if 1 else 2 then] halts with an empty D stack: the
    offset stored behind its [op_jump_if] leads to the [op_nop] of
    [then], past the else branch.  [1 if 1 else 2 then] halts with
    exactly the value 1. *)
Theorem if_else_then_runs : forall lm vs,
  (exists ctx, compile "0 if 1 else 2 then" = Ok ctx /\
               main_code ctx =
                 Ok [Callback op_number; Number 0; Callback op_jump_if; Pc 8;
                     Callback op_number; Number 1; Callback op_jump; Pc 5;
                     Callback op_number; Number 2; Callback op_nop;
                     Callback op_halt] /\
               runs_to lm ctx vs []) /\
  (exists ctx, compile "1 if 1 else 2 then" = Ok ctx /\
               runs_to lm ctx vs [1%float]).
Proof.
  intros lm vs. split.
  - eexists. split; [vm_compute; reflexivity|].
    split; [vm_compute; reflexivity|].
    exists 10%nat. eexists. split; [vm_compute; reflexivity | reflexivity].
  - eexists. split; [vm_compute; reflexivity|].
    exists 10%nat. eexists. split; [vm_compute; reflexivity | reflexivity].
Qed.

(** C2 (as the code has it): [1 0 if else then] is accepted, its final
    block has 10 slots, and the [op_jump_if] at slot 4 transfers to slot
    14; running the program takes that branch and leaves the block. *)
Theorem branch_leaves_block :
  exists ctx code,
    compile "1 0 if else then" = Ok ctx /\
    main_code ctx = Ok code /\
    forth_code_len code = 10 /\
    branch_targets 0 code = [14; 9] /\
    branches_stay_inside code = false /\
    forall lm vs fuel, forth_run lm (4 + fuel) ctx vs = Err E_undefined.
Proof.
  eexists. eexists. split; [vm_compute; reflexivity|].
  split; [vm_compute; reflexivity|].
  repeat split; vm_compute; reflexivity.
Qed.

(** Two doubles that differ under [==] are not the same double. *)
Lemma float_neq (a b : float) : (a =? b)%float <> (b =? b)%float -> a <> b.
Proof. intros H E. apply H. now rewrite E. Qed.

(** C3 does not hold as stated: with x = 0 the program of [main] does
    not halt with 210 as its only value. *)
Lemma nice_juanita_not_210 :
  ~ (exists ctx, compile nice_juanita = Ok ctx /\
       runs_to no_libm ctx (vars_with_x 0 0 0 0 [0%float]) [210%float] /\
       runs_to no_libm ctx (vars_with_x 1 0 0 0 [0%float]) [69%float]).
Proof.
  intros (ctx & Hc & H0 & _).
  assert (H : runs_to no_libm ctx (vars_with_x 0 0 0 0 [0%float]) [420%float]).
  { vm_compute in Hc. inversion Hc; subst ctx; clear Hc.
    exists 20%nat. eexists. split; [vm_compute; reflexivity | reflexivity]. }
  pose proof (runs_to_unique H0 H) as E.
  assert (E' : 210%float = 420%float) by congruence.
  revert E'. apply float_neq. vm_compute. discriminate.
Qed.

(** C3 (amended): the program of [main] compiles; with x = 0 it halts
    with D = [420.0], with x = 1 it halts with D = [69.0], whatever the
    other variables are. *)
Theorem nice_juanita_runs :
  exists ctx, compile nice_juanita = Ok ctx /\
    forall lm y t dt mem,
      runs_to lm ctx (vars_with_x 0 y t dt mem) [420%float] /\
      runs_to lm ctx (vars_with_x 1 y t dt mem) [69%float].
Proof.
  eexists. split; [vm_compute; reflexivity|].
  intros lm y t dt mem. split.
  - exists 20%nat. eexists. split; [vm_compute; reflexivity | reflexivity].
  - exists 20%nat. eexists. split; [vm_compute; reflexivity | reflexivity].
Qed.

(** ** The stack-effect checker *)

(** Pushes of numbers are counted and never compared with the capacity
    inside the loop. *)
Lemma check_loop_pushes : forall n d r,
  check_loop (pushes n) d r = Ok (d + Z.of_nat n, r).
Proof.
  induction n as [|n IH]; intros d r.
  - simpl. now rewrite Z.add_0_r.
  - cbn [pushes check_loop]. change (is_callback (Callback op_number) op_number)
      with true. cbv iota. rewrite IH. f_equal. f_equal. lia.
Qed.

(** C4 (as the code has it): after 32 pushes the tracked D occupancy is
    32, and a block that goes on with [drop] and [halt] is accepted; so
    is the source it comes from.  A source with 33 pushes followed by
    [if then drop] is accepted as well, and running it stores outside
    the 32 slots of the D stack. *)
Theorem checker_accepts_full_stack :
  check_loop (pushes 32) 0 0 = Ok (32, 0) /\
  check_stack_effects
    (pushes 32 ++ [Callback (cb_builtin B_drop); Callback op_halt]) = Ok tt /\
  (exists ctx,
     compile (repeat_string 32 "1 " ++ "drop") = Ok ctx /\
     main_code ctx =
       Ok (pushes 32 ++ [Callback (cb_builtin B_drop); Callback op_halt])) /\
  (exists ctx,
     compile (repeat_string 33 "1 " ++ "if then drop") = Ok ctx /\
     main_code ctx =
       Ok (pushes 33 ++ [Callback op_jump_if; Pc 3; Callback op_nop;
                         Callback (cb_builtin B_drop); Callback op_halt]) /\
     forall lm vs, forth_run lm 100 ctx vs = Err E_undefined).
Proof.
  split; [apply check_loop_pushes|].
  split; [vm_compute; reflexivity|].
  split.
  - eexists. split; vm_compute; reflexivity.
  - eexists. split; [vm_compute; reflexivity|].
    split; vm_compute; reflexivity.
Qed.

(** ** Division *)

(** C6: when the top of D compares equal to 0.0, the word [/] drops it
    together with the value below it, whatever that value is, and pushes
    positive infinity; [1 0 /] compiles and halts with D = [+inf]. *)
Theorem division_by_zero : forall lm,
  (forall m v w rest,
      d_stack m = v :: w :: rest ->
      (v =? 0)%float = true ->
      Z.of_nat (List.length (d_stack m)) <= stack_capacity ->
      builtin_body lm B_div m =
        Ok (tt, {| d_stack := infinity :: rest; r_stack := r_stack m;
                   vars := vars m; draws := draws m |})) /\
  (exists ctx, compile "1 0 /" = Ok ctx /\
               forall vs, runs_to lm ctx vs [infinity]).
Proof.
  intros lm. split.
  - intros [d r vs n] v w rest Hd Hv Hcap. simpl in Hd, Hcap. subst d.
    unfold builtin_body, mbind, POP_D, DROP_D, PUSH_D, mret. simpl.
    rewrite Hv. simpl.
    replace (Z.of_nat (List.length rest) <? stack_capacity) with true;
      [reflexivity|].
    symmetry. apply Z.ltb_lt. simpl in Hcap. unfold stack_capacity in *. lia.
  - eexists. split; [vm_compute; reflexivity|].
    intros vs. exists 10%nat. eexists.
    split; [vm_compute; reflexivity | reflexivity].
Qed.

Lemma division_by_zero_witness :
  builtin_body no_libm B_div
    {| d_stack := [0%float; (-3)%float; 7%float]; r_stack := [];
       vars := vars_with_x 0 0 0 0 []; draws := O |} =
  Ok (tt, {| d_stack := [infinity; 7%float]; r_stack := [];
             vars := vars_with_x 0 0 0 0 []; draws := O |}).
Proof.
  apply (proj1 (division_by_zero no_libm)
           {| d_stack := [0%float; (-3)%float; 7%float]; r_stack := [];
              vars := vars_with_x 0 0 0 0 []; draws := O |}
           0%float (-3)%float [7%float]).
  - reflexivity.
  - reflexivity.
  - vm_compute. discriminate.
Defined.

(** For the word [/], [peephole_n] is its first branch and nothing else:
    the constant fold further down the chain is never reached. *)
Lemma peephole_n_division ctx code b :
  name b = "/" ->
  peephole_n ctx code b =
  (two <- tail_is_push_of_two code ;;
   if two then fuse_with_two ctx code " div2" else Ok None).
Proof. intros E. unfold peephole_n. rewrite E. reflexivity. Qed.

(** C7 (as the code has it): with the pushes of 6 and 3, or of 1 and 0,
    at the tail, [peephole_n] reports no rewrite for [/]; the final
    blocks of [6 3 /] and [1 0 /] still hold both pushes and the
    division.  With the pushes of 6 and 2 the tail becomes the fused
    division by two. *)
Theorem division_is_not_folded :
  peephole_n forth_new
    [Callback op_number; Number 6; Callback op_number; Number 3] div_builtin
    = Ok None /\
  peephole_n forth_new
    [Callback op_number; Number 1; Callback op_number; Number 0] div_builtin
    = Ok None /\
  peephole_n forth_new
    [Callback op_number; Number 6; Callback op_number; Number 2] div_builtin
    = Ok (Some [Callback op_number; Number 6; Callback (cb_builtin B_div2)]) /\
  (exists ctx, compile "6 3 /" = Ok ctx /\
     main_code ctx =
       Ok [Callback op_number; Number 6; Callback op_number; Number 3;
           Callback (cb_builtin B_div); Callback op_halt]) /\
  (exists ctx, compile "1 0 /" = Ok ctx /\
     main_code ctx =
       Ok [Callback op_number; Number 1; Callback op_number; Number 0;
           Callback (cb_builtin B_div); Callback op_halt]).
Proof.
  repeat split; try (vm_compute; reflexivity);
    eexists; split; vm_compute; reflexivity.
Qed.

(** ** Multiplication by pi *)

(** C8 does not hold as stated: the final block of [2 pi *] is not a
    single push of 2 pi followed by [halt]. *)
Lemma two_pi_not_one_push :
  ~ (exists ctx, compile "2 pi *" = Ok ctx /\
       main_code ctx =
         Ok [Callback op_number; Number two_pi; Callback op_halt]).
Proof.
  intros (ctx & Hc & Hm).
  vm_compute in Hc. inversion Hc; subst ctx; clear Hc.
  vm_compute in Hm. discriminate.
Qed.

(** C8 (amended): the final block of [2 pi *] is the push of 2.0, the
    fused multiplication by pi and [halt]; the program halts with
    D = [2 pi]. *)
Theorem two_pi_fused :
  exists ctx, compile "2 pi *" = Ok ctx /\
    main_code ctx =
      Ok [Callback op_number; Number 2; Callback (cb_builtin B_multpi);
          Callback op_halt] /\
    forall lm vs, runs_to lm ctx vs [two_pi].
Proof.
  eexists. split; [vm_compute; reflexivity|].
  split; [vm_compute; reflexivity|].
  intros lm vs. exists 10%nat. eexists.
  split; [vm_compute; reflexivity | reflexivity].
Qed.

(** ** Inlining *)

Lemma set_word_same : forall hp w v old,
  nth_error hp w = Some old -> nth_error (set_word hp w v) w = Some v.
Proof.
  induction hp as [|a hp IH]; intros [|w] v old H; simpl in *;
    try discriminate; [reflexivity | eauto].
Qed.

Lemma set_word_code_main ctx w code ctx' :
  set_word_code ctx w code = Ok ctx' ->
  main ctx' = main ctx /\ word_code (heap ctx') w = Ok code.
Proof.
  unfold set_word_code, word_code.
  destruct (nth_error (heap ctx) w) as [[b|n c]|] eqn:E; try discriminate.
  intros H. inversion H; subst; clear H. simpl. split; [reflexivity|].
  now rewrite (set_word_same _ _ (user_word n code) E).
Qed.

(** Whatever block and whatever words it is given, a run of the inliner
    that succeeds from an empty block leaves no call-user-word
    instruction. *)
Lemma inline_calls_code_no_call hp nested orig code :
  inline_calls_code hp nested orig [] = Ok code -> no_call_user_word code.
Proof.
  intros H.
  destruct (inline_calls_code_inlined _ _ _ H inlined_nil) as [[_ N] _].
  exact N.
Qed.

(** A block the checker accepts has no call-user-word instruction
    either. *)
Lemma check_loop_no_call : forall n code d r x,
  (List.length code <= n)%nat ->
  check_loop code d r = Ok x -> no_call_user_word code.
Proof.
  unfold no_call_user_word, opcodes.
  induction n as [|n IH]; intros code d r x Hlen H.
  - destruct code; [constructor | simpl in Hlen; lia].
  - destruct code as [|inst rest]; [constructor|].
    simpl in Hlen. cbn [check_loop] in H. cbn [opcodes_from].
    unfold takes_immediate.
    assert (Hu : forall c, is_callback inst c = true ->
                           c <> op_eval_code -> not_eval inst).
    { intros c Hc Hne. unfold not_eval.
      destruct (is_callback inst op_eval_code) eqn:E; [|reflexivity].
      elim Hne. eapply is_callback_unique; eassumption. }
    destruct (is_callback inst op_number) eqn:Enum.
    { constructor; [apply (Hu _ Enum); discriminate|]. simpl.
      destruct rest as [|imm rest']; [constructor|].
      simpl in Hlen. apply (IH rest' (d + 1) r x); [lia | exact H]. }
    destruct (is_callback inst op_jump_if) eqn:Ejif.
    { constructor; [apply (Hu _ Ejif); discriminate|]. simpl.
      destruct (d =? 0); [discriminate|].
      destruct rest as [|imm rest']; [constructor|].
      simpl in Hlen. apply (IH rest' (d - 1) r x); [lia | exact H]. }
    destruct (is_callback inst op_jump) eqn:Ejump.
    { constructor; [apply (Hu _ Ejump); discriminate|]. simpl.
      destruct rest as [|imm rest']; [constructor|].
      simpl in Hlen. apply (IH rest' d r x); [lia | exact H]. }
    destruct (is_callback inst op_halt) eqn:Ehalt.
    { destruct (is_callback inst op_eval_code) eqn:Eev;
        [pose proof (is_callback_unique _ _ _ Ehalt Eev); discriminate|].
      constructor; [exact Eev|]. apply (IH rest d r x); [lia | exact H]. }
    destruct (is_callback inst op_nop) eqn:Enop.
    { destruct (is_callback inst op_eval_code) eqn:Eev;
        [pose proof (is_callback_unique _ _ _ Enop Eev); discriminate|].
      constructor; [exact Eev|]. apply (IH rest d r x); [lia | exact H]. }
    destruct (is_callback inst op_eval_code) eqn:Eev; [discriminate|].
    constructor; [exact Eev|]. simpl.
    destruct (find_builtin_by_callback inst) as [b|]; [|discriminate].
    destruct (d <? d_pops b); [discriminate|].
    destruct (r <? r_pops b); [discriminate|].
    destruct (stack_capacity <=? d - d_pops b + d_pushes b); [discriminate|].
    destruct (stack_capacity <=? r - r_pops b + r_pushes b); [discriminate|].
    eapply IH; [|exact H]. lia.
Qed.

(** C5: when [forth_parse_string] accepts a source, the inlining phase
    inside it succeeded, and the main block it produced has no
    call-user-word instruction; nor has the main block of the state the
    function returns. *)
Theorem inlining_removes_calls strtod ctx src ctx' :
  forth_parse_string strtod ctx src = Ok ctx' ->
  (exists ctx1 ctx2 code,
     parse_source strtod ctx src = Ok ctx1 /\
     inline_calls ctx1 = Ok ctx2 /\
     main_code ctx2 = Ok code /\
     no_call_user_word code) /\
  (exists code', main_code ctx' = Ok code' /\ no_call_user_word code').
Proof.
  unfold forth_parse_string, bind. intros H.
  destruct (parse_source strtod ctx src) as [ctx1|] eqn:E1; [|discriminate].
  destruct (inline_calls ctx1) as [ctx2|] eqn:E2; [|discriminate].
  split.
  - clear H. pose proof E2 as E2'.
    unfold inline_calls, bind in E2.
    destruct (word_code (heap ctx1) (main ctx1)) as [mc|]; [|discriminate].
    destruct (inline_calls_code (heap ctx1) 100 mc []) as [new_main|] eqn:Ei;
      [|discriminate].
    destruct (set_word_code_main _ _ _ E2) as [Em Ec].
    exists ctx1, ctx2, new_main. split; [reflexivity|].
    split; [exact E2'|]. split.
    + unfold main_code. now rewrite Em.
    + eapply inline_calls_code_no_call. exact Ei.
  - unfold optimise_and_check in H.
    apply bind_Ok in H. destruct H as ([c1 modified] & _ & H).
    apply bind_Ok in H. destruct H as (c2 & _ & H).
    apply bind_Ok in H. destruct H as (final & Ef & H).
    apply bind_Ok in H. destruct H as (u & Hc & H).
    inversion H; subst c2. exists final. split; [exact Ef|].
    unfold check_stack_effects in Hc.
    apply bind_Ok in Hc. destruct Hc as ([d r] & Hl & _).
    eapply check_loop_no_call; [|exact Hl]. apply Nat.le_refl.
Qed.

Lemma inlining_removes_calls_witness :
  exists ctx1 ctx2 code,
    parse_source strtod_decimal forth_new ": sq dup * ; 3 sq" = Ok ctx1 /\
    inline_calls ctx1 = Ok ctx2 /\
    main_code ctx2 = Ok code /\
    no_call_user_word code.
Proof.
  refine (proj1 (@inlining_removes_calls strtod_decimal forth_new
                   ": sq dup * ; 3 sq" _ _)).
  vm_compute. reflexivity.
Defined.

(** ** The first word of a source *)

#[local] Arguments isspace : simpl never.
#[local] Arguments isprint : simpl never.

Lemma skip_spaces_blank : forall pre s,
  blank pre = true -> skip_spaces (pre ++ s) = skip_spaces s.
Proof.
  induction pre as [|c pre IH]; intros s H; simpl in *; [reflexivity|].
  apply andb_prop in H. destruct H as [Hc Hp]. rewrite Hc. now apply IH.
Qed.

Lemma skip_spaces_token w s :
  token w = true -> skip_spaces (w ++ s) = (w ++ s)%string.
Proof.
  destruct w as [|c w]; simpl; [discriminate|]. intros H.
  apply andb_prop in H. destruct H as [Hc _].
  apply andb_prop in Hc. destruct Hc as [Hc _].
  apply negb_true_iff in Hc. now rewrite Hc.
Qed.

Lemma scan_word_printable : forall w r,
  string_forall (fun c => negb (isspace c) && isprint c) w = true ->
  starts_blank r = true ->
  scan_word (w ++ r) = Ok (w, r).
Proof.
  induction w as [|c w IH]; intros r H Hr; simpl in *.
  - destruct r as [|c r]; simpl in *; [reflexivity|]. now rewrite Hr.
  - apply andb_prop in H. destruct H as [Hc Hw].
    apply andb_prop in Hc. destruct Hc as [Hs Hp].
    apply negb_true_iff in Hs. rewrite Hs, Hp. simpl.
    now rewrite (IH r Hw Hr).
Qed.

Lemma token_printable w :
  token w = true ->
  string_forall (fun c => negb (isspace c) && isprint c) w = true.
Proof. destruct w; [discriminate | auto]. Qed.

(** The first turn of the loop on a source that starts, after white
    space, with the token [w]. *)
Lemma parse_words_first strtod fuel ctx pre w r :
  blank pre = true -> token w = true -> starts_blank r = true ->
  parse_words strtod (S fuel) ctx (pre ++ w ++ r) =
  ('(ctx', code') <- found_word strtod ctx r w ;;
   match code' with
   | EmptyString => Ok ctx'
   | String _ code'' => parse_words strtod fuel ctx' code''
   end).
Proof.
  intros Hp Hw Hr.
  assert (Hne : exists c s, (pre ++ w ++ r)%string = String c s).
  { destruct pre; simpl; [|eauto]. destruct w; [discriminate|simpl; eauto]. }
  destruct Hne as (c & s & E).
  cbn [parse_words]. rewrite E. rewrite <- E.
  rewrite skip_spaces_blank by assumption.
  rewrite skip_spaces_token by assumption.
  rewrite scan_word_printable by (auto using token_printable).
  cbn [bind]. destruct w; [discriminate|]. reflexivity.
Qed.

(** ** What [found_word] can report *)

Section Avoids.

Variable bad : forth_error.
Hypothesis Hbad : parse_error bad = false.

Ltac leaf :=
  let H := fresh in
  intros H; inversion H; subst; discriminate.

Lemma avoids_bind A B (r : result A) (f : A -> result B) :
  avoids bad r -> (forall a, avoids bad (f a)) -> avoids bad (bind r f).
Proof.
  intros Hr Hf. destruct r as [a|e]; simpl; [apply Hf|].
  intros E. apply Hr. congruence.
Qed.

Lemma avoids_Ok A (a : A) : avoids bad (Ok a).
Proof. discriminate. Qed.

Lemma avoids_word_code hp w : avoids bad (word_code hp w).
Proof.
  unfold word_code.
  destruct (nth_error hp w) as [[b|n c]|]; try apply avoids_Ok; leaf.
Qed.

Lemma avoids_set_word_code ctx w code : avoids bad (set_word_code ctx w code).
Proof.
  unfold set_word_code.
  destruct (nth_error (heap ctx) w) as [[b|n c]|]; try apply avoids_Ok; leaf.
Qed.

Lemma avoids_get_elem code i : avoids bad (forth_code_get_elem code i).
Proof.
  unfold forth_code_get_elem.
  destruct ((i <? 0) || (forth_code_len code <=? i)); [leaf|].
  destruct (nth_error code (Z.to_nat i)); [apply avoids_Ok | leaf].
Qed.

Lemma avoids_set_elem code i s : avoids bad (forth_code_set_elem code i s).
Proof.
  unfold forth_code_set_elem.
  destruct ((i <? 0) || (forth_code_len code <=? i)); [leaf | apply avoids_Ok].
Qed.

Lemma avoids_EMIT ctx s : avoids bad (EMIT ctx s).
Proof.
  unfold EMIT. destruct (defining_word ctx); [|leaf].
  apply avoids_bind; [apply avoids_word_code|]. intros code.
  apply avoids_bind; [apply avoids_set_word_code|]. intros c.
  apply avoids_Ok.
Qed.

Lemma avoids_skip_through code c : avoids bad (skip_through code c).
Proof.
  unfold skip_through.
  destruct (strchr code c) as [[|? ?]|]; try apply avoids_Ok; leaf.
Qed.

Ltac avoids :=
  repeat first
    [ apply avoids_Ok
    | apply avoids_EMIT
    | apply avoids_word_code
    | apply avoids_set_word_code
    | apply avoids_get_elem
    | apply avoids_set_elem
    | apply avoids_skip_through
    | apply avoids_bind; [|intros; repeat match goal with
                                    | p : (_ * _)%type |- _ => destruct p
                                    end; cbn beta iota]
    | leaf ].

Lemma avoids_else_then ctx is_then : avoids bad (builtin_else_then ctx is_then).
Proof.
  unfold builtin_else_then.
  destruct (j_stack ctx) as [|prev j]; [leaf|].
  destruct (defining_word ctx) as [w|]; [|leaf].
  avoids.
  destruct is_then; avoids.
  match goal with |- context [if ?c then _ else _] => destruct c end; avoids.
Qed.

(** The compile-time words. *)
Lemma avoids_callback_compiler c ctx code :
  avoids bad (callback_compiler c ctx code).
Proof.
  destruct c; unfold callback_compiler; avoids.
  - destruct (is_inside_word_def ctx); avoids.
  - destruct (j_stack ctx); [|leaf].
    destruct (negb (is_inside_word_def ctx)); avoids.
  - match goal with |- context [if ?c then _ else _] => destruct c end; avoids.
  - apply avoids_else_then.
  - apply avoids_else_then.
Qed.

(** [found_word], as long as [bad] is not the report of a word of more
    than 64 bytes. *)
Lemma avoids_found_word strtod ctx code word :
  (bad = E_word_too_long -> Z.of_nat (String.length word) <= MAX_WORD_LEN) ->
  avoids bad (found_word strtod ctx code word).
Proof.
  intros Hlen. unfold found_word.
  destruct (MAX_WORD_LEN <? Z.of_nat (String.length word)) eqn:Hle.
  { intros H. inversion H as [Hb]. symmetry in Hb. apply Hlen in Hb.
    apply Z.ltb_lt in Hle. lia. }
  destruct (parse_number strtod word) as [number|].
  - destruct (defining_word ctx); avoids.
  - destruct (defining_word ctx) as [w|].
    + destruct (hash_find (words ctx) word) as [p|]; [|leaf].
      destruct (nth_error (heap ctx) p) as [[b|n c]|]; [| |leaf].
      * destruct (routine b); avoids. apply avoids_callback_compiler.
      * avoids.
    + destruct (hash_find (words ctx) word); [leaf|].
      unfold new_word, new_user_word. rewrite Hle. apply avoids_Ok.
Qed.

End Avoids.

(** ** The loop over the words *)

Lemma keeps_builtins_refl ctx : keeps_builtins ctx ctx.
Proof. intros b H. exact H. Qed.

Lemma keeps_builtins_trans a b c :
  keeps_builtins a b -> keeps_builtins b c -> keeps_builtins a c.
Proof. intros H1 H2 x Hx. auto. Qed.

Lemma set_word_other : forall hp w v p,
  p <> w -> nth_error (set_word hp w v) p = nth_error hp p.
Proof.
  induction hp as [|a hp IH]; intros [|w] v [|p] H; simpl;
    try reflexivity; try congruence.
  apply IH. congruence.
Qed.

Lemma set_word_code_keeps ctx w code ctx' :
  set_word_code ctx w code = Ok ctx' -> keeps_builtins ctx ctx'.
Proof.
  unfold set_word_code.
  destruct (nth_error (heap ctx) w) as [[b|n c]|] eqn:E; try discriminate.
  intros H. inversion H; subst; clear H.
  intros b (p & Hp & Hh). exists p. simpl. split; [assumption|].
  rewrite set_word_other; [assumption|]. congruence.
Qed.

Lemma EMIT_keeps ctx s ctx' i :
  EMIT ctx s = Ok (ctx', i) -> keeps_builtins ctx ctx'.
Proof.
  unfold EMIT. destruct (defining_word ctx) as [w|]; [|discriminate].
  intros H. bind_inv H. bind_inv H. inversion H; subst.
  eapply set_word_code_keeps; eassumption.
Qed.

Lemma set_j_stack_keeps ctx j : keeps_builtins ctx (set_j_stack ctx j).
Proof. intros b H. exact H. Qed.

Lemma set_defining_word_keeps ctx w : keeps_builtins ctx (set_defining_word ctx w).
Proof. intros b H. exact H. Qed.

Lemma add_word_keeps ctx n w :
  hash_find (words ctx) n = None -> keeps_builtins ctx (fst (add_word ctx n w)).
Proof.
  intros Hn b (p & Hp & Hh). exists p. unfold add_word. simpl. split.
  - unfold hash_find in *. simpl. unfold streq.
    destruct (String.eqb n (name b)) eqn:E; [|assumption].
    apply String.eqb_eq in E. subst n. rewrite Hn in Hp. discriminate.
  - rewrite nth_error_app1; [assumption|].
    apply nth_error_Some. congruence.
Qed.

Lemma builtin_else_then_keeps ctx is_then ctx' :
  builtin_else_then ctx is_then = Ok ctx' -> keeps_builtins ctx ctx'.
Proof.
  unfold builtin_else_then.
  destruct (j_stack ctx) as [|prev j]; [discriminate|].
  destruct (defining_word ctx) as [w|]; [|discriminate].
  intros H.
  apply bind_Ok in H. destruct H as (code0 & _ & H).
  apply bind_Ok in H. destruct H as (slot & _ & H).
  apply bind_Ok in H. destruct H as (ctx2 & H2 & H).
  apply bind_Ok in H. destruct H as (code & _ & H).
  apply bind_Ok in H. destruct H as (code1 & _ & H).
  apply set_word_code_keeps in H.
  eapply keeps_builtins_trans; [|exact H].
  eapply keeps_builtins_trans; [apply (@set_j_stack_keeps ctx j)|].
  destruct is_then.
  - apply bind_Ok in H2. destruct H2 as ([c1 i1] & E1 & H2).
    inversion H2; subst. eapply EMIT_keeps; eassumption.
  - apply bind_Ok in H2. destruct H2 as ([c1 i1] & E1 & H2).
    destruct (j_stack_capacity <=? _); [discriminate|].
    apply bind_Ok in H2. destruct H2 as ([c2 i2] & E2 & H2).
    inversion H2; subst.
    eapply keeps_builtins_trans; [eapply EMIT_keeps; eassumption|].
    eapply keeps_builtins_trans; [eapply EMIT_keeps; eassumption|].
    apply set_j_stack_keeps.
Qed.

Lemma strchr_length : forall s c r,
  strchr s c = Some r -> (String.length r <= String.length s)%nat.
Proof.
  induction s as [|a s IH]; intros c r H; simpl in *; [discriminate|].
  destruct (Ascii.eqb a c).
  - inversion H; subst. simpl. lia.
  - apply IH in H. lia.
Qed.

(** What a compile-time word returns: a state that still resolves the
    builtins and a pointer that has not moved backwards. *)
Lemma callback_compiler_post c ctx code ctx' code' :
  callback_compiler c ctx code = Ok (ctx', code') ->
  keeps_builtins ctx ctx' /\ (String.length code' <= String.length code)%nat.
Proof.
  destruct c; unfold callback_compiler; intros H.
  - bind_inv H. inversion H; subst. split; [apply keeps_builtins_refl|].
    unfold skip_through in Ha.
    destruct (strchr code newline) as [[|x r]|] eqn:E; try discriminate.
    inversion Ha; subst. apply strchr_length in E. simpl in E. lia.
  - bind_inv H. inversion H; subst. split; [apply keeps_builtins_refl|].
    unfold skip_through in Ha.
    destruct (strchr code ")"%char) as [[|x r]|] eqn:E; try discriminate.
    inversion Ha; subst. apply strchr_length in E. simpl in E. lia.
  - destruct (is_inside_word_def ctx); [discriminate|].
    inversion H; subst. split; [apply set_defining_word_keeps | lia].
  - destruct (j_stack ctx); [|discriminate].
    destruct (negb (is_inside_word_def ctx)); [discriminate|].
    inversion H; subst. split; [apply set_defining_word_keeps | lia].
  - destruct (j_stack_capacity <=? _); [discriminate|].
    bind_inv H. destruct a as [c1 i1]. bind_inv H. destruct a as [c2 i2].
    inversion H; subst. split; [|lia].
    eapply keeps_builtins_trans; [eapply EMIT_keeps; eassumption|].
    eapply keeps_builtins_trans; [eapply EMIT_keeps; eassumption|].
    apply set_j_stack_keeps.
  - bind_inv H. inversion H; subst. split; [|lia].
    eapply builtin_else_then_keeps; eassumption.
  - bind_inv H. inversion H; subst. split; [|lia].
    eapply builtin_else_then_keeps; eassumption.
Qed.

(** The same of [found_word]. *)
Lemma found_word_post strtod ctx code word ctx' code' :
  found_word strtod ctx code word = Ok (ctx', code') ->
  keeps_builtins ctx ctx' /\ (String.length code' <= String.length code)%nat.
Proof.
  unfold found_word.
  destruct (MAX_WORD_LEN <? Z.of_nat (String.length word)) eqn:Hle;
    [discriminate|].
  destruct (parse_number strtod word) as [number|].
  - destruct (defining_word ctx); [|discriminate]. intros H.
    bind_inv H. destruct a as [c1 i1]. bind_inv H. destruct a as [c2 i2].
    inversion H; subst. split; [|lia].
    eapply keeps_builtins_trans; eapply EMIT_keeps; eassumption.
  - destruct (defining_word ctx) as [w|].
    + destruct (hash_find (words ctx) word) as [p|]; [|discriminate].
      destruct (nth_error (heap ctx) p) as [[b|n c]|]; [| |discriminate].
      * destruct (routine b); try apply callback_compiler_post;
          intros H; bind_inv H; destruct a as [c1 i1]; inversion H; subst;
          (split; [eapply EMIT_keeps; eassumption | lia]).
      * intros H.
        bind_inv H. destruct a as [c1 i1]. bind_inv H. destruct a as [c2 i2].
        inversion H; subst. split; [|lia].
        eapply keeps_builtins_trans; eapply EMIT_keeps; eassumption.
    + destruct (hash_find (words ctx) word) eqn:Eh; [discriminate|].
      unfold new_word, new_user_word. rewrite Hle.
      intros H. inversion H; subst. split; [|lia].
      eapply keeps_builtins_trans; [apply add_word_keeps; exact Eh|].
      apply set_defining_word_keeps.
Qed.

Lemma skip_spaces_length : forall s,
  (String.length (skip_spaces s) <= String.length s)%nat.
Proof.
  induction s as [|c s IH]; simpl; [lia|].
  destruct (isspace c); simpl; lia.
Qed.

Lemma scan_word_length : forall s w r,
  scan_word s = Ok (w, r) ->
  String.length s = (String.length w + String.length r)%nat.
Proof.
  induction s as [|c s IH]; intros w r H; simpl in H.
  - inversion H; subst. reflexivity.
  - destruct (isspace c); [inversion H; subst; reflexivity|].
    destruct (negb (isprint c)); [discriminate|].
    bind_inv H. destruct a as [w' r']. inversion H; subst.
    apply IH in Ha. simpl. lia.
Qed.

(** One turn leaves fewer bytes than it found. *)
Lemma turn_shrinks strtod ctx code c word rest ctx1 c1 code1 :
  scan_word (skip_spaces code) = Ok (String c word, rest) ->
  found_word strtod ctx rest (String c word) = Ok (ctx1, String c1 code1) ->
  (S (String.length code1) < String.length code)%nat.
Proof.
  intros Hs Hf. apply scan_word_length in Hs.
  apply found_word_post in Hf. destruct Hf as [_ Hf].
  pose proof (skip_spaces_length code). simpl in *. lia.
Qed.

(** Any fuel above the length of the source does. *)
Lemma parse_words_fuel strtod : forall f1 f2 ctx code,
  (String.length code < f1)%nat -> (String.length code < f2)%nat ->
  parse_words strtod f1 ctx code = parse_words strtod f2 ctx code.
Proof.
  induction f1 as [|f1 IH]; intros [|f2] ctx code H1 H2; try lia.
  cbn [parse_words]. destruct code as [|a code]; [reflexivity|].
  destruct (scan_word (skip_spaces (String a code))) as [[w r]|] eqn:Es;
    [|reflexivity].
  cbn [bind]. destruct w as [|c w]; [reflexivity|].
  destruct (found_word strtod ctx r (String c w)) as [[ctx1 code1]|] eqn:Ef;
    [|reflexivity].
  cbn [bind]. destruct code1 as [|c1 code1]; [reflexivity|].
  pose proof (turn_shrinks _ _ _ Es Ef). apply IH; lia.
Qed.

(** The loop never runs out of fuel. *)
Lemma parse_words_enough_fuel strtod : forall fuel ctx code,
  (String.length code < fuel)%nat ->
  avoids E_fuel (parse_words strtod fuel ctx code).
Proof.
  induction fuel as [|fuel IH]; intros ctx code H; [lia|].
  cbn [parse_words]. destruct code as [|a code]; [discriminate|].
  destruct (scan_word (skip_spaces (String a code))) as [[w r]|] eqn:Es.
  - cbn [bind]. destruct w as [|c w]; [discriminate|].
    destruct (found_word strtod ctx r (String c w)) as [[ctx1 code1]|] eqn:Ef.
    + cbn [bind]. destruct code1 as [|c1 code1]; [discriminate|].
      pose proof (turn_shrinks _ _ _ Es Ef). apply IH. lia.
    + cbn [bind]. intros E. inversion E; subst.
      apply (@avoids_found_word E_fuel eq_refl strtod ctx r (String c w));
        [discriminate | exact Ef].
  - cbn [bind]. clear H IH. revert e Es.
    generalize (skip_spaces (String a code)). intros s.
    induction s as [|x s IHs]; intros e Es; simpl in Es; [discriminate|].
    destruct (isspace x); [discriminate|].
    destruct (negb (isprint x)); [inversion Es; discriminate|].
    destruct (scan_word s) as [[w' r']|e'] eqn:E'; simpl in Es;
      [discriminate|].
    inversion Es; subst. eapply IHs. reflexivity.
Qed.

(** [parse_source] gives the loop enough fuel. *)
Lemma parse_source_enough_fuel strtod ctx src :
  avoids E_fuel (parse_source strtod ctx src).
Proof.
  unfold parse_source. apply avoids_bind.
  - apply parse_words_enough_fuel. lia.
  - intros ctx1. destruct (is_inside_word_def ctx1); [discriminate|].
    apply avoids_bind; [now apply avoids_EMIT|].
    intros [c i]. discriminate.
Qed.

(** Turns of the loop are turns of [parse_words]. *)
Lemma turns_parse_words strtod ctx code ctx' code' :
  turns strtod ctx code ctx' code' ->
  forall f, (String.length code < f)%nat ->
  (String.length code' <= String.length code)%nat /\
  parse_words strtod f ctx code = parse_words strtod f ctx' code'.
Proof.
  induction 1 as [|ctx code c word rest ctx1 c1 code1 ctx' code' Hs Hf Ht IH];
    intros f Hlen; [split; [lia | reflexivity]|].
  pose proof (turn_shrinks _ _ _ Hs Hf) as Hsh.
  destruct f as [|f]; [lia|].
  destruct (IH f) as [Hl He]; [lia|]. split; [lia|].
  rewrite <- (@parse_words_fuel strtod f (S f) ctx' code') by lia.
  rewrite <- He. cbn [parse_words].
  destruct code as [|a code]; [simpl in Hsh; lia|].
  rewrite Hs. cbn [bind]. rewrite Hf. reflexivity.
Qed.

Lemma turns_keeps_builtins strtod ctx code ctx' code' :
  turns strtod ctx code ctx' code' -> keeps_builtins ctx ctx'.
Proof.
  induction 1 as [|ctx code c word rest ctx1 c1 code1 ctx' code' Hs Hf Ht IH];
    [apply keeps_builtins_refl|].
  apply found_word_post in Hf. destruct Hf as [Hk _].
  eapply keeps_builtins_trans; eassumption.
Qed.

(** When the loop has got to the token [w] and [found_word] refuses it,
    [forth_parse_string] fails with the same report. *)
Lemma forth_parse_string_at strtod ctx src ctx' pre w rest e :
  reaches strtod ctx src ctx' (pre ++ w ++ rest) ->
  blank pre = true -> token w = true -> starts_blank rest = true ->
  found_word strtod ctx' rest w = Err e ->
  forth_parse_string strtod ctx src = Err e.
Proof.
  intros Ht Hp Hw Hr He. unfold reaches in Ht.
  unfold forth_parse_string, parse_source.
  destruct (turns_parse_words Ht (f := S (String.length (c_str src))))
    as [_ E]; [lia|].
  rewrite E. rewrite parse_words_first by assumption.
  rewrite He. reflexivity.
Qed.

(** ** Word length *)

(** One turn of the loop, computed. *)
Ltac turn :=
  eapply turns_next; [vm_compute; reflexivity | vm_compute; reflexivity |].

(** C9: a token of 65 bytes is not always reported.  A source that
    starts with the token of 65 bytes made of [1] and 64 times [0] is
    refused with the report that the word is too long.  Right behind a
    closed [\] comment the same token is accepted: the loop goes on one
    byte behind the newline, the token loses its first byte, and the 64
    bytes that are left compile as the push of the number 0. *)
Theorem long_token_behind_comment :
  String.length ("1" ++ repeat_string 64 "0") = 65%nat /\
  compile ("1" ++ repeat_string 64 "0" ++ " drop") = Err E_word_too_long /\
  exists ctx,
    compile ("\ c" ++ String newline ("1" ++ repeat_string 64 "0" ++ " drop"))
      = Ok ctx /\
    main_code ctx = Ok [Callback op_number; Number 0%float;
                        Callback (cb_builtin B_drop); Callback op_halt].
Proof.
  split; [reflexivity|]. split; [vm_compute; reflexivity|].
  eexists. split; vm_compute; reflexivity.
Qed.

(** A definition whose name has 64 bytes compiles and runs; with one
    byte more the source is refused. *)
Example name_of_64_bytes : forall lm vs,
  exists ctx,
    compile (": " ++ repeat_string 64 "a" ++ " 7 ; " ++ repeat_string 64 "a")
      = Ok ctx /\
    runs_to lm ctx vs [7%float].
Proof.
  intros lm vs. eexists. split; [vm_compute; reflexivity|].
  exists 10%nat. eexists. split; [vm_compute; reflexivity | reflexivity].
Qed.

Example name_of_65_bytes :
  compile (": " ++ repeat_string 65 "a" ++ " 7 ; " ++ repeat_string 65 "a")
    = Err E_word_too_long.
Proof. vm_compute. reflexivity. Qed.

(** ** Comments *)

(** What [found_word] does with a comment word whose closing byte [c]
    does not occur in the rest of the source. *)
Lemma found_word_open_comment strtod ctx rest b id c :
  b = BUILTIN_COMPILER (name b) id ->
  (forall k, callback_compiler id ctx k =
             (r <- skip_through k c ;; Ok (ctx, r))) ->
  (Z.of_nat (String.length (name b)) <= MAX_WORD_LEN) ->
  knows_builtin ctx b ->
  parse_number strtod (name b) = None ->
  strchr rest c = None ->
  found_word strtod ctx rest (name b) =
  Err (match defining_word ctx with
       | Some _ => E_comment_not_closed
       | None => E_redefine_word
       end).
Proof.
  intros Hb Hcb Hlen (p & Hp & Hh) Hn Hs. unfold found_word.
  replace (MAX_WORD_LEN <? Z.of_nat (String.length (name b))) with false
    by (symmetry; apply Z.ltb_ge; assumption).
  rewrite Hn, Hp. destruct (defining_word ctx); [|reflexivity].
  rewrite Hh. rewrite Hb. simpl. rewrite Hcb.
  unfold skip_through. rewrite Hs. reflexivity.
Qed.

(** X21: whenever the loop of [forth_parse_string] gets to the comment
    word [\] with no newline in the bytes behind it, or to the comment
    word [(] with no [)] behind it, [forth_parse_string] fails: with the
    report that the comment is not closed or, when the word comes right
    behind a [:], with the report that a builtin cannot be redefined. *)
Theorem open_comment_fails strtod ctx src ctx' pre rest :
  knows_builtin ctx backslash_word -> knows_builtin ctx paren_word ->
  parse_number strtod "\" = None -> parse_number strtod "(" = None ->
  blank pre = true -> starts_blank rest = true ->
  (reaches strtod ctx src ctx' (pre ++ "\" ++ rest) ->
   strchr rest newline = None ->
   forth_parse_string strtod ctx src =
   Err (match defining_word ctx' with
        | Some _ => E_comment_not_closed
        | None => E_redefine_word
        end)) /\
  (reaches strtod ctx src ctx' (pre ++ "(" ++ rest) ->
   strchr rest ")" = None ->
   forth_parse_string strtod ctx src =
   Err (match defining_word ctx' with
        | Some _ => E_comment_not_closed
        | None => E_redefine_word
        end)).
Proof.
  intros Kb Kp Nb Np Hp Hr.
  assert (K0 : keeps_builtins ctx (set_j_stack ctx []))
    by apply set_j_stack_keeps.
  split; intros Ht Hs.
  - eapply forth_parse_string_at; try eassumption; [reflexivity|].
    apply (@found_word_open_comment strtod ctx' rest
             backslash_word C_backslash newline);
      try assumption; try reflexivity.
    + unfold MAX_WORD_LEN. simpl. lia.
    + eapply turns_keeps_builtins; [exact Ht|]. now apply K0.
  - eapply forth_parse_string_at; try eassumption; [reflexivity|].
    apply (@found_word_open_comment strtod ctx' rest
             paren_word C_paren ")"%char);
      try assumption; try reflexivity.
    + unfold MAX_WORD_LEN. simpl. lia.
    + eapply turns_keeps_builtins; [exact Ht|]. now apply K0.
Qed.

Lemma forth_new_knows_comment_words :
  knows_builtin forth_new backslash_word /\ knows_builtin forth_new paren_word.
Proof. split; eexists; split; vm_compute; reflexivity. Qed.

Lemma open_comment_fails_witness :
  forth_parse_string strtod_decimal forth_new ": sq dup * ; 3 sq \ squared"
    = Err E_comment_not_closed /\
  forth_parse_string strtod_decimal forth_new "( 1 2 +"
    = Err E_comment_not_closed.
Proof.
  destruct forth_new_knows_comment_words as [Kb Kp].
  split.
  - eapply eq_trans.
    + eapply (proj1 (@open_comment_fails strtod_decimal forth_new _ _
                       EmptyString " squared" Kb Kp eq_refl eq_refl
                       eq_refl eq_refl)); [|reflexivity].
      unfold reaches. do 7 turn. apply turns_here.
    + vm_compute. reflexivity.
  - eapply eq_trans.
    + eapply (proj2 (@open_comment_fails strtod_decimal forth_new _ _
                       EmptyString " 1 2 +" Kb Kp eq_refl eq_refl
                       eq_refl eq_refl)); [|reflexivity].
      unfold reaches. apply turns_here.
    + vm_compute. reflexivity.
Defined.

(** C10: a comment word right behind a closed comment is not read.  With
    no newline behind it, [\] alone makes [forth_parse_string] fail, and
    so does [(] with no [)] behind it.  Right behind the newline of a
    closed [\] comment, or the [)] of a closed [(] comment, the same
    word is the byte the loop steps over: the source is accepted and
    the bytes behind the word are compiled. *)
Theorem comment_word_behind_comment :
  strchr " drop" newline = None /\ strchr " drop" ")" = None /\
  compile "1 \ drop" = Err E_comment_not_closed /\
  compile "1 ( drop" = Err E_comment_not_closed /\
  (exists ctx,
     compile ("1 \ c" ++ String newline "\ drop") = Ok ctx /\
     main_code ctx = Ok [Callback op_number; Number 1%float;
                         Callback (cb_builtin B_drop); Callback op_halt]) /\
  (exists ctx,
     compile "1 ( c )( drop" = Ok ctx /\
     main_code ctx = Ok [Callback op_number; Number 1%float;
                         Callback (cb_builtin B_drop); Callback op_halt]).
Proof.
  split; [reflexivity|]. split; [reflexivity|].
  split; [vm_compute; reflexivity|]. split; [vm_compute; reflexivity|].
  split; eexists; split; vm_compute; reflexivity.
Qed.

(** * Further properties *)

(** ** The builtins and their declared stack effects *)

Lemma memory_slot_state v m k m' : memory_slot v m = Ok (k, m') -> m' = m.
Proof.
  unfold memory_slot, mbind, get_vars, mlift, mfail, mret.
  destruct (double_to_uint32 v); [|discriminate].
  destruct (Z.of_nat (List.length (vars_memory (vars m))) =? 0);
    [discriminate|].
  intros H. inversion H. reflexivity.
Qed.

Ltac unfold_bodies :=
  unfold builtin_body, mbind, mret, mfail, mlift, PUSH_D, PUSH_R, POP_D,
    POP_R, DROP_D, UPDATE_TOP, get_vars, set_memory, drand48,
    mbind, mret, POP_D, PUSH_D;
  cbn [d_stack r_stack vars draws List.length].

Ltac effects H :=
  unfold builtin_body, mbind, mret, mfail, mlift, PUSH_D, PUSH_R, POP_D,
    POP_R, DROP_D, UPDATE_TOP, get_vars, set_memory, drand48,
    mbind, mret, POP_D, PUSH_D in H;
  cbn [d_stack r_stack vars draws] in H;
  try discriminate H;
  repeat (match type of H with
          | context [if ?c then _ else _] => destruct c eqn:?
          end; cbn [d_stack r_stack vars draws] in H; try discriminate H);
  inversion H; subst; cbn [d_stack r_stack List.length]; lia.

Lemma builtin_body_effects lm b desc m m' :
  find_builtin_by_callback (Callback (cb_builtin b)) = Some desc ->
  builtin_body lm b m = Ok (tt, m') ->
  Z.of_nat (List.length (d_stack m')) =
    Z.of_nat (List.length (d_stack m)) - d_pops desc + d_pushes desc /\
  Z.of_nat (List.length (r_stack m')) =
    Z.of_nat (List.length (r_stack m)) - r_pops desc + r_pushes desc /\
  d_pops desc <= Z.of_nat (List.length (d_stack m)) /\
  r_pops desc <= Z.of_nat (List.length (r_stack m)).
Proof.
  intros Hf H. destruct m as [d r vs n].
  destruct b; vm_compute in Hf; inversion Hf; subst desc; clear Hf;
    cbn [d_pops d_pushes r_pops r_pushes d_stack r_stack];
    destruct d as [|v1 [|v2 [|v3 [|v4 d]]]]; destruct r as [|w1 r];
    try (effects H).
  all: unfold builtin_body, mbind, POP_D in H;
    cbn [d_stack r_stack vars draws] in H; try discriminate H.
  all: repeat match type of H with
       | context [memory_slot ?v ?m] =>
           let E := fresh "E" in
           destruct (memory_slot v m) as [[k ms]|] eqn:E; [|discriminate H];
           apply memory_slot_state in E; subst ms
       end.
  all: effects H.
Qed.

(** X1: when the body of a builtin returns, it has taken at least the
    declared pops from each stack and has changed the depth of each
    stack by exactly the declared pushes minus the declared pops. *)
Theorem builtin_effects lm b desc m m' :
  find_builtin_by_callback (Callback (cb_builtin b)) = Some desc ->
  builtin_body lm b m = Ok (tt, m') ->
  Z.of_nat (List.length (d_stack m')) =
    Z.of_nat (List.length (d_stack m)) - d_pops desc + d_pushes desc /\
  Z.of_nat (List.length (r_stack m')) =
    Z.of_nat (List.length (r_stack m)) - r_pops desc + r_pushes desc /\
  d_pops desc <= Z.of_nat (List.length (d_stack m)) /\
  r_pops desc <= Z.of_nat (List.length (r_stack m)).
Proof. intros Hf H. exact (@builtin_body_effects lm b desc m m' Hf H). Qed.

Lemma builtin_effects_witness :
  exists m',
    builtin_body no_libm B_2dup
      {| d_stack := [1%float; 2%float]; r_stack := [];
         vars := vars_with_x 0 0 0 0 []; draws := O |} = Ok (tt, m') /\
    Z.of_nat (List.length (d_stack m')) = Z.of_nat 2 - 2 + 4.
Proof.
  eexists. split; [reflexivity|].
  refine (proj1 (@builtin_effects no_libm B_2dup (BUILTIN "2dup" B_2dup 4 2)
                   {| d_stack := [1%float; 2%float]; r_stack := [];
                      vars := vars_with_x 0 0 0 0 []; draws := O |} _ _ _));
    reflexivity.
Defined.

Ltac room :=
  repeat match goal with
  | |- context [Z.of_nat ?n <? stack_capacity] =>
      replace (Z.of_nat n <? stack_capacity) with true
        by (symmetry; apply Z.ltb_lt; unfold stack_capacity in *;
            cbn [List.length] in *; lia)
  end.

Lemma builtin_body_returns lm b desc m :
  find_builtin_by_callback (Callback (cb_builtin b)) = Some desc ->
  b <> B_fetch -> b <> B_store ->
  d_pops desc <= Z.of_nat (List.length (d_stack m)) ->
  r_pops desc <= Z.of_nat (List.length (r_stack m)) ->
  Z.of_nat (List.length (d_stack m)) - d_pops desc + d_pushes desc
    <= stack_capacity ->
  Z.of_nat (List.length (r_stack m)) - r_pops desc + r_pushes desc
    <= stack_capacity ->
  exists m', builtin_body lm b m = Ok (tt, m').
Proof.
  intros Hf Hnf Hns Hd Hr Hd' Hr'. destruct m as [d r vs n].
  destruct b; try congruence;
    vm_compute in Hf; inversion Hf; subst desc; clear Hf;
    cbn [d_pops d_pushes r_pops r_pushes d_stack r_stack] in *;
    destruct d as [|v1 [|v2 [|v3 [|v4 d]]]]; destruct r as [|w1 r];
    cbn [List.length] in *; try lia;
    unfold_bodies;
    try (match goal with
         | |- context [if (?c =? ?z)%float then _ else _] =>
             destruct (c =? z)%float
         end; cbn [d_stack r_stack vars draws List.length]);
    repeat (cbn [d_stack r_stack vars draws List.length]; progress room);
    cbn [d_stack r_stack vars draws List.length]; eexists; reflexivity.
Qed.

(** X2: the body of every builtin other than [@] and [!] returns
    whenever each stack holds the declared pops and has room for the
    declared pushes once they are taken. *)
Theorem builtin_runs lm b desc m :
  find_builtin_by_callback (Callback (cb_builtin b)) = Some desc ->
  b <> B_fetch -> b <> B_store ->
  d_pops desc <= Z.of_nat (List.length (d_stack m)) ->
  r_pops desc <= Z.of_nat (List.length (r_stack m)) ->
  Z.of_nat (List.length (d_stack m)) - d_pops desc + d_pushes desc
    <= stack_capacity ->
  Z.of_nat (List.length (r_stack m)) - r_pops desc + r_pushes desc
    <= stack_capacity ->
  exists m', builtin_body lm b m = Ok (tt, m').
Proof.
  intros Hf Hnf Hns Hd Hr Hd' Hr'.
  exact (@builtin_body_returns lm b desc m Hf Hnf Hns Hd Hr Hd' Hr').
Qed.

Lemma builtin_runs_witness :
  exists m',
    builtin_body no_libm B_over
      {| d_stack := [1%float; 2%float]; r_stack := [];
         vars := vars_with_x 0 0 0 0 []; draws := O |} = Ok (tt, m').
Proof.
  apply (@builtin_runs no_libm B_over (BUILTIN "over" B_over 3 2));
    try reflexivity; try discriminate; vm_compute; discriminate.
Defined.

(** ** The fused words *)

Ltac split_room :=
  repeat (match goal with
          | |- context [Z.of_nat ?n <? stack_capacity] =>
              destruct (Z.ltb_spec (Z.of_nat n) stack_capacity)
          end; cbn [d_stack r_stack vars draws List.length]);
  try reflexivity;
  try (exfalso; unfold stack_capacity in *; cbn [List.length] in *; lia).

(** X3: on every machine the fused word for [-rot swap] does what [-rot]
    followed by [swap] does, and the fused word for [>= swap] what [>=]
    followed by [swap] does, failures included; where the D stack has
    room for one more number, the fused division by two does what the
    push of 2.0 followed by [/] does. *)
Theorem fused_words lm m :
  (builtin_body lm B_mrot ;;; builtin_body lm B_swap)%M m
    = builtin_body lm B_mrotswap m /\
  (builtin_body lm B_ge ;;; builtin_body lm B_swap)%M m
    = builtin_body lm B_geswap m /\
  (Z.of_nat (List.length (d_stack m)) < stack_capacity ->
   (PUSH_D 2 ;;; builtin_body lm B_div)%M m = builtin_body lm B_div2 m).
Proof.
  destruct m as [d r vs n]. split; [|split].
  - destruct d as [|v1 [|v2 [|v3 d]]]; unfold_bodies; split_room.
  - destruct d as [|v1 [|v2 [|v3 d]]]; unfold_bodies; split_room.
  - cbn [d_stack]. intros H.
    destruct d as [|v1 d]; unfold_bodies; split_room.
    change (2 =? 0)%float with false. cbv iota.
    cbn [d_stack r_stack vars draws List.length]. split_room.
Qed.

Lemma fused_words_witness :
  (PUSH_D 2 ;;; builtin_body no_libm B_div)%M
    {| d_stack := [7%float]; r_stack := [];
       vars := vars_with_x 0 0 0 0 []; draws := O |}
  = builtin_body no_libm B_div2
      {| d_stack := [7%float]; r_stack := [];
         vars := vars_with_x 0 0 0 0 []; draws := O |}.
Proof.
  apply (proj2 (proj2 (fused_words no_libm
           {| d_stack := [7%float]; r_stack := [];
              vars := vars_with_x 0 0 0 0 []; draws := O |}))).
  vm_compute. reflexivity.
Defined.

(** ** The tail of a block *)

Lemma forth_code_len_app a b :
  forth_code_len (a ++ b) = forth_code_len a + forth_code_len b.
Proof. unfold forth_code_len. rewrite length_app. lia. Qed.

Lemma get_elem_app pre l k s :
  nth_error l k = Some s ->
  forth_code_get_elem (pre ++ l) (forth_code_len pre + Z.of_nat k) = Ok s.
Proof.
  intros H. unfold forth_code_get_elem.
  assert (Hk : (k < List.length l)%nat) by (apply nth_error_Some; congruence).
  rewrite forth_code_len_app. unfold forth_code_len.
  replace (Z.of_nat (List.length pre) + Z.of_nat k <? 0) with false
    by (symmetry; apply Z.ltb_ge; lia).
  replace (Z.of_nat (List.length pre) + Z.of_nat (List.length l) <=?
           Z.of_nat (List.length pre) + Z.of_nat k) with false
    by (symmetry; apply Z.leb_gt; lia).
  cbn [orb].
  replace (Z.to_nat (Z.of_nat (List.length pre) + Z.of_nat k))
    with (List.length pre + k)%nat by lia.
  rewrite nth_error_app2 by lia.
  replace (List.length pre + k - List.length pre)%nat with k by lia.
  now rewrite H.
Qed.

Lemma set_nth_app : forall pre l k s,
  set_nth (pre ++ l) (List.length pre + k) s = pre ++ set_nth l k s.
Proof.
  induction pre as [|a pre IH]; intros l k s; simpl; [reflexivity|].
  now rewrite IH.
Qed.

Lemma set_elem_app pre l k s :
  (k < List.length l)%nat ->
  forth_code_set_elem (pre ++ l) (forth_code_len pre + Z.of_nat k) s
  = Ok (pre ++ set_nth l k s).
Proof.
  intros Hk. unfold forth_code_set_elem.
  rewrite forth_code_len_app. unfold forth_code_len.
  replace (Z.of_nat (List.length pre) + Z.of_nat k <? 0) with false
    by (symmetry; apply Z.ltb_ge; lia).
  replace (Z.of_nat (List.length pre) + Z.of_nat (List.length l) <=?
           Z.of_nat (List.length pre) + Z.of_nat k) with false
    by (symmetry; apply Z.leb_gt; lia).
  cbn [orb].
  replace (Z.to_nat (Z.of_nat (List.length pre) + Z.of_nat k))
    with (List.length pre + k)%nat by lia.
  now rewrite set_nth_app.
Qed.

Lemma drop_last_app pre l k :
  (k <= List.length l)%nat ->
  drop_last k (pre ++ l) = pre ++ firstn (List.length l - k) l.
Proof.
  intros Hk. unfold drop_last. rewrite length_app.
  replace (List.length pre + List.length l - k)%nat
    with (List.length pre + (List.length l - k))%nat by lia.
  now rewrite firstn_app_2.
Qed.

(** Read the [k]-th slot of the tail behind [pre]. *)
Ltac tail_get pre k :=
  match goal with
  | |- context [forth_code_get_elem (pre ++ ?l) ?i] =>
      replace i with (forth_code_len pre + Z.of_nat k)
        by (rewrite ?forth_code_len_app; cbn; lia);
      rewrite (@get_elem_app pre l k _ eq_refl)
  end.

(** Store into the [k]-th slot of the tail behind [pre]. *)
Ltac tail_set pre k :=
  match goal with
  | |- context [forth_code_set_elem (pre ++ ?l) ?i ?s] =>
      replace i with (forth_code_len pre + Z.of_nat k)
        by (rewrite ?forth_code_len_app; cbn; lia);
      rewrite (@set_elem_app pre l k s) by (cbn; lia)
  end.

Ltac long_enough :=
  match goal with
  | |- context [?n <? forth_code_len ?c] =>
      replace (n <? forth_code_len c) with true
        by (symmetry; apply Z.ltb_lt; rewrite ?forth_code_len_app;
            unfold forth_code_len; cbn; lia)
  | |- context [?n <=? forth_code_len ?c] =>
      replace (n <=? forth_code_len c) with true
        by (symmetry; apply Z.leb_le; rewrite ?forth_code_len_app;
            unfold forth_code_len; cbn; lia)
  end.

(** X4: behind at least one other slot, the optimiser replaces [dup]
    [dup] by the fused word; but where [dup] run twice leaves three
    copies of the top of D, the fused word leaves four. *)
Theorem dupdup_is_not_dup_dup lm ctx pre s m v d :
  builtin_callback ctx " dupdup" = Ok (cb_builtin B_dupdup) ->
  d_stack m = v :: d ->
  Z.of_nat (List.length d) + 4 <= stack_capacity ->
  peephole_try ctx (pre ++ [s; Callback (cb_builtin B_dup)])
    (Callback (cb_builtin B_dup))
  = Ok (Some (pre ++ [s; Callback (cb_builtin B_dupdup)])) /\
  (builtin_body lm B_dup ;;; builtin_body lm B_dup)%M m =
    Ok (tt, {| d_stack := v :: v :: v :: d; r_stack := r_stack m;
               vars := vars m; draws := draws m |}) /\
  builtin_body lm B_dupdup m =
    Ok (tt, {| d_stack := v :: v :: v :: v :: d; r_stack := r_stack m;
               vars := vars m; draws := draws m |}).
Proof.
  intros Hk Hd Hroom. split.
  - unfold peephole_try.
    change (find_builtin_by_callback (Callback (cb_builtin B_dup)))
      with (Some (BUILTIN "dup" B_dup 2 1)).
    long_enough. unfold peephole_1. tail_get pre 1%nat. cbn [bind].
    change (name (BUILTIN "dup" B_dup 2 1)) with "dup".
    change (streq "dup" "+") with false. change (streq "dup" "*") with false.
    change (streq "dup" "dup") with true. cbv iota.
    change (is_callback (Callback (cb_builtin B_dup))
              (routine (BUILTIN "dup" B_dup 2 1))) with true. cbv iota.
    unfold rewrite_callback. rewrite Hk. cbn [bind].
    tail_set pre 1%nat. reflexivity.
  - destruct m as [d0 r vs n]. cbn [d_stack r_stack vars draws] in *.
    subst d0. split; unfold_bodies; split_room.
Qed.

Lemma dupdup_is_not_dup_dup_witness :
  builtin_body no_libm B_dupdup
    {| d_stack := [5%float]; r_stack := [];
       vars := vars_with_x 0 0 0 0 []; draws := O |}
  = Ok (tt, {| d_stack := [5%float; 5%float; 5%float; 5%float]; r_stack := [];
               vars := vars_with_x 0 0 0 0 []; draws := O |}).
Proof.
  refine (proj2 (proj2 (@dupdup_is_not_dup_dup no_libm forth_new []
            (Callback op_nop)
            {| d_stack := [5%float]; r_stack := [];
               vars := vars_with_x 0 0 0 0 []; draws := O |}
            5%float [] _ _ _)));
    try reflexivity. vm_compute. discriminate.
Defined.

(** X5: when the optimiser meets [+], [-] or [*] behind the pushes of
    two numbers [a] and [b], it folds the three into one push: of
    [a + b], of [a - b], and, unless [b] is 2.0, of [a * b]. *)
Theorem constants_fold ctx pre a b :
  let tail := [Callback op_number; Number a; Callback op_number; Number b] in
  (forall w, builtin_callback ctx "*" = Ok w ->
     peephole_try ctx (pre ++ tail) (Callback (cb_builtin B_plus))
     = Ok (Some (pre ++ [Callback op_number; Number (a + b)%float]))) /\
  peephole_try ctx (pre ++ tail) (Callback (cb_builtin B_minus))
    = Ok (Some (pre ++ [Callback op_number; Number (a - b)%float])) /\
  ((b =? 2)%float = false ->
   peephole_try ctx (pre ++ tail) (Callback (cb_builtin B_mult))
   = Ok (Some (pre ++ [Callback op_number; Number (a * b)%float]))).
Proof.
  intros tail.
  assert (Hfold : forall f,
    fold_constants (pre ++ tail) f
    = Ok (Some (pre ++ [Callback op_number; Number (f a b)]))).
  { intros f. unfold fold_constants. long_enough. subst tail.
    tail_get pre 2%nat. cbn [bind is_callback].
    change (callback_eqb op_number op_number) with true. cbv iota.
    tail_get pre 0%nat. cbn [bind is_callback].
    change (callback_eqb op_number op_number) with true. cbv iota.
    tail_get pre 3%nat. cbn [bind].
    tail_get pre 1%nat. cbn [bind inst_number].
    tail_set pre 1%nat.
    cbn [bind set_nth]. rewrite drop_last_app by (cbn; lia). reflexivity. }
  split; [|split].
  - intros w Hw. unfold peephole_try.
    change (find_builtin_by_callback (Callback (cb_builtin B_plus)))
      with (Some (BUILTIN "+" B_plus 1 2)).
    long_enough. long_enough.
    unfold peephole_1. subst tail. tail_get pre 3%nat. cbn [bind].
    change (name (BUILTIN "+" B_plus 1 2)) with "+".
    change (streq "+" "+") with true. cbv iota. rewrite Hw. cbn [bind is_callback].
    unfold peephole_n. change (name (BUILTIN "+" B_plus 1 2)) with "+".
    change (streq "+" "/") with false. change (streq "+" "+") with true.
    cbv iota. apply Hfold.
  - unfold peephole_try.
    change (find_builtin_by_callback (Callback (cb_builtin B_minus)))
      with (Some (BUILTIN "-" B_minus 1 2)).
    long_enough. long_enough.
    unfold peephole_1. subst tail. tail_get pre 3%nat. cbn [bind].
    change (name (BUILTIN "-" B_minus 1 2)) with "-".
    change (streq "-" "+") with false. change (streq "-" "*") with false.
    change (streq "-" "dup") with false. change (streq "-" "swap") with false.
    change (streq "-" " div2") with false. cbv iota.
    unfold peephole_n. change (name (BUILTIN "-" B_minus 1 2)) with "-".
    change (streq "-" "/") with false. change (streq "-" "+") with false.
    change (streq "-" "-") with true. cbv iota. apply Hfold.
  - intros Hb. unfold peephole_try.
    change (find_builtin_by_callback (Callback (cb_builtin B_mult)))
      with (Some (BUILTIN "*" B_mult 1 2)).
    long_enough. long_enough.
    unfold peephole_1. subst tail. tail_get pre 3%nat. cbn [bind].
    change (name (BUILTIN "*" B_mult 1 2)) with "*".
    change (streq "*" "+") with false. change (streq "*" "*") with true.
    cbv iota. change (find_builtin_by_callback (Number b)) with (@None forth_builtin).
    cbv iota.
    unfold peephole_n. change (name (BUILTIN "*" B_mult 1 2)) with "*".
    change (streq "*" "/") with false. change (streq "*" "+") with false.
    change (streq "*" "-") with false. change (streq "*" "*") with true.
    cbv iota.
    assert (Htwo : tail_is_push_of_two
                     (pre ++ [Callback op_number; Number a;
                              Callback op_number; Number b]) = Ok false).
    { unfold tail_is_push_of_two.
      tail_get pre 2%nat. cbn [bind is_callback].
      change (callback_eqb op_number op_number) with true. cbv iota.
      tail_get pre 3%nat. cbn [bind inst_number]. now rewrite Hb. }
    rewrite Htwo. cbn [bind]. apply Hfold.
Qed.

Lemma constants_fold_witness :
  peephole_try forth_new
    [Callback op_number; Number 3; Callback op_number; Number 4]
    (Callback (cb_builtin B_plus))
  = Ok (Some [Callback op_number; Number 7]) /\
  peephole_try forth_new
    [Callback op_number; Number 3; Callback op_number; Number 4]
    (Callback (cb_builtin B_mult))
  = Ok (Some [Callback op_number; Number 12]).
Proof.
  split.
  - apply (proj1 (@constants_fold forth_new [] 3%float 4%float)
             (cb_builtin B_mult)).
    vm_compute. reflexivity.
  - apply (proj2 (proj2 (@constants_fold forth_new [] 3%float 4%float))).
    reflexivity.
Defined.

(** ** The checker *)

Lemma find_builtin_nonnegative s b :
  find_builtin_by_callback s = Some b -> nonnegative_effects b = true.
Proof.
  unfold find_builtin_by_callback. intros H.
  assert (Hall : forallb nonnegative_effects
                   (forth_builtin_section ++ forth_compiler_builtin_section)
                 = true) by reflexivity.
  rewrite forallb_forall in Hall. apply Hall. apply in_or_app.
  destruct (find _ forth_builtin_section) as [b'|] eqn:E.
  - inversion H; subst. left. eapply find_some; eassumption.
  - right. eapply find_some; eassumption.
Qed.

Lemma check_loop_never_negative : forall n code d r,
  (List.length code <= n)%nat -> 0 <= d -> 0 <= r ->
  (forall x, check_loop code d r <> Err (E_underflow x)) /\
  (forall d' r', check_loop code d r = Ok (d', r') -> 0 <= d' /\ 0 <= r').
Proof.
  induction n as [|n IH]; intros code d r Hlen Hd Hr.
  - destruct code; [|simpl in Hlen; lia]. simpl. split; [discriminate|].
    intros d' r' H. inversion H; subst. auto.
  - destruct code as [|inst rest].
    { simpl. split; [discriminate|]. intros d' r' H. inversion H; subst. auto. }
    simpl in Hlen. cbn [check_loop].
    destruct (is_callback inst op_number).
    { destruct rest as [|imm rest'].
      - split; [discriminate|]. intros d' r' H. inversion H; subst. lia.
      - simpl in Hlen. apply IH; lia. }
    destruct (is_callback inst op_jump_if).
    { destruct (d =? 0) eqn:E0; [split; discriminate|].
      apply Z.eqb_neq in E0.
      destruct rest as [|imm rest'].
      - split; [discriminate|]. intros d' r' H. inversion H; subst. lia.
      - simpl in Hlen. apply IH; lia. }
    destruct (is_callback inst op_jump).
    { destruct rest as [|imm rest'].
      - split; [discriminate|]. intros d' r' H. inversion H; subst. lia.
      - simpl in Hlen. apply IH; lia. }
    destruct (is_callback inst op_halt); [apply IH; lia|].
    destruct (is_callback inst op_nop); [apply IH; lia|].
    destruct (is_callback inst op_eval_code); [split; discriminate|].
    destruct (find_builtin_by_callback inst) as [b|] eqn:Ef;
      [|split; discriminate].
    apply find_builtin_nonnegative in Ef. unfold nonnegative_effects in Ef.
    repeat (apply andb_prop in Ef; destruct Ef as [Ef ?]).
    destruct (d <? d_pops b) eqn:E1; [split; discriminate|].
    destruct (r <? r_pops b) eqn:E2; [split; discriminate|].
    destruct (stack_capacity <=? d - d_pops b + d_pushes b);
      [split; discriminate|].
    destruct (stack_capacity <=? r - r_pops b + r_pushes b);
      [split; discriminate|].
    apply IH; lia.
Qed.

(** X6: the checker never reports an underflow: its counts never fall
    below zero, so the two tests behind its loop cannot fire. *)
Theorem checker_never_reports_underflow code x :
  check_stack_effects code <> Err (E_underflow x).
Proof.
  unfold check_stack_effects.
  destruct (@check_loop_never_negative (List.length code) code 0 0)
    as [Hn Hp]; try lia.
  destruct (check_loop code 0 0) as [[d r]|e] eqn:E; cbn [bind].
  - destruct (Hp d r eq_refl) as [Hd Hr].
    destruct (stack_capacity <=? d); [discriminate|].
    destruct (stack_capacity <=? r); [discriminate|].
    replace (d <? 0) with false by (symmetry; apply Z.ltb_ge; lia).
    replace (r <? 0) with false by (symmetry; apply Z.ltb_ge; lia).
    discriminate.
  - intros H. inversion H; subst. exact (Hn x eq_refl).
Qed.

Lemma builtin_descriptor b :
  exists desc, find_builtin_by_callback (Callback (cb_builtin b)) = Some desc.
Proof. destruct b; eexists; vm_compute; reflexivity. Qed.

Lemma get_elem_middle pre s rest :
  forth_code_get_elem (pre ++ s :: rest) (forth_code_len pre) = Ok s.
Proof.
  replace (forth_code_len pre) with (forth_code_len pre + Z.of_nat 0) by lia.
  now apply get_elem_app.
Qed.

Lemma straight_line_runs lm : forall bs pre m d' r',
  Forall (fun b => b <> B_fetch /\ b <> B_store) bs ->
  Z.of_nat (List.length (d_stack m)) <= stack_capacity ->
  Z.of_nat (List.length (r_stack m)) <= stack_capacity ->
  check_loop (straight_line bs)
    (Z.of_nat (List.length (d_stack m))) (Z.of_nat (List.length (r_stack m)))
    = Ok (d', r') ->
  exists m',
    run_from lm (S (List.length bs)) (pre ++ straight_line bs)
      (forth_code_len pre) m = Ok m' /\
    Z.of_nat (List.length (d_stack m')) = d' /\
    Z.of_nat (List.length (r_stack m')) = r'.
Proof.
  induction bs as [|b bs IH]; intros pre m d' r' Hall Hd Hr Hc.
  - cbn in Hc. inversion Hc; subst. exists m.
    cbn [List.length run_from]. unfold dispatch, mbind, mlift.
    unfold straight_line, calls. cbn [map app].
    rewrite get_elem_middle. cbn. auto.
  - inversion Hall as [|? ? [Hnf Hns] Hall']; subst.
    unfold straight_line, calls in Hc. cbn [map app check_loop] in Hc.
    cbn [is_callback] in Hc.
    change (callback_eqb (cb_builtin b) op_number) with false in Hc.
    change (callback_eqb (cb_builtin b) op_jump_if) with false in Hc.
    change (callback_eqb (cb_builtin b) op_jump) with false in Hc.
    change (callback_eqb (cb_builtin b) op_halt) with false in Hc.
    change (callback_eqb (cb_builtin b) op_nop) with false in Hc.
    change (callback_eqb (cb_builtin b) op_eval_code) with false in Hc.
    cbv iota in Hc.
    destruct (builtin_descriptor b) as [desc Hdesc]. rewrite Hdesc in Hc.
    destruct (_ <? d_pops desc) eqn:E1; [discriminate|].
    destruct (_ <? r_pops desc) eqn:E2; [discriminate|].
    destruct (stack_capacity <=? _) eqn:E3; [discriminate|].
    destruct (stack_capacity <=? _) eqn:E4 in Hc; [discriminate|].
    apply Z.ltb_ge in E1, E2. apply Z.leb_gt in E3, E4.
    destruct (@builtin_body_returns lm b desc m Hdesc Hnf Hns) as [m1 Hm1]; try lia.
    destruct (@builtin_body_effects lm b desc m m1 Hdesc Hm1) as (Ld & Lr & _ & _).
    rewrite <- Ld, <- Lr in Hc.
    destruct (IH (pre ++ [Callback (cb_builtin b)]) m1 d' r' Hall')
      as (m' & Hrun & Hd' & Hr'); try lia; [exact Hc|].
    exists m'. split; [|auto].
    cbn [List.length]. cbn [run_from].
    unfold dispatch at 1. unfold mbind at 1. unfold mlift at 1.
    unfold straight_line, calls. cbn [map app].
    rewrite get_elem_middle. unfold mbind, mret. rewrite Hm1.
    rewrite <- Hrun. unfold straight_line, calls.
    rewrite <- app_assoc. cbn [app].
    rewrite forth_code_len_app. reflexivity.
Qed.

(** X7: on a block of calls of builtins other than [@] and [!] closed
    by [halt], the checker is sound: if its loop accepts the block from
    the depths of the two stacks of a machine, the block runs on that
    machine to [halt] without leaving either stack, and ends with the
    depths the loop computed. *)
Theorem checker_sound_on_calls lm bs m d' r' :
  Forall (fun b => b <> B_fetch /\ b <> B_store) bs ->
  Z.of_nat (List.length (d_stack m)) <= stack_capacity ->
  Z.of_nat (List.length (r_stack m)) <= stack_capacity ->
  check_loop (straight_line bs)
    (Z.of_nat (List.length (d_stack m))) (Z.of_nat (List.length (r_stack m)))
    = Ok (d', r') ->
  exists m',
    run_from lm (S (List.length bs)) (straight_line bs) 0 m = Ok m' /\
    Z.of_nat (List.length (d_stack m')) = d' /\
    Z.of_nat (List.length (r_stack m')) = r'.
Proof.
  intros Hall Hd Hr Hc.
  exact (@straight_line_runs lm bs [] m d' r' Hall Hd Hr Hc).
Qed.

Lemma checker_sound_on_calls_witness :
  exists m',
    run_from no_libm 4 (straight_line [B_x; B_dup; B_mult]) 0
      {| d_stack := []; r_stack := [];
         vars := vars_with_x 3 0 0 0 []; draws := O |} = Ok m' /\
    Z.of_nat (List.length (d_stack m')) = 1 /\
    Z.of_nat (List.length (r_stack m')) = 0.
Proof.
  apply (@checker_sound_on_calls no_libm [B_x; B_dup; B_mult]
           {| d_stack := []; r_stack := [];
              vars := vars_with_x 3 0 0 0 []; draws := O |} 1 0).
  - repeat constructor; discriminate.
  - vm_compute. discriminate.
  - vm_compute. discriminate.
  - reflexivity.
Defined.

(** ** The jump stack of the parser *)

Lemma set_word_code_fields ctx w code ctx' :
  set_word_code ctx w code = Ok ctx' ->
  j_stack ctx' = j_stack ctx /\ defining_word ctx' = defining_word ctx /\
  main ctx' = main ctx /\ words ctx' = words ctx.
Proof.
  unfold set_word_code.
  destruct (nth_error (heap ctx) w) as [[b|n c]|]; try discriminate.
  intros H. inversion H; subst. simpl. auto.
Qed.

Lemma EMIT_fields ctx s ctx' i :
  EMIT ctx s = Ok (ctx', i) ->
  j_stack ctx' = j_stack ctx /\ defining_word ctx' = defining_word ctx /\
  main ctx' = main ctx /\ words ctx' = words ctx.
Proof.
  unfold EMIT. destruct (defining_word ctx) as [w|] eqn:E; [|discriminate].
  intros H. apply bind_Ok in H. destruct H as (code & _ & H).
  apply bind_Ok in H. destruct H as (c & Hs & H). inversion H; subst.
  apply set_word_code_fields in Hs. rewrite E in Hs. exact Hs.
Qed.

Lemma builtin_else_then_fits ctx is_then ctx' :
  builtin_else_then ctx is_then = Ok ctx' -> j_stack_fits ctx -> j_stack_fits ctx'.
Proof.
  unfold builtin_else_then, j_stack_fits.
  destruct (j_stack ctx) as [|prev j] eqn:Ej; [discriminate|].
  destruct (defining_word ctx) as [w|]; [|discriminate].
  intros H Hfit.
  apply bind_Ok in H. destruct H as (code0 & _ & H).
  apply bind_Ok in H. destruct H as (slot & _ & H).
  apply bind_Ok in H. destruct H as (ctx2 & H2 & H).
  apply bind_Ok in H. destruct H as (code & _ & H).
  apply bind_Ok in H. destruct H as (code1 & _ & H).
  apply set_word_code_fields in H. destruct H as (Hj & _). rewrite Hj.
  cbn [List.length] in Hfit.
  destruct is_then.
  - apply bind_Ok in H2. destruct H2 as ([c1 i1] & E1 & H2).
    inversion H2; subst. apply EMIT_fields in E1. destruct E1 as (Hj1 & _).
    rewrite Hj1. simpl. lia.
  - apply bind_Ok in H2. destruct H2 as ([c1 i1] & E1 & H2).
    destruct (j_stack_capacity <=? _); [discriminate|].
    apply bind_Ok in H2. destruct H2 as ([c2 i2] & E2 & H2).
    inversion H2; subst.
    apply EMIT_fields in E1, E2. destruct E1 as (Hj1 & _).
    destruct E2 as (Hj2 & _). simpl. rewrite Hj2, Hj1. simpl. lia.
Qed.

Lemma callback_compiler_fits c ctx code ctx' code' :
  callback_compiler c ctx code = Ok (ctx', code') ->
  j_stack_fits ctx -> j_stack_fits ctx'.
Proof.
  destruct c; unfold callback_compiler; intros H Hfit.
  - apply bind_Ok in H. destruct H as (r & _ & H). now inversion H; subst.
  - apply bind_Ok in H. destruct H as (r & _ & H). now inversion H; subst.
  - destruct (is_inside_word_def ctx); [discriminate|]. now inversion H; subst.
  - destruct (j_stack ctx) eqn:Ej; [|discriminate].
    destruct (negb (is_inside_word_def ctx)); [discriminate|].
    now inversion H; subst.
  - destruct (j_stack_capacity <=? _) eqn:Ec; [discriminate|].
    apply Z.leb_gt in Ec.
    apply bind_Ok in H. destruct H as ([c1 i1] & E1 & H).
    apply bind_Ok in H. destruct H as ([c2 i2] & E2 & H).
    inversion H; subst. apply EMIT_fields in E1, E2.
    destruct E1 as (Hj1 & _). destruct E2 as (Hj2 & _).
    unfold j_stack_fits. simpl. rewrite Hj2, Hj1. simpl List.length. lia.
  - apply bind_Ok in H. destruct H as (c1 & E1 & H). inversion H; subst.
    eapply builtin_else_then_fits; eassumption.
  - apply bind_Ok in H. destruct H as (c1 & E1 & H). inversion H; subst.
    eapply builtin_else_then_fits; eassumption.
Qed.

Lemma found_word_fits strtod ctx code word ctx' code' :
  found_word strtod ctx code word = Ok (ctx', code') ->
  j_stack_fits ctx -> j_stack_fits ctx'.
Proof.
  unfold found_word, j_stack_fits.
  destruct (MAX_WORD_LEN <? _) eqn:Hle; [discriminate|].
  destruct (parse_number strtod word) as [number|].
  - destruct (defining_word ctx); [|discriminate]. intros H Hfit.
    apply bind_Ok in H. destruct H as ([c1 i1] & E1 & H).
    apply bind_Ok in H. destruct H as ([c2 i2] & E2 & H).
    inversion H; subst. apply EMIT_fields in E1, E2.
    destruct E1 as (Hj1 & _). destruct E2 as (Hj2 & _). now rewrite Hj2, Hj1.
  - destruct (defining_word ctx) as [w|].
    + destruct (hash_find (words ctx) word) as [p|]; [|discriminate].
      destruct (nth_error (heap ctx) p) as [[b|n c]|]; [| |discriminate].
      * destruct (routine b); try apply callback_compiler_fits;
          intros H Hfit; apply bind_Ok in H; destruct H as ([c1 i1] & E1 & H);
          inversion H; subst; apply EMIT_fields in E1;
          destruct E1 as (Hj1 & _); now rewrite Hj1.
      * intros H Hfit.
        apply bind_Ok in H. destruct H as ([c1 i1] & E1 & H).
        apply bind_Ok in H. destruct H as ([c2 i2] & E2 & H).
        inversion H; subst. apply EMIT_fields in E1, E2.
        destruct E1 as (Hj1 & _). destruct E2 as (Hj2 & _).
        now rewrite Hj2, Hj1.
    + destruct (hash_find (words ctx) word); [discriminate|].
      unfold new_word, new_user_word. rewrite Hle.
      intros H Hfit. inversion H; subst. exact Hfit.
Qed.

(** X8: wherever the loop of [forth_parse_string] gets, the jump stack
    of the state holds at most 63 entries: no [if] or [else] stores
    behind the end of [ctx->j_stack]. *)
Theorem jump_stack_fits strtod ctx src ctx' code' :
  reaches strtod ctx src ctx' code' ->
  Z.of_nat (List.length (j_stack ctx')) <= j_stack_capacity.
Proof.
  unfold reaches. intros H.
  assert (H0 : j_stack_fits (set_j_stack ctx []))
    by (unfold j_stack_fits, j_stack_capacity; simpl; lia).
  revert H0. generalize (set_j_stack ctx []) (c_str src) H. clear.
  intros c0 s H.
  induction H as [|ctx code c word rest ctx1 c1 code1 ctx' code' Hs Hf Ht IH];
    intros H0; [exact H0|].
  apply IH. eapply found_word_fits; eassumption.
Qed.

Lemma jump_stack_fits_witness :
  exists ctx' code',
    reaches strtod_decimal forth_new "1 if 2 if 3" ctx' code' /\
    Z.of_nat (List.length (j_stack ctx')) <= j_stack_capacity.
Proof.
  eexists. eexists.
  assert (H : reaches strtod_decimal forth_new "1 if 2 if 3" _ _)
    by (unfold reaches; do 4 turn; apply turns_here).
  split; [exact H|]. exact (jump_stack_fits H).
Defined.

(** ** Round trips of the stack words *)

(** X9: the stack words undo each other.  On every machine [over over]
    does what [2dup] does, failures included.  Where the stacks hold
    the numbers the words take (and, for [dup] and the words that move
    a number to the R stack, have room for one more), [swap swap],
    [rot -rot], [-rot rot], [rot rot rot], [dup drop], [>r r>] and
    [push pop] leave the machine exactly as they found it. *)
Theorem stack_round_trips lm m :
  (builtin_body lm B_over ;;; builtin_body lm B_over)%M m
     = builtin_body lm B_2dup m /\
  (2 <= Z.of_nat (List.length (d_stack m)) <= stack_capacity ->
   same_machine (builtin_body lm B_swap ;;; builtin_body lm B_swap)%M m) /\
  (3 <= Z.of_nat (List.length (d_stack m)) <= stack_capacity ->
   same_machine (builtin_body lm B_rot ;;; builtin_body lm B_mrot)%M m /\
   same_machine (builtin_body lm B_mrot ;;; builtin_body lm B_rot)%M m /\
   same_machine (builtin_body lm B_rot ;;; builtin_body lm B_rot ;;;
                 builtin_body lm B_rot)%M m) /\
  (1 <= Z.of_nat (List.length (d_stack m)) < stack_capacity ->
   same_machine (builtin_body lm B_dup ;;; builtin_body lm B_drop)%M m) /\
  (1 <= Z.of_nat (List.length (d_stack m)) <= stack_capacity ->
   Z.of_nat (List.length (r_stack m)) < stack_capacity ->
   same_machine (builtin_body lm B_to_r ;;; builtin_body lm B_r_from)%M m /\
   same_machine (builtin_body lm B_push ;;; builtin_body lm B_pop)%M m).
Proof.
  destruct m as [d r vs n]. unfold same_machine. cbn [d_stack r_stack].
  repeat split; intros;
    destruct d as [|v1 [|v2 [|v3 d]]]; cbn [List.length] in *; try lia;
    unfold_bodies; split_room.
Qed.

Lemma stack_round_trips_witness :
  same_machine (builtin_body no_libm B_swap ;;; builtin_body no_libm B_swap)%M
    {| d_stack := [1%float; 2%float; 3%float]; r_stack := [];
       vars := vars_with_x 0 0 0 0 []; draws := O |} /\
  same_machine (builtin_body no_libm B_rot ;;; builtin_body no_libm B_mrot)%M
    {| d_stack := [1%float; 2%float; 3%float]; r_stack := [];
       vars := vars_with_x 0 0 0 0 []; draws := O |} /\
  same_machine (builtin_body no_libm B_dup ;;; builtin_body no_libm B_drop)%M
    {| d_stack := [1%float; 2%float; 3%float]; r_stack := [];
       vars := vars_with_x 0 0 0 0 []; draws := O |} /\
  same_machine (builtin_body no_libm B_to_r ;;; builtin_body no_libm B_r_from)%M
    {| d_stack := [1%float; 2%float; 3%float]; r_stack := [];
       vars := vars_with_x 0 0 0 0 []; draws := O |}.
Proof.
  pose proof (stack_round_trips no_libm
    {| d_stack := [1%float; 2%float; 3%float]; r_stack := [];
       vars := vars_with_x 0 0 0 0 []; draws := O |})
    as (_ & H2 & H3 & H1 & HR).
  split; [|split; [|split]].
  - apply H2. vm_compute. split; discriminate.
  - apply H3. vm_compute. split; discriminate.
  - apply H1. vm_compute. split; [discriminate | reflexivity].
  - apply HR; vm_compute; [split; discriminate | reflexivity].
Defined.

(** ** The memory *)

Lemma replace_nth_length : forall l n v,
  List.length (replace_nth l n v) = List.length l.
Proof.
  induction l as [|a l IH]; intros [|n] v; simpl; auto.
Qed.

Lemma nth_replace_nth : forall l n v d,
  (n < List.length l)%nat -> nth n (replace_nth l n v) d = v.
Proof.
  induction l as [|a l IH]; intros [|n] v d H; simpl in *; try lia; auto.
  apply IH. lia.
Qed.

Lemma nth_replace_nth_other : forall l n k v d,
  n <> k -> nth k (replace_nth l n v) d = nth k l d.
Proof.
  induction l as [|a l IH]; intros [|n] [|k] v d H; simpl in *;
    try congruence; auto.
Qed.

(** X10: what [!] stores, [@] fetches.  When [i v !] returns on a D
    stack that lies inside the array, it leaves the stack without the
    two numbers, and [i @] then returns and pushes [v], the variables
    being as [!] left them. *)
Theorem store_then_fetch lm m i v d m1 :
  d_stack m = v :: i :: d ->
  Z.of_nat (List.length (d_stack m)) <= stack_capacity ->
  builtin_body lm B_store m = Ok (tt, m1) ->
  d_stack m1 = d /\
  exists m2,
    (PUSH_D i ;;; builtin_body lm B_fetch)%M m1 = Ok (tt, m2) /\
    d_stack m2 = v :: d /\ vars m2 = vars m1.
Proof.
  destruct m as [ds r vs n]. cbn [d_stack]. intros -> Hlen H.
  unfold builtin_body, mbind, POP_D in H. cbn [d_stack r_stack vars draws] in H.
  destruct (memory_slot i _) as [[k ms]|] eqn:E; [|discriminate H].
  pose proof (memory_slot_state _ _ E) as ->.
  unfold get_vars, set_memory in H. cbn [d_stack r_stack vars draws] in H.
  inversion H; subst m1; clear H. cbn [d_stack]. split; [reflexivity|].
  unfold memory_slot, mbind, get_vars, mlift, mfail, mret in E.
  cbn [vars] in E.
  destruct (double_to_uint32 i) as [slot|] eqn:Ei; [|discriminate E].
  destruct (Z.of_nat (List.length (vars_memory vs)) =? 0) eqn:E0;
    [discriminate E|].
  inversion E; subst k; clear E.
  apply Z.eqb_neq in E0.
  unfold builtin_body, mbind, PUSH_D, POP_D, memory_slot, mbind, get_vars,
    mlift, mfail, mret.
  cbn [d_stack r_stack vars draws vars_memory List.length].
  cbn [List.length] in Hlen.
  replace (Z.of_nat (List.length d) <? stack_capacity) with true
    by (symmetry; apply Z.ltb_lt; unfold stack_capacity in *; lia).
  cbn [d_stack r_stack vars draws vars_memory List.length].
  rewrite Ei. rewrite replace_nth_length.
  destruct (Z.of_nat (List.length (vars_memory vs)) =? 0) eqn:E0';
    [apply Z.eqb_eq in E0'; lia|].
  cbn [d_stack r_stack vars draws vars_memory List.length].
  replace (Z.of_nat (List.length d) <? stack_capacity) with true
    by (symmetry; apply Z.ltb_lt; unfold stack_capacity in *; lia).
  eexists. split; [reflexivity|]. cbn [d_stack vars]. split; [|reflexivity].
  f_equal. apply nth_replace_nth.
  pose proof (Z.mod_pos_bound slot (Z.of_nat (List.length (vars_memory vs)))).
  lia.
Qed.

Lemma store_then_fetch_witness :
  exists m1 m2,
    builtin_body no_libm B_store
      {| d_stack := [7%float; 5%float; 9%float]; r_stack := [];
         vars := vars_with_x 0 0 0 0 [0%float; 0%float; 0%float];
         draws := O |} = Ok (tt, m1) /\
    (PUSH_D 5 ;;; builtin_body no_libm B_fetch)%M m1 = Ok (tt, m2) /\
    d_stack m2 = [7%float; 9%float].
Proof.
  eexists.
  destruct (@store_then_fetch no_libm
    {| d_stack := [7%float; 5%float; 9%float]; r_stack := [];
       vars := vars_with_x 0 0 0 0 [0%float; 0%float; 0%float];
       draws := O |} 5%float 7%float [9%float] _ eq_refl
    ltac:(vm_compute; discriminate) ltac:(vm_compute; reflexivity))
    as (_ & m2 & Hf & Hd & _).
  exists m2. split; [reflexivity|]. split; [exact Hf | exact Hd].
Defined.

(** ** Straight-line blocks *)

Lemma get_elem_second pre s t rest :
  forth_code_get_elem (pre ++ s :: t :: rest) (forth_code_len pre + 1) = Ok t.
Proof.
  change 1 with (Z.of_nat 1). now apply get_elem_app.
Qed.

Lemma straight_code_runs lm : forall os pre m,
  run_from lm (S (List.length os))
    (pre ++ straight_code os ++ [Callback op_halt]) (forth_code_len pre) m
  = final_machine (straight_steps lm os m).
Proof.
  induction os as [|[b|v] os IH]; intros pre m.
  - cbn [List.length run_from straight_code flat_map app].
    unfold dispatch, mbind, mlift. rewrite get_elem_middle. reflexivity.
  - cbn [List.length run_from straight_code flat_map app straight_steps
         straight_step].
    unfold dispatch at 1. unfold mbind at 1. unfold mlift at 1.
    rewrite get_elem_middle. unfold mbind, mret.
    destruct (builtin_body lm b m) as [[[] m1]|e]; [|reflexivity].
    specialize (IH (pre ++ [Callback (cb_builtin b)]) m1).
    rewrite <- app_assoc in IH. cbn [app] in IH.
    rewrite forth_code_len_app in IH. exact IH.
  - cbn [List.length run_from straight_code flat_map app straight_steps
         straight_step].
    unfold dispatch at 1. unfold mbind at 1. unfold mlift at 1.
    rewrite get_elem_middle. unfold mbind at 1. unfold mlift at 1.
    rewrite get_elem_second. unfold mbind, mlift, mret. cbn [inst_number].
    destruct (PUSH_D v m) as [[[] m1]|e]; [|reflexivity].
    specialize (IH (pre ++ [Callback op_number; Number v]) m1).
    rewrite <- app_assoc in IH. cbn [app] in IH.
    rewrite forth_code_len_app in IH.
    replace (forth_code_len pre + 2)
      with (forth_code_len pre + forth_code_len [Callback op_number; Number v])
      by reflexivity.
    exact IH.
Qed.

(** X11: the interpreter runs a straight-line block in order.  On a
    block of calls of builtins and pushes of numbers closed by [halt],
    one tail call per instruction and one for [halt] is enough, and the
    run ends as the bodies and the pushes do when performed one after
    the other: with the same machine, or with the same failure. *)
Theorem straight_line_semantics lm os m :
  run_from lm (S (List.length os)) (straight_code os ++ [Callback op_halt]) 0 m
  = final_machine (straight_steps lm os m).
Proof. exact (@straight_code_runs lm os [] m). Qed.

(** ** Inlining *)

Lemma inline_loop_straight hp rec : forall os rest new_code j,
  inline_loop hp rec (straight_code os ++ rest) new_code j
  = inline_loop hp rec rest (new_code ++ straight_code os) j.
Proof.
  induction os as [|[b|v] os IH]; intros rest new_code j.
  - simpl. now rewrite app_nil_r.
  - cbn [straight_code flat_map app]. cbn [inline_loop].
    change (is_callback (Callback (cb_builtin b)) op_eval_code) with false.
    cbv iota. unfold patch_branches.
    change (is_callback (Callback (cb_builtin b)) op_jump_if) with false.
    change (is_callback (Callback (cb_builtin b)) op_jump) with false.
    change (is_callback (Callback (cb_builtin b)) op_nop) with false.
    change (is_callback (Callback (cb_builtin b)) op_number) with false.
    cbv iota. fold (straight_code os). rewrite IH.
    unfold forth_code_append. now rewrite <- app_assoc.
  - cbn [straight_code flat_map app]. cbn [inline_loop].
    change (is_callback (Callback op_number) op_eval_code) with false.
    cbv iota. unfold patch_branches.
    change (is_callback (Callback op_number) op_jump_if) with false.
    change (is_callback (Callback op_number) op_jump) with false.
    change (is_callback (Callback op_number) op_nop) with false.
    change (is_callback (Callback op_number) op_number) with true.
    cbv iota. fold (straight_code os). rewrite IH.
    unfold forth_code_append. now rewrite <- !app_assoc.
Qed.

Lemma inline_calls_code_straight hp n os new_code :
  inline_calls_code hp (S n) (straight_code os) new_code
  = Ok (new_code ++ straight_code os).
Proof.
  cbn [inline_calls_code].
  rewrite <- (app_nil_r (straight_code os)) at 1.
  rewrite inline_loop_straight. reflexivity.
Qed.

Lemma inline_calls_code_S hp n orig new_code :
  inline_calls_code hp (S n) orig new_code
  = inline_loop hp (inline_calls_code hp n) orig new_code [].
Proof. reflexivity. Qed.

Lemma inline_loop_call hp w os n rest new_code j :
  word_code hp w = Ok (straight_code os) ->
  inline_loop hp (inline_calls_code hp (S n))
    (call_user_word w ++ rest) new_code j
  = inline_loop hp (inline_calls_code hp (S n))
      rest (new_code ++ straight_code os) j.
Proof.
  intros Hw. unfold call_user_word. cbn [app inline_loop].
  change (is_callback (Callback op_eval_code) op_eval_code) with true.
  cbv iota. rewrite Hw. rewrite inline_calls_code_straight. reflexivity.
Qed.

(** X12: the inliner replaces the call of a word whose block is
    straight-line by that block: at any point of the loop of
    [inline_calls_code], whatever the new block and the pending
    branches are, and so in a block that is straight-line up to the
    call.  Any recursion budget of two or more does. *)
Theorem call_is_spliced hp w os n :
  word_code hp w = Ok (straight_code os) ->
  (forall rest new_code j,
     inline_loop hp (inline_calls_code hp (S n))
       (call_user_word w ++ rest) new_code j
     = inline_loop hp (inline_calls_code hp (S n))
         rest (new_code ++ straight_code os) j) /\
  (forall pre rest,
     inline_calls_code hp (S (S n))
       (straight_code pre ++ call_user_word w ++ rest) []
     = inline_calls_code hp (S (S n)) rest
         (straight_code pre ++ straight_code os)).
Proof.
  intros Hw. split.
  - intros rest new_code j. now apply inline_loop_call.
  - intros pre rest. rewrite !inline_calls_code_S.
    rewrite inline_loop_straight. now rewrite (@inline_loop_call hp w os n _ _ _ Hw).
Qed.

Lemma call_is_spliced_witness :
  inline_calls_code [user_word "sq" (straight_code [call_of B_dup; call_of B_mult])]
    2 (straight_code [push_of 3] ++ call_user_word 0 ++ [Callback op_halt]) []
  = Ok (straight_code [push_of 3; call_of B_dup; call_of B_mult]
        ++ [Callback op_halt]).
Proof.
  eapply eq_trans.
  - apply (proj2 (@call_is_spliced
                    [user_word "sq" (straight_code [call_of B_dup; call_of B_mult])]
                    O [call_of B_dup; call_of B_mult] O eq_refl)).
  - reflexivity.
Defined.

Lemma straight_code_app a b :
  straight_code (a ++ b) = straight_code a ++ straight_code b.
Proof. unfold straight_code. apply flat_map_app. Qed.

(** X13: calling a straight-line word is running its body in place.
    When the block of the word at [w] is straight-line, a main block
    that is straight-line but for one call of [w] is inlined into a
    block that runs as the instructions before the call, those of the
    word and those behind the call do, one after the other. *)
Theorem inlined_call_runs_body lm hp w os pre post n m :
  word_code hp w = Ok (straight_code os) ->
  exists code,
    inline_calls_code hp (S (S n))
      (straight_code pre ++ call_user_word w ++
       straight_code post ++ [Callback op_halt]) [] = Ok code /\
    run_from lm (S (List.length (pre ++ os ++ post))) code 0 m
    = final_machine (straight_steps lm (pre ++ os ++ post) m).
Proof.
  intros Hw.
  exists (straight_code (pre ++ os ++ post) ++ [Callback op_halt]). split.
  - rewrite inline_calls_code_S. rewrite inline_loop_straight.
    rewrite (@inline_loop_call hp w os n _ _ _ Hw).
    rewrite inline_loop_straight. cbn [inline_loop].
    change (is_callback (Callback op_halt) op_eval_code) with false.
    cbv iota. unfold patch_branches.
    change (is_callback (Callback op_halt) op_jump_if) with false.
    change (is_callback (Callback op_halt) op_jump) with false.
    change (is_callback (Callback op_halt) op_nop) with false.
    change (is_callback (Callback op_halt) op_number) with false.
    cbv iota. unfold forth_code_append.
    rewrite !straight_code_app. cbn [app]. now rewrite <- !app_assoc.
  - exact (@straight_code_runs lm (pre ++ os ++ post) [] m).
Qed.

Lemma inlined_call_runs_body_witness :
  exists code,
    inline_calls_code
      [user_word "sq" (straight_code [call_of B_dup; call_of B_mult])] 2
      (straight_code [push_of 3] ++ call_user_word 0 ++
       straight_code [call_of B_negate] ++ [Callback op_halt]) [] = Ok code /\
    run_from no_libm 5 code 0
      {| d_stack := []; r_stack := [];
         vars := vars_with_x 0 0 0 0 []; draws := O |}
    = Ok {| d_stack := [(-9)%float]; r_stack := [];
            vars := vars_with_x 0 0 0 0 []; draws := O |}.
Proof.
  destruct (@inlined_call_runs_body no_libm
    [user_word "sq" (straight_code [call_of B_dup; call_of B_mult])] O
    [call_of B_dup; call_of B_mult] [push_of 3] [call_of B_negate] O
    {| d_stack := []; r_stack := [];
       vars := vars_with_x 0 0 0 0 []; draws := O |} eq_refl)
    as (code & Hi & Hr).
  exists code. split; [exact Hi|].
  eapply eq_trans; [exact Hr|]. vm_compute. reflexivity.
Defined.

Lemma self_call_is_refused hp w pre body :
  word_code hp w = Ok (straight_code pre ++ call_user_word w ++ body) ->
  forall nested before rest new_code,
    inline_calls_code hp nested
      (straight_code before ++ call_user_word w ++ rest) new_code
    = Err E_recursion_limit.
Proof.
  intros Hw. induction nested as [|n IH]; intros before rest new_code.
  - reflexivity.
  - cbn [inline_calls_code]. rewrite inline_loop_straight.
    unfold call_user_word at 1. cbn [app inline_loop].
    change (is_callback (Callback op_eval_code) op_eval_code) with true.
    cbv iota. rewrite Hw. rewrite IH. reflexivity.
Qed.

(** X14: a word that calls itself cannot be inlined.  When the state
    up to the [halt] has a main block that gets, through straight-line
    instructions, to the call of a word whose own block gets, through
    straight-line instructions, to a call of itself, no recursion
    budget is enough for [inline_calls_code], and [forth_parse_string]
    fails with the report that the recursion limit is reached. *)
Theorem recursion_is_refused strtod ctx src ctx1 w pre body before rest :
  parse_source strtod ctx src = Ok ctx1 ->
  main_code ctx1 = Ok (straight_code before ++ call_user_word w ++ rest) ->
  word_code (heap ctx1) w
    = Ok (straight_code pre ++ call_user_word w ++ body) ->
  forth_parse_string strtod ctx src = Err E_recursion_limit /\
  forall nested new_code,
    inline_calls_code (heap ctx1) nested
      (straight_code before ++ call_user_word w ++ rest) new_code
    = Err E_recursion_limit.
Proof.
  intros Hsrc Hmain Hw. split.
  - unfold forth_parse_string. rewrite Hsrc. cbn [bind].
    unfold inline_calls. unfold main_code in Hmain. rewrite Hmain. cbn [bind].
    now rewrite (@self_call_is_refused (heap ctx1) w pre body Hw).
  - intros nested new_code.
    apply (@self_call_is_refused (heap ctx1) w pre body Hw).
Qed.

Lemma recursion_is_refused_witness :
  forth_parse_string strtod_decimal forth_new ": down 1 - down ; 9 down"
  = Err E_recursion_limit.
Proof.
  assert (H : exists ctx1,
             parse_source strtod_decimal forth_new ": down 1 - down ; 9 down"
             = Ok ctx1) by (eexists; vm_compute; reflexivity).
  destruct H as [ctx1 H].
  pose proof H as H0. vm_compute in H0. inversion H0 as [E]. clear H0.
  refine (proj1 (@recursion_is_refused strtod_decimal forth_new _ ctx1
                   (List.length (heap forth_new))
                   [push_of 1; call_of B_minus] [] [push_of 9]
                   [Callback op_halt] H _ _));
    rewrite <- E; vm_compute; reflexivity.
Defined.

(** ** Comments and bytes that are not printable *)


Lemma strchr_app_none : forall text c rest,
  strchr text c = None ->
  strchr (text ++ String c rest) c = Some (String c rest).
Proof.
  induction text as [|a text IH]; intros c rest H; simpl in *.
  - now rewrite Ascii.eqb_refl.
  - destruct (Ascii.eqb a c); [discriminate|]. now apply IH.
Qed.

(** What [found_word] does with a comment word whose closing byte [c]
    comes behind [text]. *)
Lemma found_word_closed_comment strtod ctx w text tail b id c :
  b = BUILTIN_COMPILER (name b) id ->
  (forall k, callback_compiler id ctx k =
             (r <- skip_through k c ;; Ok (ctx, r))) ->
  (Z.of_nat (String.length (name b)) <= MAX_WORD_LEN) ->
  knows_builtin ctx b ->
  parse_number strtod (name b) = None ->
  defining_word ctx = Some w ->
  strchr text c = None ->
  found_word strtod ctx (text ++ String c tail) (name b) = Ok (ctx, tail).
Proof.
  intros Hb Hcb Hlen (p & Hh & Hp) Hn Hd Hs.
  unfold found_word.
  replace (MAX_WORD_LEN <? Z.of_nat (String.length (name b))) with false
    by (symmetry; apply Z.ltb_ge; exact Hlen).
  rewrite Hn, Hd, Hh, Hp. rewrite Hb. cbn [routine BUILTIN_COMPILER].
  rewrite Hcb. unfold skip_through. rewrite (@strchr_app_none text c tail Hs).
  reflexivity.
Qed.

Lemma scan_word_token text s :
  starts_blank (text ++ s) = true ->
  forall w, token w = true ->
  scan_word (skip_spaces (w ++ text ++ s)) = Ok (w, (text ++ s)%string).
Proof.
  intros H w Hw. rewrite skip_spaces_token by assumption.
  apply scan_word_printable; [now apply token_printable | assumption].
Qed.

Lemma turns_trans strtod a ca b cb c cc :
  turns strtod a ca b cb -> turns strtod b cb c cc -> turns strtod a ca c cc.
Proof.
  induction 1 as [|ctx code ch word rest ctx1 c1 code1 ctx' code' Hs Hf Ht IH];
    intros H2; [exact H2|].
  eapply turns_next; [exact Hs | exact Hf | now apply IH].
Qed.

Lemma turn_over_comment strtod ctx w pre text c rest :
  knows_builtin ctx backslash_word -> knows_builtin ctx paren_word ->
  parse_number strtod "\" = None -> parse_number strtod "(" = None ->
  defining_word ctx = Some w ->
  blank pre = true ->
  (starts_blank (text ++ String newline EmptyString) = true ->
   strchr text newline = None ->
   turns strtod ctx (pre ++ "\" ++ text ++ String newline (String c rest))
     ctx rest) /\
  (starts_blank (text ++ ")") = true ->
   strchr text ")" = None ->
   turns strtod ctx (pre ++ "(" ++ text ++ String ")" (String c rest))
     ctx rest).
Proof.
  intros Kb Kp Nb Np Hd Hp. split; intros Hb Hs.
  - eapply turns_next with (c := "\"%char) (word := EmptyString);
      [| |apply turns_here].
    + rewrite skip_spaces_blank by assumption.
      apply (@scan_word_token text (String newline (String c rest)));
        [|reflexivity].
      destruct text; [reflexivity | exact Hb].
    + apply (@found_word_closed_comment strtod ctx w text (String c rest)
               backslash_word C_backslash newline);
        try assumption; try reflexivity.
      unfold MAX_WORD_LEN. simpl. lia.
  - eapply turns_next with (c := "("%char) (word := EmptyString);
      [| |apply turns_here].
    + rewrite skip_spaces_blank by assumption.
      apply (@scan_word_token text (String ")" (String c rest)));
        [|reflexivity].
      destruct text; [exact Hb | exact Hb].
    + apply (@found_word_closed_comment strtod ctx w text (String c rest)
               paren_word C_paren ")"%char);
        try assumption; try reflexivity.
      unfold MAX_WORD_LEN. simpl. lia.
Qed.

(** X15: a comment takes one byte too many.  When the loop of
    [forth_parse_string] gets, inside or outside a definition but not
    right behind a [:], to the word [\] with a newline in the bytes
    behind it, or to the word [(] with a [)] behind it, it goes on in
    the same state behind the byte that follows the newline or the [)]:
    that byte [c] is never looked at, whatever it is. *)
Theorem closed_comment_skips strtod ctx src ctx' w pre text c rest :
  knows_builtin ctx backslash_word -> knows_builtin ctx paren_word ->
  parse_number strtod "\" = None -> parse_number strtod "(" = None ->
  defining_word ctx' = Some w ->
  blank pre = true ->
  (reaches strtod ctx src ctx'
     (pre ++ "\" ++ text ++ String newline (String c rest)) ->
   starts_blank (text ++ String newline EmptyString) = true ->
   strchr text newline = None ->
   reaches strtod ctx src ctx' rest) /\
  (reaches strtod ctx src ctx'
     (pre ++ "(" ++ text ++ String ")" (String c rest)) ->
   starts_blank (text ++ ")") = true ->
   strchr text ")" = None ->
   reaches strtod ctx src ctx' rest).
Proof.
  intros Kb Kp Nb Np Hd Hp.
  split; intros Ht Hb Hs; unfold reaches in *.
  - eapply turns_trans; [exact Ht|].
    apply (@turn_over_comment strtod ctx' w pre text c rest);
      try assumption;
      eapply turns_keeps_builtins; try exact Ht; assumption.
  - eapply turns_trans; [exact Ht|].
    apply (@turn_over_comment strtod ctx' w pre text c rest);
      try assumption;
      eapply turns_keeps_builtins; try exact Ht; assumption.
Qed.

Lemma closed_comment_skips_witness :
  exists ctx',
    reaches strtod_decimal forth_new ("1 \ one" ++ String newline "2 3")
      ctx' " 3" /\
    main_code ctx' = Ok [Callback op_number; Number 1%float].
Proof.
  destruct forth_new_knows_comment_words as [Kb Kp].
  assert (H : exists ctx',
             reaches strtod_decimal forth_new
               ("1 \ one" ++ String newline "2 3") ctx'
               (EmptyString ++ "\" ++ " one" ++
                String newline (String "2"%char " 3")) /\
             defining_word ctx' = Some O /\
             main_code ctx' = Ok [Callback op_number; Number 1%float]).
  { eexists. split; [unfold reaches; turn; apply turns_here|].
    split; reflexivity. }
  destruct H as (ctx' & Ht & Hd & Hm).
  exists ctx'. split; [|exact Hm].
  exact (proj1 (@closed_comment_skips strtod_decimal forth_new _ ctx' O
                  EmptyString " one" "2"%char " 3" Kb Kp eq_refl eq_refl
                  Hd eq_refl) Ht eq_refl eq_refl).
Defined.

Lemma scan_word_unprintable : forall w c rest,
  string_forall (fun c => negb (isspace c) && isprint c) w = true ->
  isspace c = false -> isprint c = false ->
  scan_word (skip_spaces (w ++ String c rest)) = Err E_not_printable.
Proof.
  intros w c rest Hw Hs Hp.
  assert (E : skip_spaces (w ++ String c rest) = (w ++ String c rest)%string).
  { destruct w as [|a w]; simpl in *; [now rewrite Hs|].
    apply andb_prop in Hw. destruct Hw as [Ha _].
    apply andb_prop in Ha. destruct Ha as [Ha _].
    apply negb_true_iff in Ha. now rewrite Ha. }
  rewrite E. clear E. induction w as [|a w IH]; simpl in *.
  - now rewrite Hs, Hp.
  - apply andb_prop in Hw. destruct Hw as [Ha Hw].
    apply andb_prop in Ha. destruct Ha as [Ha1 Ha2].
    apply negb_true_iff in Ha1. rewrite Ha1, Ha2. simpl.
    now rewrite (IH Hw).
Qed.

(** X16: a byte that is neither printable nor white space stops the
    parser.  When the loop of [forth_parse_string] gets to bytes that
    hold, behind white space and any number of printable bytes of a
    word, such a byte, [forth_parse_string] fails, and the word is not
    looked up. *)
Theorem unprintable_byte_fails strtod ctx src ctx' pre w c rest :
  reaches strtod ctx src ctx' (pre ++ w ++ String c rest) ->
  blank pre = true ->
  string_forall (fun c => negb (isspace c) && isprint c) w = true ->
  isspace c = false -> isprint c = false ->
  forth_parse_string strtod ctx src = Err E_not_printable.
Proof.
  intros Ht Hp Hw Hs Hpr. unfold reaches in Ht.
  unfold forth_parse_string, parse_source.
  destruct (turns_parse_words Ht (f := S (String.length (c_str src))))
    as [_ E]; [lia|].
  rewrite E. cbn [parse_words].
  destruct (pre ++ w ++ String c rest)%string as [|a s] eqn:Ec.
  - destruct pre; [destruct w; discriminate | discriminate].
  - rewrite <- Ec. rewrite skip_spaces_blank by assumption.
    rewrite scan_word_unprintable by assumption. reflexivity.
Qed.

Lemma unprintable_byte_fails_witness :
  forth_parse_string strtod_decimal forth_new
    ("1 2 + du" ++ String "127"%char "p") = Err E_not_printable.
Proof.
  eapply (@unprintable_byte_fails strtod_decimal forth_new _ _
            EmptyString "du" "127"%char "p");
    [|reflexivity|reflexivity|reflexivity|reflexivity].
  unfold reaches. do 3 turn. apply turns_here.
Defined.

(** ** The state a program leaves *)

Lemma keeps_names_refl ctx : keeps_names ctx ctx.
Proof. split; auto. Qed.

Lemma keeps_names_trans a b c :
  keeps_names a b -> keeps_names b c -> keeps_names a c.
Proof. intros [M1 H1] [M2 H2]. split; [congruence | auto]. Qed.

Lemma same_fields_keeps_names ctx ctx' :
  main ctx' = main ctx -> words ctx' = words ctx -> keeps_names ctx ctx'.
Proof. intros Hm Hw. split; [exact Hm|]. intros n p H. now rewrite Hw. Qed.

Lemma EMIT_keeps_names ctx s ctx' i :
  EMIT ctx s = Ok (ctx', i) -> keeps_names ctx ctx'.
Proof.
  intros H. apply EMIT_fields in H. destruct H as (_ & _ & Hm & Hw).
  now apply same_fields_keeps_names.
Qed.

Lemma set_word_code_keeps_names ctx w code ctx' :
  set_word_code ctx w code = Ok ctx' -> keeps_names ctx ctx'.
Proof.
  intros H. apply set_word_code_fields in H. destruct H as (_ & _ & Hm & Hw).
  now apply same_fields_keeps_names.
Qed.

Lemma builtin_else_then_keeps_names ctx is_then ctx' :
  builtin_else_then ctx is_then = Ok ctx' -> keeps_names ctx ctx'.
Proof.
  unfold builtin_else_then.
  destruct (j_stack ctx) as [|prev j]; [discriminate|].
  destruct (defining_word ctx) as [w|]; [|discriminate].
  intros H. bind_inv H. bind_inv H. bind_inv H. bind_inv H. bind_inv H.
  apply set_word_code_keeps_names in H.
  eapply keeps_names_trans; [|exact H].
  apply keeps_names_trans with (b := set_j_stack ctx j);
    [now apply same_fields_keeps_names|].
  destruct is_then.
  - bind_inv Ha1. destruct a4 as [c1 i1]. inversion Ha1; subst.
    eapply EMIT_keeps_names; eassumption.
  - bind_inv Ha1. destruct a4 as [c1 i1].
    destruct (j_stack_capacity <=? _); [discriminate|].
    bind_inv Ha1. destruct a4 as [c2 i2]. inversion Ha1; subst.
    apply keeps_names_trans with (b := c2);
      [|now apply same_fields_keeps_names].
    eapply keeps_names_trans; eapply EMIT_keeps_names; eassumption.
Qed.

Lemma callback_compiler_keeps_names c ctx code ctx' code' :
  callback_compiler c ctx code = Ok (ctx', code') -> keeps_names ctx ctx'.
Proof.
  destruct c; simpl; intros H.
  - bind_inv H. inversion H; subst. apply keeps_names_refl.
  - bind_inv H. inversion H; subst. apply keeps_names_refl.
  - destruct (is_inside_word_def ctx); [discriminate|].
    inversion H; subst. now apply same_fields_keeps_names.
  - destruct (j_stack ctx); [|discriminate].
    destruct (negb (is_inside_word_def ctx)); [discriminate|].
    inversion H; subst. now apply same_fields_keeps_names.
  - destruct (j_stack_capacity <=? _); [discriminate|].
    bind_inv H. destruct a as [c1 i1]. bind_inv H. destruct a as [c2 i2].
    inversion H; subst.
    apply keeps_names_trans with (b := c2);
      [|now apply same_fields_keeps_names].
    eapply keeps_names_trans; eapply EMIT_keeps_names; eassumption.
  - bind_inv H. inversion H; subst.
    eapply builtin_else_then_keeps_names; eassumption.
  - bind_inv H. inversion H; subst.
    eapply builtin_else_then_keeps_names; eassumption.
Qed.

Lemma hash_find_cons n q ws k :
  hash_find ((n, q) :: ws) k =
  if String.eqb n k then Some q else hash_find ws k.
Proof. unfold hash_find. simpl. destruct (String.eqb n k); reflexivity. Qed.

Lemma found_word_keeps_names strtod ctx code word ctx' code' :
  found_word strtod ctx code word = Ok (ctx', code') -> keeps_names ctx ctx'.
Proof.
  unfold found_word.
  destruct (MAX_WORD_LEN <? _); [discriminate|].
  destruct (parse_number strtod word) as [number|].
  - destruct (defining_word ctx); [|discriminate]. intros H.
    bind_inv H. destruct a as [c1 i1]. bind_inv H. destruct a as [c2 i2].
    inversion H; subst.
    eapply keeps_names_trans; eapply EMIT_keeps_names; eassumption.
  - destruct (defining_word ctx) as [w|].
    + destruct (hash_find (words ctx) word) as [p|]; [|discriminate].
      destruct (nth_error (heap ctx) p) as [[b|n c]|]; [| |discriminate].
      * destruct (routine b); try apply callback_compiler_keeps_names;
          intros H; bind_inv H; destruct a as [c1 i1];
          inversion H; subst; eapply EMIT_keeps_names; eassumption.
      * intros H.
        bind_inv H. destruct a as [c1 i1]. bind_inv H. destruct a as [c2 i2].
        inversion H; subst.
        eapply keeps_names_trans; eapply EMIT_keeps_names; eassumption.
    + destruct (hash_find (words ctx) word) eqn:Eh; [discriminate|].
      unfold new_word, new_user_word.
      destruct (MAX_WORD_LEN <? _); [discriminate|].
      intros H. inversion H; subst. split; [reflexivity|].
      intros n p Hn. cbn [words set_defining_word add_word fst].
      rewrite hash_find_cons.
      destruct (String.eqb word n) eqn:En; [|exact Hn].
      apply String.eqb_eq in En. subst n. congruence.
Qed.

(** What holds between the states before and after a turn holds between
    the states before and after the loop. *)
Lemma parse_words_invariant strtod (R : forth_ctx -> forth_ctx -> Prop) :
  (forall ctx, R ctx ctx) ->
  (forall a b c, R a b -> R b c -> R a c) ->
  (forall ctx code word ctx' code',
     found_word strtod ctx code word = Ok (ctx', code') -> R ctx ctx') ->
  forall fuel ctx code ctx1,
    parse_words strtod fuel ctx code = Ok ctx1 -> R ctx ctx1.
Proof.
  intros Hrefl Htrans Hstep.
  induction fuel as [|fuel IH]; intros ctx code ctx1 H; [discriminate|].
  cbn [parse_words] in H. destruct code as [|a code].
  - inversion H; subst. apply Hrefl.
  - bind_inv H. destruct a0 as [word rest].
    destruct word as [|c word]; [inversion H; subst; apply Hrefl|].
    bind_inv H. destruct a0 as [ctx' code'].
    apply Hstep in Ha0.
    destruct code' as [|c1 code1].
    + inversion H; subst. exact Ha0.
    + eapply Htrans; [exact Ha0|]. eapply IH. exact H.
Qed.

Lemma peephole_keeps ctx ctx' modified :
  peephole ctx = Ok (ctx', modified) ->
  keeps_builtins ctx ctx' /\ keeps_names ctx ctx' /\
  defining_word ctx' = defining_word ctx.
Proof.
  unfold peephole. destruct (defining_word ctx) as [w|] eqn:E; [|discriminate].
  intros H. bind_inv H. bind_inv H. destruct a0 as [code m].
  bind_inv H. inversion H; subst.
  split; [eapply set_word_code_keeps; eassumption|].
  split; [eapply set_word_code_keeps_names; eassumption|].
  apply set_word_code_fields in Ha1. destruct Ha1 as (_ & Hd & _).
  congruence.
Qed.

Lemma forth_parse_string_post strtod ctx src ctx' :
  forth_parse_string strtod ctx src = Ok ctx' ->
  keeps_builtins ctx ctx' /\
  main ctx' = main ctx /\
  (forall n p, hash_find (words ctx) n = Some p ->
               hash_find (words ctx') n = Some p) /\
  is_inside_word_def ctx' = false /\
  exists code, main_code ctx' = Ok code /\ check_stack_effects code = Ok tt.
Proof.
  unfold forth_parse_string. intros H.
  apply bind_Ok in H. destruct H as (ctx1 & Hsrc & H).
  apply bind_Ok in H. destruct H as (ctx2 & Hinl & H).
  unfold parse_source in Hsrc.
  apply bind_Ok in Hsrc. destruct Hsrc as (ctx0 & Hpw & Hsrc).
  destruct (is_inside_word_def ctx0) eqn:Ein; [discriminate|].
  apply bind_Ok in Hsrc. destruct Hsrc as ([c i] & Hhalt & Hsrc).
  inversion Hsrc; subst c; clear Hsrc.
  unfold inline_calls in Hinl.
  apply bind_Ok in Hinl. destruct Hinl as (mc & _ & Hinl).
  apply bind_Ok in Hinl. destruct Hinl as (new_main & _ & Hset).
  unfold optimise_and_check in H.
  apply bind_Ok in H. destruct H as ([c1 modified] & Hp1 & H).
  apply bind_Ok in H. destruct H as (c2 & Hp2 & H).
  apply bind_Ok in H. destruct H as (final & Hmain & H).
  apply bind_Ok in H. destruct H as (u & Hchk & H).
  inversion H; subst c2; clear H.
  assert (K0 : keeps_builtins ctx ctx0 /\ keeps_names ctx ctx0).
  { split.
    - eapply keeps_builtins_trans; [apply (@set_j_stack_keeps ctx [])|].
      eapply (@parse_words_invariant strtod keeps_builtins);
        [apply keeps_builtins_refl | apply keeps_builtins_trans | |exact Hpw].
      intros. eapply found_word_post. eassumption.
    - apply keeps_names_trans with (b := set_j_stack ctx []);
        [now apply same_fields_keeps_names|].
      eapply (@parse_words_invariant strtod keeps_names);
        [apply keeps_names_refl | apply keeps_names_trans | |exact Hpw].
      intros. eapply found_word_keeps_names. eassumption. }
  assert (K1 : keeps_builtins ctx0 ctx2 /\ keeps_names ctx0 ctx2 /\
               defining_word ctx2 = defining_word ctx0).
  { split; [|split].
    - eapply keeps_builtins_trans;
        [eapply EMIT_keeps | eapply set_word_code_keeps]; eassumption.
    - eapply keeps_names_trans;
        [eapply EMIT_keeps_names | eapply set_word_code_keeps_names];
        eassumption.
    - apply EMIT_fields in Hhalt. apply set_word_code_fields in Hset.
      destruct Hhalt as (_ & D1 & _). destruct Hset as (_ & D2 & _).
      congruence. }
  assert (K2 : keeps_builtins ctx2 ctx' /\ keeps_names ctx2 ctx' /\
               defining_word ctx' = defining_word ctx2).
  { pose proof (peephole_keeps _ Hp1) as (B1 & N1 & D1).
    destruct modified.
    - apply bind_Ok in Hp2. destruct Hp2 as ([c3 m3] & Hp3 & Hp2).
      inversion Hp2; subst c3.
      pose proof (peephole_keeps _ Hp3) as (B2 & N2 & D2).
      split; [eapply keeps_builtins_trans; eassumption|].
      split; [eapply keeps_names_trans; eassumption | congruence].
    - inversion Hp2; subst. auto. }
  destruct K0 as [B0 N0]. destruct K1 as (B1 & N1 & D1).
  destruct K2 as (B2 & N2 & D2).
  pose proof (keeps_names_trans N0 (keeps_names_trans N1 N2)) as [Hm Hn].
  split; [eapply keeps_builtins_trans; [exact B0|];
          eapply keeps_builtins_trans; eassumption|].
  split; [exact Hm|]. split; [exact Hn|]. split.
  - unfold is_inside_word_def in *. rewrite D2, D1.
    destruct (defining_word ctx0) as [w|]; [|discriminate].
    destruct N1 as [M1 _]. destruct N2 as [M2 _]. now rewrite M2, M1.
  - exists final. split; [exact Hmain|]. destruct u. exact Hchk.
Qed.

(** X17: what a successful [forth_parse_string] leaves.  The state it
    returns resolves every builtin the state it was given resolved,
    has the same main word, resolves every name that was resolved
    before to the same word, is outside any definition, and has a main
    block that [check_stack_effects] accepts. *)
Theorem accepted_source_state strtod ctx src ctx' :
  forth_parse_string strtod ctx src = Ok ctx' ->
  keeps_builtins ctx ctx' /\
  main ctx' = main ctx /\
  (forall n p, hash_find (words ctx) n = Some p ->
               hash_find (words ctx') n = Some p) /\
  is_inside_word_def ctx' = false /\
  exists code, main_code ctx' = Ok code /\ check_stack_effects code = Ok tt.
Proof. intros H. exact (forth_parse_string_post _ _ _ H). Qed.

Lemma accepted_source_state_witness :
  exists ctx',
    forth_parse_string strtod_decimal forth_new ": sq dup * ; 3 sq" = Ok ctx' /\
    main ctx' = main forth_new /\
    hash_find (words ctx') "dup" = hash_find (words forth_new) "dup" /\
    is_inside_word_def ctx' = false.
Proof.
  assert (H : exists ctx',
             forth_parse_string strtod_decimal forth_new ": sq dup * ; 3 sq"
             = Ok ctx') by (eexists; vm_compute; reflexivity).
  destruct H as [ctx' H]. exists ctx'. split; [exact H|].
  destruct (accepted_source_state _ _ _ H) as (_ & Hm & Hn & Hd & _).
  split; [exact Hm|]. split; [|exact Hd].
  apply (Hn "dup" 19%nat). vm_compute. reflexivity.
Defined.

(** [forth_new] registers every builtin under its own name: no
    descriptor of the two sections is hidden by a later one. *)
Lemma forth_new_registers :
  Forall (knows_builtin forth_new)
    (forth_builtin_section ++ forth_compiler_builtin_section).
Proof.
  unfold forth_builtin_section, forth_compiler_builtin_section. cbn [app].
  repeat (apply Forall_cons; [eexists; split; vm_compute; reflexivity|]).
  apply Forall_nil.
Qed.

(** X18: the builtins stay registered.  In the state [forth_new]
    returns and in every state that successful calls of
    [forth_parse_string] make of it, each descriptor of the two builtin
    sections (the private words the optimiser looks up by name
    included) is what its name resolves to; the main word is the one
    [forth_new] made, and no definition is open. *)
Theorem builtins_stay_registered strtod ctx :
  parsed strtod ctx ->
  (forall b, In b (forth_builtin_section ++ forth_compiler_builtin_section) ->
             knows_builtin ctx b) /\
  main ctx = main forth_new /\
  is_inside_word_def ctx = false.
Proof.
  induction 1 as [|ctx src ctx' Hp (IHk & IHm & IHd) H].
  - split; [|split; reflexivity].
    apply Forall_forall. exact forth_new_registers.
  - destruct (forth_parse_string_post _ _ _ H) as (Hk & Hm & _ & Hd & _).
    split; [|split; [congruence | exact Hd]].
    intros b Hb. apply Hk. now apply IHk.
Qed.

Lemma builtins_stay_registered_witness :
  exists ctx,
    forth_parse_string strtod_decimal forth_new ": sq dup * ; 3 sq" = Ok ctx /\
    knows_builtin ctx (BUILTIN " dupdup" B_dupdup 4 1).
Proof.
  assert (H : exists ctx,
             forth_parse_string strtod_decimal forth_new ": sq dup * ; 3 sq"
             = Ok ctx) by (eexists; vm_compute; reflexivity).
  destruct H as [ctx H]. exists ctx. split; [exact H|].
  apply (proj1 (@builtins_stay_registered strtod_decimal ctx
                  (@parsed_more strtod_decimal _ _ _ (parsed_new strtod_decimal) H))).
  unfold forth_builtin_section. apply in_or_app. left.
  do 19 right. left. reflexivity.
Defined.

(** ** Finished words *)

Lemma freezes_refl ctx : freezes ctx ctx.
Proof. split; auto. Qed.

Lemma freezes_trans a b c : freezes a b -> freezes b c -> freezes a c.
Proof.
  intros [M1 H1] [M2 H2]. split; [congruence|]. intros p Hp.
  destruct (H1 p Hp) as [F1 E1]. destruct (H2 p F1) as [F2 E2].
  split; [exact F2 | congruence].
Qed.

Lemma set_word_length : forall hp w v,
  List.length (set_word hp w v) = List.length hp.
Proof.
  induction hp as [|a hp IH]; intros [|w] v; simpl; auto.
Qed.

Lemma same_heap_freezes ctx ctx' :
  main ctx' = main ctx -> heap ctx' = heap ctx ->
  (defining_word ctx' = defining_word ctx \/ defining_word ctx' = None \/
   defining_word ctx' = Some (main ctx)) ->
  freezes ctx ctx'.
Proof.
  intros Hm Hh Hd. split; [exact Hm|]. intros p (Hl & Hn & Hp).
  split; [|now rewrite Hh]. unfold finished_word. rewrite Hh, Hm.
  split; [exact Hl|]. split; [exact Hn|].
  destruct Hd as [Hd|[Hd|Hd]]; rewrite Hd; congruence.
Qed.

Lemma set_word_code_freezes ctx w code ctx' :
  set_word_code ctx w code = Ok ctx' ->
  defining_word ctx = Some w \/ w = main ctx ->
  freezes ctx ctx'.
Proof.
  unfold set_word_code.
  destruct (nth_error (heap ctx) w) as [[b|n c]|] eqn:E; try discriminate.
  intros H Hw. inversion H; subst; clear H. split; [reflexivity|].
  intros p (Hl & Hn & Hp). unfold finished_word. cbn [heap main defining_word].
  rewrite set_word_length. split; [auto|].
  apply set_word_other. destruct Hw as [Hw|Hw]; congruence.
Qed.

Lemma EMIT_freezes ctx s ctx' i :
  EMIT ctx s = Ok (ctx', i) -> freezes ctx ctx'.
Proof.
  unfold EMIT. destruct (defining_word ctx) as [w|] eqn:E; [|discriminate].
  intros H. apply bind_Ok in H. destruct H as (code & _ & H).
  apply bind_Ok in H. destruct H as (c & Hs & H). inversion H; subst.
  eapply set_word_code_freezes; [exact Hs | now left].
Qed.

Lemma builtin_else_then_freezes ctx is_then ctx' :
  builtin_else_then ctx is_then = Ok ctx' -> freezes ctx ctx'.
Proof.
  unfold builtin_else_then.
  destruct (j_stack ctx) as [|prev j]; [discriminate|].
  destruct (defining_word ctx) as [w|] eqn:Ed; [|discriminate].
  intros H.
  apply bind_Ok in H. destruct H as (code0 & _ & H).
  apply bind_Ok in H. destruct H as (slot & _ & H).
  apply bind_Ok in H. destruct H as (ctx2 & H2 & H).
  apply bind_Ok in H. destruct H as (code & _ & H).
  apply bind_Ok in H. destruct H as (code1 & _ & H).
  assert (F0 : freezes ctx (set_j_stack ctx j))
    by (apply same_heap_freezes; auto).
  assert (F2 : freezes (set_j_stack ctx j) ctx2 /\
               defining_word ctx2 = Some w).
  { destruct is_then.
    - apply bind_Ok in H2. destruct H2 as ([c1 i1] & E1 & H2).
      inversion H2; subst. split; [eapply EMIT_freezes; eassumption|].
      apply EMIT_fields in E1. destruct E1 as (_ & D & _).
      rewrite D. exact Ed.
    - apply bind_Ok in H2. destruct H2 as ([c1 i1] & E1 & H2).
      destruct (j_stack_capacity <=? _); [discriminate|].
      apply bind_Ok in H2. destruct H2 as ([c2 i2] & E2 & H2).
      inversion H2; subst. split.
      + eapply freezes_trans; [eapply EMIT_freezes; eassumption|].
        eapply freezes_trans; [eapply EMIT_freezes; eassumption|].
        apply same_heap_freezes; auto.
      + apply EMIT_fields in E1, E2. destruct E1 as (_ & D1 & _).
        destruct E2 as (_ & D2 & _). cbn [defining_word set_j_stack].
        rewrite D2, D1. exact Ed. }
  destruct F2 as [F2 D2].
  eapply freezes_trans; [exact F0|]. eapply freezes_trans; [exact F2|].
  eapply set_word_code_freezes; [exact H | now left].
Qed.

Lemma callback_compiler_freezes c ctx code ctx' code' :
  callback_compiler c ctx code = Ok (ctx', code') -> freezes ctx ctx'.
Proof.
  destruct c; unfold callback_compiler; intros H.
  - bind_inv H. inversion H; subst. apply freezes_refl.
  - bind_inv H. inversion H; subst. apply freezes_refl.
  - destruct (is_inside_word_def ctx); [discriminate|].
    inversion H; subst. apply same_heap_freezes; auto.
  - destruct (j_stack ctx); [|discriminate].
    destruct (negb (is_inside_word_def ctx)); [discriminate|].
    inversion H; subst. apply same_heap_freezes; auto.
  - destruct (j_stack_capacity <=? _); [discriminate|].
    bind_inv H. destruct a as [c1 i1]. bind_inv H. destruct a as [c2 i2].
    inversion H; subst.
    eapply freezes_trans; [eapply EMIT_freezes; eassumption|].
    eapply freezes_trans; [eapply EMIT_freezes; eassumption|].
    apply same_heap_freezes; auto.
  - bind_inv H. inversion H; subst.
    eapply builtin_else_then_freezes; eassumption.
  - bind_inv H. inversion H; subst.
    eapply builtin_else_then_freezes; eassumption.
Qed.

Lemma found_word_freezes strtod ctx code word ctx' code' :
  found_word strtod ctx code word = Ok (ctx', code') -> freezes ctx ctx'.
Proof.
  unfold found_word.
  destruct (MAX_WORD_LEN <? _); [discriminate|].
  destruct (parse_number strtod word) as [number|].
  - destruct (defining_word ctx); [|discriminate]. intros H.
    bind_inv H. destruct a as [c1 i1]. bind_inv H. destruct a as [c2 i2].
    inversion H; subst.
    eapply freezes_trans; eapply EMIT_freezes; eassumption.
  - destruct (defining_word ctx) as [w|].
    + destruct (hash_find (words ctx) word) as [p|]; [|discriminate].
      destruct (nth_error (heap ctx) p) as [[b|n c]|]; [| |discriminate].
      * destruct (routine b); try apply callback_compiler_freezes;
          intros H; bind_inv H; destruct a as [c1 i1];
          inversion H; subst; eapply EMIT_freezes; eassumption.
      * intros H.
        bind_inv H. destruct a as [c1 i1]. bind_inv H. destruct a as [c2 i2].
        inversion H; subst.
        eapply freezes_trans; eapply EMIT_freezes; eassumption.
    + destruct (hash_find (words ctx) word) eqn:Eh; [discriminate|].
      unfold new_word, new_user_word.
      destruct (MAX_WORD_LEN <? _); [discriminate|].
      intros H. inversion H; subst. split; [reflexivity|].
      intros p (Hl & Hn & Hp). unfold finished_word.
      cbn [heap main defining_word set_defining_word add_word fst snd].
      rewrite length_app. cbn [List.length]. split.
      * split; [lia|]. split; [exact Hn|]. intros E. inversion E. lia.
      * now apply nth_error_app1.
Qed.

Lemma turns_freezes strtod ctx code ctx' code' :
  turns strtod ctx code ctx' code' -> freezes ctx ctx'.
Proof.
  induction 1 as [|ctx code c word rest ctx1 c1 code1 ctx' code' Hs Hf Ht IH];
    [apply freezes_refl|].
  apply found_word_freezes in Hf. eapply freezes_trans; eassumption.
Qed.

(** X19: a finished word is never touched again.  A word that is on
    the heap and is neither the main word nor the word being defined
    stays so, with the same name and the same block, through every turn
    of the loop of [forth_parse_string] and through the whole of a
    successful [forth_parse_string], inlining and optimisation
    included. *)
Theorem defined_words_are_frozen strtod ctx p :
  finished_word ctx p ->
  (forall code ctx' code',
     turns strtod ctx code ctx' code' ->
     finished_word ctx' p /\ nth_error (heap ctx') p = nth_error (heap ctx) p) /\
  (forall src ctx',
     forth_parse_string strtod ctx src = Ok ctx' ->
     finished_word ctx' p /\ nth_error (heap ctx') p = nth_error (heap ctx) p).
Proof.
  intros Hp. split.
  - intros code ctx' code' Ht. apply turns_freezes in Ht.
    destruct Ht as [_ Ht]. now apply Ht.
  - intros src ctx' H.
    assert (F : freezes ctx ctx'); [|destruct F as [_ F]; now apply F].
    clear Hp. unfold forth_parse_string in H.
    apply bind_Ok in H. destruct H as (ctx1 & Hsrc & H).
    apply bind_Ok in H. destruct H as (ctx2 & Hinl & H).
    unfold parse_source in Hsrc.
    apply bind_Ok in Hsrc. destruct Hsrc as (ctx0 & Hpw & Hsrc).
    destruct (is_inside_word_def ctx0) eqn:Ein; [discriminate|].
    apply bind_Ok in Hsrc. destruct Hsrc as ([c i] & Hhalt & Hsrc).
    inversion Hsrc; subst c; clear Hsrc.
    unfold inline_calls in Hinl.
    apply bind_Ok in Hinl. destruct Hinl as (mc & _ & Hinl).
    apply bind_Ok in Hinl. destruct Hinl as (new_main & _ & Hset).
    unfold optimise_and_check in H.
    apply bind_Ok in H. destruct H as ([c1 modified] & Hp1 & H).
    apply bind_Ok in H. destruct H as (c2 & Hp2 & H).
    apply bind_Ok in H. destruct H as (final & Hmain & H).
    apply bind_Ok in H. destruct H as (u & Hchk & H).
    inversion H; subst c2; clear H.
    assert (P : forall a b m, peephole a = Ok (b, m) -> freezes a b).
    { intros a b m Hpe. unfold peephole in Hpe.
      destruct (defining_word a) as [w|] eqn:E; [|discriminate].
      apply bind_Ok in Hpe. destruct Hpe as (oc & _ & Hpe).
      apply bind_Ok in Hpe. destruct Hpe as ([nc mm] & _ & Hpe).
      apply bind_Ok in Hpe. destruct Hpe as (a' & Hs & Hpe).
      inversion Hpe; subst.
      eapply set_word_code_freezes; [exact Hs | now left]. }
    apply freezes_trans with (b := set_j_stack ctx []);
      [apply same_heap_freezes; auto|].
    apply freezes_trans with (b := ctx0).
    { eapply (@parse_words_invariant strtod freezes);
        [apply freezes_refl | apply freezes_trans | |exact Hpw].
      intros. eapply found_word_freezes. eassumption. }
    apply freezes_trans with (b := ctx1); [eapply EMIT_freezes; eassumption|].
    apply freezes_trans with (b := ctx2);
      [eapply set_word_code_freezes; [exact Hset | now right]|].
    apply freezes_trans with (b := c1); [eapply P; eassumption|].
    destruct modified.
    + apply bind_Ok in Hp2. destruct Hp2 as ([c3 m3] & Hp3 & Hp2).
      inversion Hp2; subst c3. eapply P; eassumption.
    + inversion Hp2; subst. apply freezes_refl.
Qed.

Lemma defined_words_are_frozen_witness :
  exists ctx ctx',
    forth_parse_string strtod_decimal forth_new ": sq dup * ;" = Ok ctx /\
    forth_parse_string strtod_decimal ctx "3 sq" = Ok ctx' /\
    nth_error (heap ctx') (List.length (heap forth_new))
    = Some (user_word "sq" [Callback (cb_builtin B_dup);
                            Callback (cb_builtin B_mult)]).
Proof.
  assert (H : exists ctx,
             forth_parse_string strtod_decimal forth_new ": sq dup * ;"
             = Ok ctx) by (eexists; vm_compute; reflexivity).
  destruct H as [ctx H].
  pose proof H as H0. vm_compute in H0. inversion H0 as [E]. clear H0.
  assert (H' : exists ctx',
             forth_parse_string strtod_decimal ctx "3 sq" = Ok ctx')
    by (rewrite <- E; eexists; vm_compute; reflexivity).
  destruct H' as [ctx' H'].
  exists ctx, ctx'. split; [exact H|]. split; [exact H'|].
  assert (F : finished_word ctx (List.length (heap forth_new))).
  { rewrite <- E. unfold finished_word. vm_compute.
    split; [apply le_n|]. split; discriminate. }
  destruct (proj2 (@defined_words_are_frozen strtod_decimal ctx _ F) _ _ H')
    as [_ Hn].
  rewrite Hn. rewrite <- E. vm_compute. reflexivity.
Defined.

(** ** The length of an optimised block *)

Lemma set_elem_length code i s code' :
  forth_code_set_elem code i s = Ok code' ->
  List.length code' = List.length code.
Proof.
  intros H. apply forth_code_set_elem_ok in H. destruct H as [-> _].
  apply set_nth_length.
Qed.

Lemma drop_last_length n code :
  (List.length (drop_last n code) <= List.length code)%nat.
Proof. unfold drop_last. rewrite length_firstn. lia. Qed.

Lemma rewrite_callback_length ctx code i n code' :
  rewrite_callback ctx code i n = Ok (Some code') ->
  List.length code' = List.length code.
Proof.
  unfold rewrite_callback. intros H.
  apply bind_Ok in H. destruct H as (cb & _ & H).
  apply bind_Ok in H. destruct H as (c & Hs & H).
  inversion H; subst. eapply set_elem_length; eassumption.
Qed.

Lemma fuse_with_two_length ctx code n code' :
  fuse_with_two ctx code n = Ok (Some code') ->
  (List.length code' <= List.length code)%nat.
Proof.
  unfold fuse_with_two. intros H.
  apply bind_Ok in H. destruct H as (cb & _ & H).
  apply bind_Ok in H. destruct H as (c & Hs & H).
  inversion H; subst. apply set_elem_length in Hs.
  pose proof (drop_last_length 1 c). lia.
Qed.

Lemma fold_constants_length code f code' :
  fold_constants code f = Ok (Some code') ->
  (List.length code' <= List.length code)%nat.
Proof.
  unfold fold_constants. intros H.
  destruct (4 <=? forth_code_len code); [|discriminate].
  apply bind_Ok in H. destruct H as (p1 & _ & H).
  destruct (is_callback p1 op_number); [|discriminate].
  apply bind_Ok in H. destruct H as (p3 & _ & H).
  destruct (is_callback p3 op_number); [|discriminate].
  apply bind_Ok in H. destruct H as (l & _ & H).
  apply bind_Ok in H. destruct H as (b & _ & H).
  apply bind_Ok in H. destruct H as (x & _ & H).
  apply bind_Ok in H. destruct H as (y & _ & H).
  apply bind_Ok in H. destruct H as (c & Hs & H).
  inversion H; subst. apply set_elem_length in Hs.
  pose proof (drop_last_length 2 c). lia.
Qed.

Ltac shorter :=
  match goal with
  | H : rewrite_callback _ _ _ _ = Ok (Some _) |- _ =>
      apply rewrite_callback_length in H; lia
  | H : fuse_with_two _ _ _ = Ok (Some _) |- _ =>
      apply fuse_with_two_length in H; lia
  | H : fold_constants _ _ = Ok (Some _) |- _ =>
      apply fold_constants_length in H; lia
  | H : Ok None = Ok (Some _) |- _ => discriminate H
  | H : Err _ = Ok _ |- _ => discriminate H
  end.

Lemma peephole_1_length ctx code b code' :
  peephole_1 ctx code b = Ok (Some code') ->
  (List.length code' <= List.length code)%nat.
Proof.
  unfold peephole_1. intros H.
  apply bind_Ok in H. destruct H as (last & _ & H).
  repeat match type of H with
         | (if ?c then _ else _) = _ => destruct c
         | bind _ _ = _ =>
             let x := fresh "x" in
             apply bind_Ok in H; destruct H as (x & _ & H)
         | match ?c with _ => _ end = _ => destruct c
         end; shorter.
Qed.

Lemma peephole_n_length ctx code b code' :
  peephole_n ctx code b = Ok (Some code') ->
  (List.length code' <= List.length code)%nat.
Proof.
  unfold peephole_n. intros H.
  repeat match type of H with
         | (if ?c then _ else _) = _ => destruct c
         | bind (forth_code_set_elem _ _ _) _ = _ =>
             let x := fresh "x" in
             let Hx := fresh "Hx" in
             apply bind_Ok in H; destruct H as (x & Hx & H);
             apply set_elem_length in Hx
         | bind _ _ = _ =>
             let x := fresh "x" in
             apply bind_Ok in H; destruct H as (x & _ & H)
         end; try shorter.
  inversion H; subst. lia.
Qed.

Lemma peephole_try_length ctx code inst code' :
  peephole_try ctx code inst = Ok (Some code') ->
  (List.length code' <= List.length code)%nat.
Proof.
  unfold peephole_try. destruct (find_builtin_by_callback inst) as [b|];
    [|discriminate].
  intros H. apply bind_Ok in H. destruct H as ([c1|] & H1 & H).
  - inversion H; subst.
    destruct (1 <? forth_code_len code); [|discriminate].
    eapply peephole_1_length; eassumption.
  - destruct (2 <? forth_code_len code); [|discriminate].
    eapply peephole_n_length; eassumption.
Qed.

Lemma patch_branches_length inst code j code' j' imm :
  patch_branches inst code j = Ok (code', j', imm) ->
  List.length code' = List.length code.
Proof.
  unfold patch_branches. intros H.
  repeat match type of H with
         | (if ?c then _ else _) = _ => destruct c
         | bind (forth_code_set_elem _ _ _) _ = _ =>
             let x := fresh "x" in
             let Hx := fresh "Hx" in
             apply bind_Ok in H; destruct H as (x & Hx & H);
             apply set_elem_length in Hx
         | bind _ _ = _ =>
             let x := fresh "x" in
             apply bind_Ok in H; destruct H as (x & _ & H);
             try destruct x
         end; inversion H; subst; congruence.
Qed.

Lemma peephole_loop_length ctx : forall n orig code j modified code' m',
  (List.length orig <= n)%nat ->
  peephole_loop ctx orig code j modified = Ok (code', m') ->
  (List.length code' <= List.length code + List.length orig)%nat.
Proof.
  induction n as [|n IH]; intros orig code j modified code' m' Hn H.
  - destruct orig; [|simpl in Hn; lia]. simpl in H. inversion H; subst. lia.
  - destruct orig as [|inst rest]; [simpl in H; inversion H; subst; lia|].
    cbn [peephole_loop] in H. cbn [List.length] in Hn |- *.
    destruct (peephole_try ctx code inst) as [[c1|]|] eqn:Et;
      [| |discriminate].
    + apply peephole_try_length in Et. apply IH in H; [lia|lia].
    + destruct (patch_branches inst (forth_code_append code inst) j)
        as [[[c2 j'] imm]|e] eqn:Ep.
      * apply patch_branches_length in Ep.
        unfold forth_code_append in Ep. rewrite length_app in Ep.
        cbn [List.length] in Ep.
        destruct imm.
        -- destruct rest as [|im rest']; [discriminate|].
           apply IH in H; [|simpl in Hn |- *; lia].
           unfold forth_code_append in H. rewrite length_app in H.
           cbn [List.length] in *. lia.
        -- apply IH in H; [lia|lia].
      * destruct e; try discriminate. inversion H; subst.
        unfold forth_code_append. rewrite length_app. cbn [List.length]. lia.
Qed.

(** X20: the optimiser never lengthens a block.  When [peephole]
    returns, the block of the word being defined has at most as many
    slots as it had. *)
Theorem peephole_never_lengthens ctx ctx' modified w :
  peephole ctx = Ok (ctx', modified) ->
  defining_word ctx = Some w ->
  exists old new,
    word_code (heap ctx) w = Ok old /\ word_code (heap ctx') w = Ok new /\
    forth_code_len new <= forth_code_len old.
Proof.
  unfold peephole. intros H Hw. rewrite Hw in H.
  apply bind_Ok in H. destruct H as (old & Ho & H).
  apply bind_Ok in H. destruct H as ([new m] & Hl & H).
  apply bind_Ok in H. destruct H as (c & Hs & H).
  inversion H; subst. exists old, new. split; [exact Ho|].
  split; [eapply set_word_code_main; eassumption|].
  apply (@peephole_loop_length ctx (List.length old)) in Hl; [|lia].
  unfold forth_code_len. simpl in Hl. lia.
Qed.

Lemma peephole_never_lengthens_witness :
  exists ctx ctx' modified old new,
    bind (parse_source strtod_decimal forth_new "pi 2 * dup dup")
         inline_calls = Ok ctx /\
    peephole ctx = Ok (ctx', modified) /\
    word_code (heap ctx) O = Ok old /\ word_code (heap ctx') O = Ok new /\
    forth_code_len new <= forth_code_len old.
Proof.
  assert (H : exists ctx,
             bind (parse_source strtod_decimal forth_new "pi 2 * dup dup")
                  inline_calls = Ok ctx) by (eexists; vm_compute; reflexivity).
  destruct H as [ctx H].
  pose proof H as H0. vm_compute in H0. inversion H0 as [E]. clear H0.
  assert (H' : exists r, peephole ctx = Ok r)
    by (rewrite <- E; eexists; vm_compute; reflexivity).
  destruct H' as [[ctx' modified] H'].
  assert (Hd : defining_word ctx = Some O) by (rewrite <- E; reflexivity).
  destruct (@peephole_never_lengthens ctx ctx' modified O H' Hd) as (old & new & Ho & Hn & Hl).
  exists ctx, ctx', modified, old, new.
  split; [exact H|]. split; [exact H'|]. auto.
Defined.

(** ** The length of a word *)

Lemma hash_find_new ws n p : hash_find ((n, p) :: ws) n = Some p.
Proof. rewrite hash_find_cons. now rewrite String.eqb_refl. Qed.

Lemma nth_error_new (A : Type) (l : list A) (a : A) :
  nth_error (l ++ [a]) (List.length l) = Some a.
Proof. rewrite nth_error_app2 by lia. now rewrite Nat.sub_diag. Qed.

(** What [found_word] does with a name of at most 64 bytes right behind
    a [:]. *)
Lemma found_word_new_word strtod ctx code word :
  Z.of_nat (String.length word) <= MAX_WORD_LEN ->
  parse_number strtod word = None ->
  defining_word ctx = None ->
  hash_find (words ctx) word = None ->
  exists ctx1 p,
    found_word strtod ctx code word = Ok (ctx1, code) /\
    hash_find (words ctx1) word = Some p /\
    nth_error (heap ctx1) p = Some (user_word word []) /\
    defining_word ctx1 = Some p /\
    nth_error (heap ctx) p = None.
Proof.
  intros Hlen Hn Hd Hh.
  assert (Hle : (MAX_WORD_LEN <? Z.of_nat (String.length word)) = false)
    by (apply Z.ltb_ge; lia).
  exists (defining_new_word ctx word), (List.length (heap ctx)).
  split; [|split; [|split; [|split]]].
  - unfold found_word. rewrite Hle, Hn, Hd, Hh.
    unfold new_word, new_user_word. rewrite Hle. reflexivity.
  - apply hash_find_new.
  - apply nth_error_new.
  - reflexivity.
  - apply nth_error_None. lia.
Qed.

(** X22: [found_word] reports a token of 65 bytes or more as too long,
    and [forth_parse_string] fails with that report whenever its loop
    gets to such a token.  A token of exactly 64 bytes is never reported
    as too long; right behind a [:], when it is neither a number nor a
    known word, it becomes a new user word: its name resolves to a word
    that was not on the heap before, has that name and an empty block
    and is the word being defined, and the loop goes on behind it. *)
Theorem word_length_limit strtod ctx code word :
  (MAX_WORD_LEN < Z.of_nat (String.length word) ->
   found_word strtod ctx code word = Err E_word_too_long /\
   forall ctx0 src pre rest,
     reaches strtod ctx0 src ctx (pre ++ word ++ rest) ->
     blank pre = true -> token word = true -> starts_blank rest = true ->
     forth_parse_string strtod ctx0 src = Err E_word_too_long)
  /\
  (Z.of_nat (String.length word) = MAX_WORD_LEN ->
   found_word strtod ctx code word <> Err E_word_too_long /\
   (parse_number strtod word = None ->
    defining_word ctx = None ->
    hash_find (words ctx) word = None ->
    exists ctx1 p,
      found_word strtod ctx code word = Ok (ctx1, code) /\
      hash_find (words ctx1) word = Some p /\
      nth_error (heap ctx1) p = Some (user_word word []) /\
      defining_word ctx1 = Some p /\
      nth_error (heap ctx) p = None /\
      forall ctx0 src pre c rest,
        reaches strtod ctx0 src ctx (pre ++ word ++ String c rest) ->
        blank pre = true -> token word = true -> isspace c = true ->
        reaches strtod ctx0 src ctx1 rest)).
Proof.
  split.
  - intros Hlen.
    assert (Hf : forall k, found_word strtod ctx k word = Err E_word_too_long).
    { intros k. unfold found_word.
      replace (MAX_WORD_LEN <? Z.of_nat (String.length word)) with true;
        [reflexivity|]. symmetry. now apply Z.ltb_lt. }
    split; [apply Hf|].
    intros ctx0 src pre rest Ht Hp Hw Hr.
    eapply forth_parse_string_at; eauto.
  - intros Hlen. split.
    + apply avoids_found_word; [reflexivity|]. intros _. lia.
    + intros Hn Hd Hh.
      assert (Hle : Z.of_nat (String.length word) <= MAX_WORD_LEN) by lia.
      destruct (@found_word_new_word strtod ctx code word Hle Hn Hd Hh)
        as (ctx1 & p & Hf & H1 & H2 & H3 & H4).
      exists ctx1, p. repeat (split; [assumption|]).
      intros ctx0 src pre c rest Ht Hp Hw Hc. unfold reaches in *.
      eapply turns_trans; [exact Ht|].
      destruct word as [|a word]; [discriminate|].
      eapply turns_next with (c := a) (word := word);
        [| |apply turns_here].
      * rewrite skip_spaces_blank by assumption.
        rewrite skip_spaces_token by assumption.
        apply scan_word_printable; [now apply token_printable | exact Hc].
      * destruct (@found_word_new_word strtod ctx (String c rest)
                    (String a word) Hle Hn Hd Hh)
          as (ctx2 & q & Hf2 & _).
        assert (E : ctx2 = ctx1).
        { pose proof Hf as Hf'. unfold found_word in Hf', Hf2.
          destruct (MAX_WORD_LEN <? _); [discriminate|].
          rewrite Hn, Hd, Hh in Hf', Hf2.
          destruct (new_word ctx (String a word) None) as [[c0 p0]|];
            [|discriminate].
          inversion Hf'; inversion Hf2; congruence. }
        rewrite <- E. exact Hf2.
Qed.

Lemma word_length_limit_witness :
  forth_parse_string strtod_decimal forth_new
    ("1 : " ++ repeat_string 65 "a" ++ " 7 ;") = Err E_word_too_long /\
  exists ctx1 p,
    reaches strtod_decimal forth_new (": " ++ repeat_string 64 "a" ++ " 7 ;")
      ctx1 "7 ;" /\
    hash_find (words ctx1) (repeat_string 64 "a") = Some p /\
    nth_error (heap ctx1) p = Some (user_word (repeat_string 64 "a") []) /\
    defining_word ctx1 = Some p.
Proof.
  split.
  - eapply (proj2 (proj1 (word_length_limit strtod_decimal _ EmptyString
                            (repeat_string 65 "a")) ltac:(vm_compute; reflexivity))
              forth_new _ EmptyString " 7 ;");
      [|reflexivity|reflexivity|reflexivity].
    unfold reaches. turn. turn. apply turns_here.
  - destruct (proj2 (proj2 (word_length_limit strtod_decimal
                    (set_defining_word forth_new None) " 7 ;"
                    (repeat_string 64 "a")) ltac:(reflexivity))
                ltac:(reflexivity) ltac:(reflexivity) ltac:(reflexivity))
      as (ctx1 & p & _ & H1 & H2 & H3 & _ & Hr).
    exists ctx1, p. split; [|auto].
    apply (Hr forth_new (": " ++ repeat_string 64 "a" ++ " 7 ;")%string
              EmptyString " "%char "7 ;");
      [|reflexivity|reflexivity|reflexivity].
    unfold reaches. turn. apply turns_here.
Defined.
